(** * People API: the person aggregate behind the REST and GraphQL surfaces

    A shallow embedding of [routes/people.js] (the REST handlers),
    [graphql/resolvers.js] (the GraphQL resolvers) and the SQL schema
    (tables [person] and [person_contacts], their constraints and the
    [trg_person_updated] trigger), followed by the properties of the
    specification stated over that embedding.

    Conventions.
    - A JavaScript [Date] is the integer number of milliseconds since the
      epoch ([getTime]); [getUTCFullYear], [getUTCMonth] and [getUTCDate]
      are computed from it with the proleptic Gregorian calendar.
    - A JavaScript number that holds an integer is that integer; the
      integers of a request go through [Number], the rounding to a double,
      before the handler reads them.
    - The request body is what Ajv leaves of it: Fastify validates with
      type coercion, which rewrites the body in place ([coerceTypes]).
      The tests of [ajv-formats] on text are a parameter ([Formats]).
    - A uuid is an opaque number.
    - A table is the list of its rows in insertion order.
    - [order by email asc] compares text bytewise.
    - The text renderings [toISOString()] of the DTO fields [birthday],
      [created] and [modified] are carried as the [Date] they render. *)

From Stdlib Require Import ZArith List String Ascii Bool Lia.
From Stdlib Require Import Sorted Permutation DecimalString OrderedTypeEx.
From Stdlib Require Import DecimalPos DecimalZ.
Import ListNotations.

Open Scope string_scope.
Open Scope Z_scope.

(* ================================================================== *)
(** ** JavaScript dates *)

Module JsDate.

Definition Date := Z.

Definition msPerDay : Z := 86400000.

(** Day number of an instant, counted from 1970-01-01. *)
Definition Day (t : Date) : Z := t / msPerDay.

(** Civil date of a day number: days are shifted to an era of 400 years
    that starts on 1 March, so that the leap day is the last of its year. *)
Definition civil (days : Z) : Z * Z * Z :=
  let z := days + 719468 in
  let era := z / 146097 in
  let doe := z - era * 146097 in
  let yoe := (doe - doe / 1460 + doe / 36524 - doe / 146096) / 365 in
  let doy := doe - (365 * yoe + yoe / 4 - yoe / 100) in
  let mp := (5 * doy + 2) / 153 in
  let d := doy - (153 * mp + 2) / 5 + 1 in
  let m := if mp <? 10 then mp + 3 else mp - 9 in
  let y := yoe + era * 400 + (if m <=? 2 then 1 else 0) in
  (y, m, d).

Definition getTime (t : Date) : Z := t.
Definition getUTCFullYear (t : Date) : Z := fst (fst (civil (Day t))).
(** Months are numbered from 0 in JavaScript. *)
Definition getUTCMonth (t : Date) : Z := snd (fst (civil (Day t))) - 1.
Definition getUTCDate (t : Date) : Z := snd (civil (Day t)).

(** [Date.UTC(y, m, d)] with [m] numbered from 0: midnight of that day. *)
Definition UTC (y m d : Z) : Date :=
  let m1 := m + 1 in
  let y' := if m1 <=? 2 then y - 1 else y in
  let era := y' / 400 in
  let yoe := y' - era * 400 in
  let mp := if m1 <=? 2 then m1 + 9 else m1 - 3 in
  let doy := (153 * mp + 2) / 5 + d - 1 in
  let doe := yoe * 365 + yoe / 4 - yoe / 100 + doy in
  (era * 146097 + doe - 719468) * msPerDay.

End JsDate.
Import JsDate.

(** The ambient clock of the Node process: what [new Date()] observes at
    the moment it is evaluated.  It is not an argument of any function of
    the program; the embedding passes it after the arguments. *)
Definition Clock := Date.

Definition new_Date (clock : Clock) : Date := clock.

(* ================================================================== *)
(** ** JavaScript numbers

    A number is a double.  Every integer up to [2^53] in absolute value
    is one; a larger integer is a double when it is a multiple of the
    power of two that leaves it 53 significant bits. *)

(** The number an integer written in decimal digits is read as: the
    nearest double, the one with the even significand when two are
    equally near.  (Past the largest double the number read is
    [Infinity]; the integer computed here is then past [2^1023], and the
    tests below treat the two alike: above every maximum, and with no
    text of digits alone.) *)
Definition Number (z : Z) : Z :=
  let a := Z.abs z in
  if a <=? 2 ^ 53 then z
  else
    let e := Z.log2 a - 52 in
    let q := Z.shiftr a e in
    let r := a - Z.shiftl q e in
    let half := Z.shiftl 1 (e - 1) in
    let q' := if r <? half then q
              else if half <? r then q + 1
              else if Z.even q then q else q + 1 in
    Z.sgn z * Z.shiftl q' e.

(** The integer whose digits [String(x)] writes for a double [x] with
    [2^53 < x < 10^21]: of the decimals that are read back as [x], one
    with the fewest significant digits, and among those the nearest to
    [x] (the even one of two equally near).  The search goes down from
    the multiples of [10^j]. *)
Fixpoint shortest (j : nat) (x : Z) : Z :=
  match j with
  | O => x
  | S j' =>
      let p := 10 ^ Z.of_nat j in
      let lo := x / p * p in
      let hi := lo + p in
      match Number lo =? x, Number hi =? x with
      | true, true =>
          if x - lo <? hi - x then lo
          else if hi - x <? x - lo then hi
          else if Z.even (lo / p) then lo else hi
      | true, false => lo
      | false, true => hi
      | false, false => shortest j' x
      end
  end.

(** The integer [String(x)] writes, for a number [x] below [10^21] in
    absolute value (from there on the text has an exponent): [x] itself
    up to [2^53]. *)
Definition printed (x : Z) : Z :=
  if Z.abs x <=? 2 ^ 53 then x else Z.sgn x * shortest 20 (Z.abs x).

(* ================================================================== *)
(** ** Derived age *)

(** [computeAge(bday)], the same text in [routes/people.js] and in
    [graphql/resolvers.js].  [None] is JavaScript's [null]. *)
Definition computeAge (bday : option Date) (clock : Clock) : option Z :=
  match bday with
  | None => None
  | Some bday =>
      let today := new_Date clock in
      let years := getUTCFullYear today - getUTCFullYear bday in
      let m := getUTCMonth today - getUTCMonth bday in
      let years :=
        if (m <? 0) || ((m =? 0) && (getUTCDate today <? getUTCDate bday))
        then years - 1 else years in
      if (years >=? 0) && (years <=? 150) then Some years else None
  end.

(** The specification's wording of the same quantity: month/day pairs are
    compared in calendar order, and a year is taken off when today's pair
    comes before the birthday's. *)
Definition monthday_precedes (m1 d1 m2 d2 : Z) : Prop :=
  m1 < m2 \/ (m1 = m2 /\ d1 < d2).

Definition monthday_precedesb (m1 d1 m2 d2 : Z) : bool :=
  (m1 <? m2) || ((m1 =? m2) && (d1 <? d2)).

Definition elapsed_years (birthday today : Date) : Z :=
  getUTCFullYear today - getUTCFullYear birthday
  - (if monthday_precedesb (getUTCMonth today) (getUTCDate today)
                           (getUTCMonth birthday) (getUTCDate birthday)
     then 1 else 0).

(** Calendar order on dates, year first. *)
Definition date_le (y1 m1 d1 y2 m2 d2 : Z) : Prop :=
  y1 < y2 \/ (y1 = y2 /\ (m1 < m2 \/ (m1 = m2 /\ d1 <= d2))).

(** The [n]-th anniversary of [birthday] falls on or before [today]. *)
Definition anniversary_reached (n : Z) (birthday today : Date) : Prop :=
  date_le (getUTCFullYear birthday + n) (getUTCMonth birthday) (getUTCDate birthday)
          (getUTCFullYear today) (getUTCMonth today) (getUTCDate today).

(* ================================================================== *)
(** ** Storage: the schema of the migration *)

Definition uuid := N.

(** A row of table [person].  The columns declared [not null] hold a
    value, the others an option.  Column [age] of the table is left out:
    no statement of the program writes or reads it. *)
Module Row.
Record t := mk {
  id : uuid;
  name : string;
  surname : string;
  gender : option string;
  birthday : option Date;
  phone : option string;
  email : string;
  created_at : Date;
  updated_at : Date }.
End Row.

(** A row of table [person_contacts]: [(person_id, contact_id)]. *)
Definition link := (uuid * uuid)%type.

Record db := mkDb {
  person : list Row.t;
  person_contacts : list link }.

(** The conditions Postgres reports, with their SQLSTATE. *)
Inductive sqlstate :=
  | not_null_violation
  | foreign_key_violation
  | unique_violation
  | check_violation
  | numeric_value_out_of_range
  | invalid_text_representation
  | invalid_row_count_in_limit_clause
  | invalid_row_count_in_result_offset_clause.

Definition code (e : sqlstate) : string :=
  match e with
  | not_null_violation => "23502"
  | foreign_key_violation => "23503"
  | unique_violation => "23505"
  | check_violation => "23514"
  | numeric_value_out_of_range => "22003"
  | invalid_text_representation => "22P02"
  | invalid_row_count_in_limit_clause => "2201W"
  | invalid_row_count_in_result_offset_clause => "2201X"
  end.

(** What the database supplies to a statement: [now()], the start of the
    current transaction, and the value [uuid_generate_v4()] draws. *)
Record pg := mkPg {
  now : Date;
  uuid_generate_v4 : uuid }.

(** A statement either fails, leaving the tables as they were, or yields a
    result and the new tables. *)
Definition statement (A : Type) := db -> sqlstate + (A * db).

Definition opt_eqb (a b : option string) : bool :=
  match a, b with
  | Some x, Some y => String.eqb x y
  | None, None => true
  | _, _ => false
  end.

(** [check (gender in ('male','female'))]: a null passes a check. *)
Definition gender_check (g : option string) : bool :=
  match g with
  | None => true
  | Some s => String.eqb s "male" || String.eqb s "female"
  end.

Definition has_id (i : uuid) (r : Row.t) : bool := N.eqb (Row.id r) i.
Definition has_email (e : string) (r : Row.t) : bool := String.eqb (Row.email r) e.

Definition link_eqb (a b : link) : bool :=
  N.eqb (fst a) (fst b) && N.eqb (snd a) (snd b).

Definition mem (i : uuid) (l : list uuid) : bool := existsb (N.eqb i) l.

(** [insert into person (name,surname,gender,birthday,phone,email)
     values ($1,$2,$3,$4,$5,$6) returning *].
    Not-null and check constraints are tested on the new row, then the
    primary key and the unique index on [email]. *)
Definition insert_person (g : pg)
    (name surname gender : option string) (birthday : option Date)
    (phone email : option string) : statement Row.t :=
  fun d =>
    match name, surname, email with
    | Some n, Some s, Some e =>
        if negb (gender_check gender) then inl check_violation
        else if existsb (has_id (uuid_generate_v4 g)) (person d) then inl unique_violation
        else if existsb (has_email e) (person d) then inl unique_violation
        else
          let p := Row.mk (uuid_generate_v4 g) n s gender birthday phone e (now g) (now g) in
          inr (p, mkDb (person d ++ [p]) (person_contacts d))
    | _, _, _ => inl not_null_violation
    end.

(** [select * from person where id=$1]. *)
Definition select_person (i : uuid) : statement (list Row.t) :=
  fun d => inr (filter (has_id i) (person d), d).

(** [select id from person where id = any($1::uuid[])]. *)
Definition select_ids_any (ids : list uuid) : statement (list uuid) :=
  fun d => inr (map Row.id (filter (fun r => mem (Row.id r) ids) (person d)), d).

(** One row of [unnest]: the check constraint, then the primary key. *)
Fixpoint insert_links (i : uuid) (ids : list uuid) (t : list link)
    : sqlstate + list link :=
  match ids with
  | [] => inr t
  | c :: ids' =>
      if N.eqb i c then inl check_violation
      else if existsb (link_eqb (i, c)) t then inl unique_violation
      else insert_links i ids' (t ++ [(i, c)])
  end.

(** [insert into person_contacts (person_id, contact_id)
     select $1, unnest($2::uuid[])].
    The two foreign keys are verified when the statement ends, after every
    row passed its check and key. *)
Definition insert_person_contacts (i : uuid) (ids : list uuid) : statement unit :=
  fun d =>
    match insert_links i ids (person_contacts d) with
    | inl e => inl e
    | inr t =>
        if forallb (fun c => existsb (has_id i) (person d)
                             && existsb (has_id c) (person d)) ids
        then inr (tt, mkDb (person d) t)
        else inl foreign_key_violation
    end.

(** [delete from person_contacts where person_id=$1]. *)
Definition unlink (i : uuid) (d : db) : db :=
  mkDb (person d) (filter (fun pc => negb (N.eqb (fst pc) i)) (person_contacts d)).

Definition delete_person_contacts (i : uuid) : statement unit :=
  fun d => inr (tt, unlink i d).

(** [delete from person where id=$1], with [on delete cascade] on both
    columns of [person_contacts].  The result is [rowCount]. *)
Definition delete_person (i : uuid) : statement nat :=
  fun d =>
    inr (List.length (filter (has_id i) (person d)),
         mkDb (filter (fun r => negb (has_id i r)) (person d))
              (if existsb (has_id i) (person d)
               then filter (fun l => negb (N.eqb (fst l) i) && negb (N.eqb (snd l) i))
                           (person_contacts d)
               else person_contacts d)).

(** The [set] list of an update, one entry per assigned column. *)
Inductive assignment :=
  | set_name (v : option string)
  | set_surname (v : option string)
  | set_gender (v : option string)
  | set_birthday (v : option Date)
  | set_phone (v : option string)
  | set_email (v : option string).

Definition assign (a : assignment) (r : Row.t) : sqlstate + Row.t :=
  let '(Row.mk i n s g b p e c u) := r in
  match a with
  | set_name (Some v) => inr (Row.mk i v s g b p e c u)
  | set_surname (Some v) => inr (Row.mk i n v g b p e c u)
  | set_email (Some v) => inr (Row.mk i n s g b p v c u)
  | set_name None | set_surname None | set_email None => inl not_null_violation
  | set_gender v => inr (Row.mk i n s v b p e c u)
  | set_birthday v => inr (Row.mk i n s g v p e c u)
  | set_phone v => inr (Row.mk i n s g b v e c u)
  end.

Fixpoint assign_all (sets : list assignment) (r : Row.t) : sqlstate + Row.t :=
  match sets with
  | [] => inr r
  | a :: sets' =>
      match assign a r with
      | inl e => inl e
      | inr r' => assign_all sets' r'
      end
  end.

(** Trigger [trg_person_updated], [before update on person for each row]:
    function [set_updated_at] overwrites [new.updated_at]. *)
Definition with_updated_at (u : Date) (r : Row.t) : Row.t :=
  let '(Row.mk i n s ge b p e c _) := r in Row.mk i n s ge b p e c u.

Definition set_updated_at (g : pg) (new : Row.t) : Row.t :=
  with_updated_at (now g) new.

(** [update person set <sets>, updated_at=now() where id=$n].
    The key on [id] leaves at most one row to update; the row is rebuilt,
    passed to the trigger, tested for not-null and check, then against the
    unique index on [email].  The result is [rowCount]. *)
Definition update_person (g : pg) (sets : list assignment) (i : uuid) : statement nat :=
  fun d =>
    match filter (has_id i) (person d) with
    | [] => inr (0%nat, d)
    | r :: _ =>
        match assign_all sets r with
        | inl e => inl e
        | inr r1 =>
            let new := set_updated_at g (with_updated_at (now g) r1) in
            if negb (gender_check (Row.gender new)) then inl check_violation
            else if existsb (fun o => negb (has_id i o) && has_email (Row.email new) o)
                            (person d)
            then inl unique_violation
            else inr (1%nat,
                      mkDb (map (fun o => if has_id i o then new else o) (person d))
                           (person_contacts d))
        end
    end.

(** [order by email asc], an insertion sort on the bytewise order. *)
Section OrderBy.
Context {A : Type} (key : A -> string).

Fixpoint insert_sorted (x : A) (l : list A) : list A :=
  match l with
  | [] => [x]
  | y :: l' => if String.leb (key x) (key y) then x :: l else y :: insert_sorted x l'
  end.

Definition order_by (l : list A) : list A := fold_right insert_sorted [] l.
End OrderBy.

(** A row of the contacts join. *)
Module Contact.
Record t := mk { id : uuid; name : string; surname : string; email : string }.
End Contact.

Definition contact_of_row (c : Row.t) : Contact.t :=
  Contact.mk (Row.id c) (Row.name c) (Row.surname c) (Row.email c).

(** [select c.id, c.name, c.surname, c.email
     from person_contacts pc join person c on c.id = pc.contact_id
     where pc.person_id = $1 order by c.email asc]. *)
Definition contacts_of (i : uuid) (d : db) : list Contact.t :=
  order_by Contact.email
    (flat_map (fun pc => if N.eqb (fst pc) i
                         then map contact_of_row (filter (has_id (snd pc)) (person d))
                         else [])
              (person_contacts d)).

Definition contactsOf (i : uuid) : statement (list Contact.t) :=
  fun d => inr (contacts_of i d, d).

(** [limit] and [offset] with a null bound: no limit, no offset.  A bound
    at or past the end of the rows is not counted up to: it keeps all of
    them, or skips all of them. *)
Definition sql_limit (limit : option Z) {A} (l : list A) : list A :=
  match limit with
  | None => l
  | Some n => if Z.of_nat (List.length l) <=? n then l else firstn (Z.to_nat n) l
  end.

Definition sql_offset (offset : option Z) {A} (l : list A) : list A :=
  match offset with
  | None => l
  | Some n => if Z.of_nat (List.length l) <=? n then [] else skipn (Z.to_nat n) l
  end.

(** A parameter of [limit $1 offset $2] is a [bigint].  node-postgres
    sends a number as its text, [String(n)], and a [null] as it is;
    Postgres reads the [bigint] from the text: a text with an exponent is
    no integer, and digits past [2^63 - 1] are out of range. *)
Definition int8 (n : option Z) : sqlstate + option Z :=
  match n with
  | None => inr None
  | Some x =>
      if 10 ^ 21 <=? Z.abs x then inl invalid_text_representation
      else if (printed x <? - 2 ^ 63) || (2 ^ 63 <=? printed x)
           then inl numeric_value_out_of_range
           else inr (Some (printed x))
  end.

Definition negative (n : option Z) : bool :=
  match n with
  | Some z => z <? 0
  | None => false
  end.

(** [select * from person order by email asc limit $1 offset $2], with
    the two numbers as the program passes them.  The parameters are read
    before the statement runs; a negative offset is reported before a
    negative limit. *)
Definition select_page (limit offset : option Z) : statement (list Row.t) :=
  fun d =>
    match int8 limit, int8 offset with
    | inl e, _ => inl e
    | inr _, inl e => inl e
    | inr limit, inr offset =>
        if negative offset then inl invalid_row_count_in_result_offset_clause
        else if negative limit then inl invalid_row_count_in_limit_clause
        else inr (sql_limit limit (sql_offset offset (order_by Row.email (person d))), d)
    end.

Definition max_date (l : list Date) : option Date :=
  fold_right (fun x acc => match acc with
                           | None => Some x
                           | Some y => Some (Z.max x y)
                           end) None l.

(** The cast [::int] of a count: out of range past [2^31 - 1]. *)
Definition int4 (n : Z) : sqlstate + Z :=
  if 2 ^ 31 <=? n then inl numeric_value_out_of_range else inr n.

(** [select count( * )::int as count, max(updated_at) as maxu from person]. *)
Definition select_count_max : statement (Z * option Date) :=
  fun d =>
    match int4 (Z.of_nat (List.length (person d))) with
    | inl e => inl e
    | inr count => inr ((count, max_date (map Row.updated_at (person d))), d)
    end.

(** [select count( * )::int as count from person]. *)
Definition select_count : statement Z :=
  fun d =>
    match int4 (Z.of_nat (List.length (person d))) with
    | inl e => inl e
    | inr count => inr (count, d)
    end.

(* ================================================================== *)
(** ** Exceptions, connections and transactions *)

(** What a handler can throw: an error of the driver, an error built with
    [fastify.httpErrors], a plain [Error], or the rejection the server
    raises itself, before any handler or resolver runs, when a request
    does not match the route's schema (Fastify) or an argument is not of
    its type in the GraphQL schema (Mercurius). *)
Inductive exn :=
  | PgError (e : sqlstate)
  | HttpError (statusCode : Z) (message : string)
  | Error (message : string)
  | ValidationError.

Definition badRequest (message : string) : exn := HttpError 400 message.
Definition notFound : exn := HttpError 404 "Not Found".
Definition conflict (message : string) : exn := HttpError 409 message.

(** The four kinds of failure of the specification. *)
Inductive category := validation | referential | not_found | email_conflict.

Definition categorize (e : exn) : option category :=
  match e with
  | ValidationError => Some validation
  | HttpError 400 _ => Some referential
  | HttpError 404 _ => Some not_found
  | HttpError 409 _ => Some email_conflict
  | _ => None
  end.

(** Computations over a state [S] that may throw. *)
Definition M (S A : Type) := S -> (exn + A) * S.

Definition ret {S A} (a : A) : M S A := fun s => (inr a, s).
Definition throw {S A} (e : exn) : M S A := fun s => (inl e, s).
Definition bind {S A B} (m : M S A) (k : A -> M S B) : M S B :=
  fun s => match m s with
           | (inr a, s') => k a s'
           | (inl e, s') => (inl e, s')
           end.
Definition try_catch {S A} (m : M S A) (handler : exn -> M S A) : M S A :=
  fun s => match m s with
           | (inl e, s') => handler e s'
           | r => r
           end.

Declare Scope js_scope.
Delimit Scope js_scope with js.
Notation "x <- m ;; k" := (bind m (fun x => k))
  (at level 61, m at next level, right associativity) : js_scope.
Notation "m ;; k" := (bind m (fun _ => k))
  (at level 61, right associativity) : js_scope.
Open Scope js_scope.

(** [db.query(text, params)] of the pool: the statement is its own
    transaction. *)
Definition db_query {A} (st : statement A) : M db A :=
  fun d => match st d with
           | inl e => (inl (PgError e), d)
           | inr (a, d') => (inr a, d')
           end.

(** A checked-out connection: the tables as the session sees them, and,
    inside a transaction, the tables as they were at [begin]. *)
Record client := mkClient {
  store : db;
  snapshot : option db }.

(** [client.query(text, params)]: a statement that fails changes nothing
    and throws; both handlers that open a transaction roll it back at
    once in their [catch], so the session never runs a statement inside a
    failed transaction. *)
Definition client_query {A} (st : statement A) : M client A :=
  fun c => match st (store c) with
           | inl e => (inl (PgError e), c)
           | inr (a, d') => (inr a, mkClient d' (snapshot c))
           end.

Definition begin : M client unit :=
  fun c => (inr tt, match snapshot c with
                    | None => mkClient (store c) (Some (store c))
                    | Some _ => c
                    end).

Definition commit : M client unit :=
  fun c => (inr tt, mkClient (store c) None).

Definition rollback : M client unit :=
  fun c => (inr tt, match snapshot c with
                    | None => c
                    | Some d => mkClient d None
                    end).

(** What the other sessions see of a connection: nothing of an open
    transaction. *)
Definition committed (c : client) : db :=
  match snapshot c with
  | None => store c
  | Some d => d
  end.

(** [db.withClient(fn)]: check a connection out, run [fn], release it. *)
Definition withClient {A} (fn : M client A) : M db A :=
  fun d => let '(r, c) := fn (mkClient d None) in (r, committed c).

(* ================================================================== *)
(** ** Request bodies and JSON schemas *)

(** A property of a JSON object: missing, [null], or a value. *)
Inductive field (A : Type) :=
  | absent
  | null
  | val (a : A).
Arguments absent {A}.
Arguments null {A}.
Arguments val {A} a.

(** [f in b]. *)
Definition present {A} (f : field A) : bool :=
  match f with
  | absent => false
  | _ => true
  end.

(** [b.f ?? null]. *)
Definition nullish {A} (f : field A) : option A :=
  match f with
  | val a => Some a
  | _ => None
  end.

(** The body of [POST /people] and [PATCH /people/:id], and the
    [PersonInput] of the GraphQL schema. *)
Module Body.
Record t := mk {
  name : field string;
  surname : field string;
  gender : field string;
  birthday : field Date;
  phone : field string;
  email : field string;
  contacts : field (list uuid) }.
End Body.

Fixpoint uniqueItems (l : list uuid) : bool :=
  match l with
  | [] => true
  | x :: l' => negb (mem x l') && uniqueItems l'
  end.

(** The keyword [format] of a schema is tested by [ajv-formats], which
    is no part of the repository.  The values of [format: "date"] and
    [format: "uuid"] are typed here ([Date], [uuid]); the test behind
    [format: "email"] is a parameter of the embedding. *)
Class Formats := { format_email : string -> bool }.

(** What Ajv, with [coerceTypes] as Fastify sets it, leaves of a body it
    validates against [personSchema]: while a value is tested against
    [type] it is rewritten in place, a [null] to the empty text under
    [type: "string"] and the empty text to [null] under [type: "null"].
    So a [null] becomes the empty text in [name], [surname] and [email]
    (which the schema then refuses by [minLength], or by [format]) and
    in [phone], whose first alternative accepts every text; in [gender]
    and [birthday], whose first alternative refuses the empty text, it is
    [null] again after the second, and so is an empty [gender]. *)
Definition coerceTypes (b : Body.t) : Body.t :=
  let text (f : field string) :=
    match f with
    | null => val EmptyString
    | _ => f
    end in
  Body.mk (text (Body.name b)) (text (Body.surname b))
          (match Body.gender b with
           | val EmptyString => null
           | g => g
           end)
          (Body.birthday b)
          (text (Body.phone b))
          (text (Body.email b))
          (Body.contacts b).

(** [personSchema], with [required] as the route sets it, on a body as
    [coerceTypes] leaves it. *)
Definition personSchema `{Formats} (required : bool) (b : Body.t) : bool :=
  (negb required ||
     (present (Body.name b) && present (Body.surname b) && present (Body.email b)))
  && match Body.name b with
     | absent => true
     | val s => Nat.leb 1 (String.length s)
     | null => false
     end
  && match Body.surname b with
     | absent => true
     | val s => Nat.leb 1 (String.length s)
     | null => false
     end
  && match Body.gender b with
     | val s => String.eqb s "male" || String.eqb s "female"
     | _ => true
     end
  && match Body.email b with
     | absent => true
     | val e => format_email e
     | null => false
     end
  && match Body.contacts b with
     | val ids => uniqueItems ids
     | _ => true
     end.

(** The querystring schema of [GET /people], on the numbers Ajv has read
    from the text of the query. *)
Definition querystringSchema (limit offset : option Z) : bool :=
  match limit with
  | Some l => (1 <=? l) && (l <=? 100)
  | None => true
  end
  && match offset with
     | Some o => 0 <=? o
     | None => true
     end.

(** [Array.isArray(b.contacts) && b.contacts.length], and
    [input.contacts?.length]: the list when it is there and not empty. *)
Definition nonempty_array (f : field (list uuid)) : option (list uuid) :=
  match f with
  | val (c :: ids) => Some (c :: ids)
  | _ => None
  end.

(** The loop over [fields] that builds the [set] list. *)
Definition push {A} (mk : option A -> assignment) (f : field A) : list assignment :=
  if present f then [mk (nullish f)] else [].

Definition updates (b : Body.t) : list assignment :=
  push set_name (Body.name b) ++ push set_surname (Body.surname b)
  ++ push set_gender (Body.gender b) ++ push set_birthday (Body.birthday b)
  ++ push set_phone (Body.phone b) ++ push set_email (Body.email b).

(* ================================================================== *)
(** ** What the two surfaces return *)

(** The object both [toDTO] functions build. *)
Module DTO.
Record t := mk {
  id : uuid;
  name : string;
  surname : string;
  age : option Z;
  gender : option string;
  birthday : option Date;
  phone : option string;
  email : string;
  contacts : list Contact.t;
  created : Date;
  modified : Date }.
End DTO.

(** An element of [items] in the answer of [GET /people]: the same
    properties, without [contacts]. *)
Module Item.
Record t := mk {
  id : uuid;
  name : string;
  surname : string;
  age : option Z;
  gender : option string;
  birthday : option Date;
  phone : option string;
  email : string;
  created : Date;
  modified : Date }.
End Item.

(** The properties an [Item.t] has, read off a [DTO.t]. *)
Definition item_of_DTO (d : DTO.t) : Item.t :=
  Item.mk (DTO.id d) (DTO.name d) (DTO.surname d) (DTO.age d) (DTO.gender d)
          (DTO.birthday d) (DTO.phone d) (DTO.email d) (DTO.created d) (DTO.modified d).

(** The decimal digits of an integer: the text of a number up to [2^53],
    such as the time value of a [Date] or a count, inside a template
    literal. *)
Definition toString (z : Z) : string := NilZero.string_of_int (Z.to_int z).

(** The text of any number below [10^21] inside a template literal. *)
Definition Number_toString (x : Z) : string := toString (printed x).

Definition quote : string := String (ascii_of_nat 34) EmptyString.

Definition exn_code (e : exn) : option string :=
  match e with
  | PgError s => Some (code s)
  | _ => None
  end.

Definition header_is (h : option string) (etag : string) : bool :=
  match h with
  | Some v => String.eqb v etag
  | None => false
  end.

Fixpoint mapM {S A B} (f : A -> M S B) (l : list A) : M S (list B) :=
  match l with
  | [] => ret []
  | x :: l' => y <- f x ;; ys <- mapM f l' ;; ret (y :: ys)
  end.

(* ================================================================== *)
(** ** The REST surface: [routes/people.js] *)

Module Rest.

(** What a handler leaves in [reply]: status code, [ETag] header, body. *)
Record reply (A : Type) := send {
  statusCode : Z;
  ETag : option string;
  payload : option A }.
Arguments send {A} _ _ _.
Arguments statusCode {A} _.
Arguments ETag {A} _.
Arguments payload {A} _.

Definition toDTO (row : Row.t) (contacts : list Contact.t) (clock : Clock) : DTO.t :=
  let birthdayDate := Row.birthday row in
  DTO.mk (Row.id row) (Row.name row) (Row.surname row)
         (computeAge birthdayDate clock)
         (Row.gender row) birthdayDate (Row.phone row) (Row.email row)
         (map (fun c => Contact.mk (Contact.id c) (Contact.name c)
                                   (Contact.surname c) (Contact.email c))
              contacts)
         (Row.created_at row) (Row.updated_at row).

(** The check of the contact ids and their insertion, as both the
    create and the update handler write it. *)
Definition attach_contacts (i : uuid) (ids : list uuid) : M client unit :=
  existing <- client_query (select_ids_any ids) ;;
  if negb (Nat.eqb (List.length existing) (List.length ids))
  then throw (badRequest "One or more contact IDs do not exist")
  else client_query (insert_person_contacts i ids).

(** The [catch] block of both transactions: roll back, then throw a
    conflict for SQLSTATE 23505 and the caught error otherwise. *)
Definition rethrown (e : exn) : exn :=
  match exn_code e with
  | Some "23505"%string => conflict "Email already exists"
  | _ => e
  end.

Definition on_error {A} (e : exn) : M client A :=
  rollback ;; throw (rethrown e).

(** Handler of [POST /people]. *)
Definition create_handler (g : pg) (clock : Clock) (b : Body.t)
    : M db (reply DTO.t) :=
  withClient
    (try_catch
       (begin ;;
        p <- client_query
               (insert_person g (nullish (Body.name b)) (nullish (Body.surname b))
                  (nullish (Body.gender b)) (nullish (Body.birthday b))
                  (nullish (Body.phone b)) (nullish (Body.email b))) ;;
        match nonempty_array (Body.contacts b) with
        | Some ids => attach_contacts (Row.id p) ids
        | None => ret tt
        end ;;
        contacts <- client_query (contactsOf (Row.id p)) ;;
        commit ;;
        ret (send 201 None (Some (toDTO p contacts clock))))
       on_error).

(** Handler of [GET /people/:id]. *)
Definition read_handler (clock : Clock) (id : uuid) (if_none_match : option string)
    : M db (reply DTO.t) :=
  person <- db_query (select_person id) ;;
  match person with
  | [] => throw notFound
  | row :: _ =>
      contacts <- db_query (contactsOf id) ;;
      let dto := toDTO row contacts clock in
      let etag := quote ++ toString (getTime (Row.updated_at row)) ++ quote in
      if header_is if_none_match etag then ret (send 304 None None)
      else ret (send 200 (Some etag) (Some dto))
  end.

(** Handler of [PATCH /people/:id]. *)
Definition update_handler (g : pg) (clock : Clock) (id : uuid) (b : Body.t)
    : M db (reply DTO.t) :=
  withClient
    (try_catch
       (begin ;;
        existing <- client_query (select_person id) ;;
        match existing with
        | [] => throw notFound
        | _ :: _ => ret tt
        end ;;
        match updates b with
        | [] => ret tt
        | sets => client_query (update_person g sets id) ;; ret tt
        end ;;
        (if present (Body.contacts b)
         then client_query (delete_person_contacts id) ;;
              match nonempty_array (Body.contacts b) with
              | Some ids => attach_contacts id ids
              | None => ret tt
              end
         else ret tt) ;;
        p <- client_query (select_person id) ;;
        contacts <- client_query (contactsOf id) ;;
        commit ;;
        match p with
        | row :: _ => ret (send 200 None (Some (toDTO row contacts clock)))
        | [] => throw (Error "TypeError")
        end)
       on_error).

(** Handler of [DELETE /people/:id]. *)
Definition delete_handler (id : uuid) : M db (reply DTO.t) :=
  del <- db_query (delete_person id) ;;
  match del with
  | O => throw notFound
  | S _ => ret (send 204 None None)
  end.

(** The body of the answer of [GET /people]. *)
Record page := mkPage {
  total : Z;
  limit : Z;
  offset : Z;
  items : list Item.t }.

Definition item (clock : Clock) (r : Row.t) : Item.t :=
  let birthdayDate := Row.birthday r in
  Item.mk (Row.id r) (Row.name r) (Row.surname r) (computeAge birthdayDate clock)
          (Row.gender r) birthdayDate (Row.phone r) (Row.email r)
          (Row.created_at r) (Row.updated_at r).

(** Handler of [GET /people]. *)
Definition list_handler (clock : Clock) (query_limit query_offset : option Z)
    (if_none_match : option string) : M db (reply page) :=
  let limit := match query_limit with Some l => l | None => 20 end in
  let offset := match query_offset with Some o => o | None => 0 end in
  rows <- db_query (select_page (Some limit) (Some offset)) ;;
  total <- db_query select_count_max ;;
  let maxu := match snd total with Some m => getTime m | None => 0 end in
  let etag := quote ++ "list-" ++ Number_toString limit ++ "-"
              ++ Number_toString offset ++ "-"
              ++ toString (fst total) ++ "-" ++ toString maxu ++ quote in
  if header_is if_none_match etag then ret (send 304 None None)
  else ret (send 200 (Some etag)
              (Some (mkPage (fst total) limit offset (map (item clock) rows)))).

(** The routes: Fastify validates the request against the schema of the
    route and calls the handler only when it matches, on the request as
    the validation leaves it: the body with its types coerced, the
    integers of the query string read as numbers. *)
Definition validated {A} (ok : bool) (handler : M db A) : M db A :=
  if ok then handler else throw ValidationError.

Definition POST_people `{Formats} g clock b :=
  let b := coerceTypes b in
  validated (personSchema true b) (create_handler g clock b).
Definition GET_person clock id if_none_match :=
  read_handler clock id if_none_match.
Definition PATCH_person `{Formats} g clock id b :=
  let b := coerceTypes b in
  validated (personSchema false b) (update_handler g clock id b).
Definition DELETE_person id := delete_handler id.
Definition GET_people clock query_limit query_offset if_none_match :=
  let query_limit := option_map Number query_limit in
  let query_offset := option_map Number query_offset in
  validated (querystringSchema query_limit query_offset)
            (list_handler clock query_limit query_offset if_none_match).

End Rest.

(* ================================================================== *)
(** ** The GraphQL surface: [graphql/resolvers.js] *)

Module Graphql.

Definition toDTO (r : Row.t) (contacts : list Contact.t) (clock : Clock) : DTO.t :=
  let birthdayDate := Row.birthday r in
  DTO.mk (Row.id r) (Row.name r) (Row.surname r)
         (computeAge birthdayDate clock)
         (Row.gender r) birthdayDate (Row.phone r) (Row.email r)
         contacts
         (Row.created_at r) (Row.updated_at r).

(** [Query.person]: [None] is the [null] returned for no row. *)
Definition person (clock : Clock) (id : uuid) : M db (option DTO.t) :=
  p <- db_query (select_person id) ;;
  match p with
  | [] => ret None
  | row :: _ =>
      c <- db_query (contactsOf id) ;;
      ret (Some (toDTO row c clock))
  end.

Record page := mkPage {
  total : Z;
  limit : option Z;
  offset : option Z;
  items : list DTO.t }.

(** A parameter with a default: the default replaces a missing argument,
    not a [null]. *)
Definition default_arg (dflt : Z) (a : field Z) : option Z :=
  match a with
  | absent => Some dflt
  | null => None
  | val z => Some z
  end.

(** [Int] of [schema.js], the type of both arguments of [people]: a
    signed integer of 32 bits, or [null]. *)
Definition Int (a : field Z) : bool :=
  match a with
  | val z => (- 2 ^ 31 <=? z) && (z <? 2 ^ 31)
  | _ => true
  end.

(** [Query.people], behind the types of its arguments: the server
    answers a request whose argument is no [Int] with an error and runs
    no resolver. *)
Definition people (clock : Clock) (arg_limit arg_offset : field Z) : M db page :=
  if negb (Int arg_limit && Int arg_offset) then throw ValidationError
  else
    let limit := default_arg 20 arg_limit in
    let offset := default_arg 0 arg_offset in
    rows <- db_query (select_page limit offset) ;;
    total <- db_query select_count ;;
    items <- mapM (fun r => c <- db_query (contactsOf (Row.id r)) ;;
                            ret (toDTO r c clock)) rows ;;
    ret (mkPage total limit offset items).

(** [Mutation.createPerson]. *)
Definition createPerson (g : pg) (clock : Clock) (input : Body.t) : M db DTO.t :=
  p <- db_query
         (insert_person g (nullish (Body.name input)) (nullish (Body.surname input))
            (nullish (Body.gender input)) (nullish (Body.birthday input))
            (nullish (Body.phone input)) (nullish (Body.email input))) ;;
  match nonempty_array (Body.contacts input) with
  | Some ids => db_query (insert_person_contacts (Row.id p) ids)
  | None => ret tt
  end ;;
  c <- db_query (contactsOf (Row.id p)) ;;
  ret (toDTO p c clock).

(** [Mutation.updatePerson]. *)
Definition updatePerson (g : pg) (clock : Clock) (id : uuid) (input : Body.t)
    : M db DTO.t :=
  match updates input with
  | [] => ret tt
  | sets => db_query (update_person g sets id) ;; ret tt
  end ;;
  (if present (Body.contacts input)
   then db_query (delete_person_contacts id) ;;
        match nonempty_array (Body.contacts input) with
        | Some ids => db_query (insert_person_contacts id ids)
        | None => ret tt
        end
   else ret tt) ;;
  p <- db_query (select_person id) ;;
  match p with
  | [] => throw (Error "not found")
  | row :: _ =>
      c <- db_query (contactsOf id) ;;
      ret (toDTO row c clock)
  end.

(** [Mutation.deletePerson]. *)
Definition deletePerson (id : uuid) : M db bool :=
  d <- db_query (delete_person id) ;;
  ret (Nat.ltb 0 d).

End Graphql.

(* ================================================================== *)
(** ** The constraints of the schema *)

(** A storage state as the schema allows it: the two keys of [person],
    the check on [gender], the key and the check of [person_contacts], and
    its two foreign keys. *)
Record consistent (d : db) : Prop := mkConsistent {
  person_pkey : NoDup (map Row.id (person d));
  person_email_key : NoDup (map Row.email (person d));
  person_gender_check : forall r, In r (person d) -> gender_check (Row.gender r) = true;
  person_contacts_pkey : NoDup (person_contacts d);
  person_contacts_check : forall pc, In pc (person_contacts d) -> fst pc <> snd pc;
  person_contacts_fkey : forall pc, In pc (person_contacts d) ->
    In (fst pc) (map Row.id (person d)) /\ In (snd pc) (map Row.id (person d)) }.

Fixpoint distinct {A} (eqb : A -> A -> bool) (l : list A) : bool :=
  match l with
  | [] => true
  | x :: l' => negb (existsb (eqb x) l') && distinct eqb l'
  end.

Definition consistentb (d : db) : bool :=
  distinct N.eqb (map Row.id (person d))
  && distinct String.eqb (map Row.email (person d))
  && forallb (fun r => gender_check (Row.gender r)) (person d)
  && distinct link_eqb (person_contacts d)
  && forallb (fun pc => negb (N.eqb (fst pc) (snd pc))) (person_contacts d)
  && forallb (fun pc => existsb (has_id (fst pc)) (person d)
                        && existsb (has_id (snd pc)) (person d)) (person_contacts d).

(* ================================================================== *)
(** ** The blocks of the handlers as functions of the tables

    The statements a handler runs between [begin] and [commit], and the
    ones a resolver runs one by one, written as functions of the tables.
    The properties relate each handler to them before anything else is
    proved. *)

(** The rows [select id from person where id = any(ids)] counts. *)
Definition rows_among (ids : list uuid) (d : db) : list Row.t :=
  filter (fun r => mem (Row.id r) ids) (person d).

(** The [insert] of both create paths, on the properties of the body. *)
Definition insert_body (g : pg) (b : Body.t) : statement Row.t :=
  insert_person g (nullish (Body.name b)) (nullish (Body.surname b))
    (nullish (Body.gender b)) (nullish (Body.birthday b))
    (nullish (Body.phone b)) (nullish (Body.email b)).

(** The block "apply partial update" of both update paths, as a function
    of the tables. *)
Definition scalar_step (g : pg) (i : uuid) (b : Body.t) (d : db) : sqlstate + db :=
  match updates b with
  | [] => inr d
  | sets =>
      match update_person g sets i d with
      | inl e => inl e
      | inr (_, d') => inr d'
      end
  end.

(** The block "replace contacts set if key is present", with the check of
    the ids ([checked], the REST handler) or without it (the resolver). *)
Definition contacts_step (checked : bool) (i : uuid) (b : Body.t) (d : db) : exn + db :=
  if present (Body.contacts b) then
    match nonempty_array (Body.contacts b) with
    | None => inr (unlink i d)
    | Some ids =>
        if checked && negb (Nat.eqb (List.length (rows_among ids d)) (List.length ids))
        then inl (badRequest "One or more contact IDs do not exist")
        else match insert_person_contacts i ids (unlink i d) with
             | inl e => inl (PgError e)
             | inr (_, d') => inr d'
             end
    end
  else inr d.

(* ================================================================== *)
(** ** Vocabulary of the properties *)

(** The column an assignment writes. *)
Inductive column := name_col | surname_col | gender_col | birthday_col | phone_col | email_col.

Definition column_of (a : assignment) : column :=
  match a with
  | set_name _ => name_col
  | set_surname _ => surname_col
  | set_gender _ => gender_col
  | set_birthday _ => birthday_col
  | set_phone _ => phone_col
  | set_email _ => email_col
  end.

(** The partial input names no scalar field. *)
Definition no_scalar (b : Body.t) : Prop :=
  Body.name b = absent /\ Body.surname b = absent /\ Body.gender b = absent
  /\ Body.birthday b = absent /\ Body.phone b = absent /\ Body.email b = absent.

(** Row [r'] keeps what the partial input [b] does not name of row [r]. *)
Definition frame (b : Body.t) (r r' : Row.t) : Prop :=
  Row.id r' = Row.id r
  /\ Row.created_at r' = Row.created_at r
  /\ (Body.name b = absent -> Row.name r' = Row.name r)
  /\ (Body.surname b = absent -> Row.surname r' = Row.surname r)
  /\ (Body.gender b = absent -> Row.gender r' = Row.gender r)
  /\ (Body.birthday b = absent -> Row.birthday r' = Row.birthday r)
  /\ (Body.phone b = absent -> Row.phone r' = Row.phone r)
  /\ (Body.email b = absent -> Row.email r' = Row.email r).

(** The row the [set] list of a body leaves of row [r]. *)
Definition pick {A} (f : field A) (old : A) : A :=
  match f with
  | val v => v
  | _ => old
  end.

Definition pick_opt {A} (f : field A) (old : option A) : option A :=
  match f with
  | absent => old
  | null => None
  | val v => Some v
  end.

Definition patched (b : Body.t) (r : Row.t) : Row.t :=
  Row.mk (Row.id r)
         (pick (Body.name b) (Row.name r)) (pick (Body.surname b) (Row.surname r))
         (pick_opt (Body.gender b) (Row.gender r))
         (pick_opt (Body.birthday b) (Row.birthday r))
         (pick_opt (Body.phone b) (Row.phone r))
         (pick (Body.email b) (Row.email r))
         (Row.created_at r) (Row.updated_at r).

Definition is_null {A} (f : field A) : bool :=
  match f with
  | null => true
  | _ => false
  end.

Definition nulls_required (b : Body.t) : bool :=
  is_null (Body.name b) || is_null (Body.surname b) || is_null (Body.email b).

(** The tables once the contact set of [i] is replaced by [ids]. *)
Definition replaced (i : uuid) (ids : list uuid) (d : db) : db :=
  mkDb (person d) (person_contacts (unlink i d) ++ map (pair i) ids).

(** An optional argument of the querystring, as the GraphQL argument that
    carries the same request. *)
Definition arg_of_query (q : option Z) : field Z :=
  match q with
  | Some z => val z
  | None => absent
  end.

(** The person a request addresses by [id], when there is one. *)
Definition lookup (i : uuid) (d : db) : option Row.t :=
  match filter (has_id i) (person d) with
  | [] => None
  | r :: _ => Some r
  end.

(** The single-item fingerprint [GET /people/:id] computes. *)
Definition item_etag (r : Row.t) : string :=
  quote ++ toString (getTime (Row.updated_at r)) ++ quote.

(** Strictly ascending in the order of [order by]. *)
Definition email_lt (a b : string) : Prop := String.ltb a b = true.

(* ================================================================== *)
(** ** Vocabulary of the further properties *)







(** The rows of one page: [limit] rows from the row numbered [offset] in
    the order of the emails. *)
Definition page_rows (limit offset : Z) (d : db) : list Row.t :=
  firstn (Z.to_nat limit) (skipn (Z.to_nat offset) (order_by Row.email (person d))).

(** [maxu] of the page fingerprint. *)
Definition maxu (d : db) : Z :=
  match max_date (map Row.updated_at (person d)) with
  | Some m => getTime m
  | None => 0
  end.

(** The page fingerprint [GET /people] computes. *)
Definition page_etag (limit offset : Z) (d : db) : string :=
  quote ++ "list-" ++ Number_toString limit ++ "-" ++ Number_toString offset ++ "-"
  ++ toString (Z.of_nat (List.length (person d))) ++ "-" ++ toString (maxu d) ++ quote.

(** No character of the text is a minus sign. *)
Fixpoint dash_free (s : string) : bool :=
  match s with
  | EmptyString => true
  | String c s' => negb (Ascii.eqb c "-") && dash_free s'
  end.

(** The function [POST /people] passes to [db.withClient]. *)
Definition create_transaction (g : pg) (clock : Clock) (b : Body.t)
    : M client (Rest.reply DTO.t) :=
  try_catch
    (begin ;;
     p <- client_query
            (insert_person g (nullish (Body.name b)) (nullish (Body.surname b))
               (nullish (Body.gender b)) (nullish (Body.birthday b))
               (nullish (Body.phone b)) (nullish (Body.email b))) ;;
     match nonempty_array (Body.contacts b) with
     | Some ids => Rest.attach_contacts (Row.id p) ids
     | None => ret tt
     end ;;
     contacts <- client_query (contactsOf (Row.id p)) ;;
     commit ;;
     ret (Rest.send 201 None (Some (Rest.toDTO p contacts clock))))
    Rest.on_error.

(** The function [PATCH /people/:id] passes to [db.withClient]. *)
Definition update_transaction (g : pg) (clock : Clock) (id : uuid) (b : Body.t)
    : M client (Rest.reply DTO.t) :=
  try_catch
    (begin ;;
     existing <- client_query (select_person id) ;;
     match existing with
     | [] => throw notFound
     | _ :: _ => ret tt
     end ;;
     match updates b with
     | [] => ret tt
     | sets => client_query (update_person g sets id) ;; ret tt
     end ;;
     (if present (Body.contacts b)
      then client_query (delete_person_contacts id) ;;
           match nonempty_array (Body.contacts b) with
           | Some ids => Rest.attach_contacts id ids
           | None => ret tt
           end
      else ret tt) ;;
     p <- client_query (select_person id) ;;
     contacts <- client_query (contactsOf id) ;;
     commit ;;
     match p with
     | row :: _ => ret (Rest.send 200 None (Some (Rest.toDTO row contacts clock)))
     | [] => throw (Error "TypeError")
     end)
    Rest.on_error.

(* ================================================================== *)
(** ** Sample data

    The people of the README's demonstration, used where a property is
    evaluated on a concrete storage state. *)

Module Sample.

(** A test in the place of the library's, for the examples: an at sign
    after at least one character. *)
Definition formats : Formats :=
  {| format_email := fun e => match index 0 "@" e with
                              | Some (S _) => true
                              | _ => false
                              end |}.

Definition alice : Row.t :=
  Row.mk 1%N "Alice" "Anderson" (Some "female") (Some (UTC 1997 1 14)) (Some "+111")
         "alice@example.com" 1700000000000 1700000000000.

Definition bob : Row.t :=
  Row.mk 2%N "Bob" "Brown" (Some "male") (Some (UTC 1990 0 1)) (Some "+222")
         "bob@example.com" 1700000001000 1700000001000.

Definition carol : Row.t :=
  Row.mk 3%N "Carol" "Clark" (Some "female") (Some (UTC 1991 5 6)) (Some "+333")
         "carol@example.com" 1700000000500 1700000001000.

(** Alice and Bob, no contacts. *)
Definition two_people : db := mkDb [alice; bob] [].

(** The same, once Alice lists Bob. *)
Definition alice_knows_bob : db := mkDb [alice; bob] [(1%N, 2%N)].

(** Alice, Bob and Carol; Bob and Carol were last modified together. *)
Definition three_people : db := mkDb [alice; bob; carol] [(1%N, 2%N); (1%N, 3%N)].

(** A later moment at the database, with the next uuid drawn. *)
Definition later : pg := mkPg 1700000100000 4%N.
Definition later_still : pg := mkPg 1700000200000 5%N.

Definition clock : Clock := UTC 2025 5 1.

(** A body that names the contact set alone. *)
Definition only_contacts (ids : list uuid) : Body.t :=
  Body.mk absent absent absent absent absent absent (val ids).

(** A body for a new person. *)
Definition dan (email : string) (contacts : field (list uuid)) : Body.t :=
  Body.mk (val "Dan") (val "Doe") (val "male") (val (UTC 1992 2 3)) (val "+444")
          (val email) contacts.

(** The row that body becomes when inserted at [later]. *)
Definition dan_row : Row.t :=
  Row.mk 4%N "Dan" "Doe" (Some "male") (Some (UTC 1992 2 3)) (Some "+444")
         "dan@example.com" 1700000100000 1700000100000.

(** Alice renamed at [later]. *)
Definition alicia : Row.t :=
  Row.mk 1%N "Alicia" "Anderson" (Some "female") (Some (UTC 1997 1 14)) (Some "+111")
         "alice@example.com" 1700000000000 1700000100000.

(** A body that renames and replaces the contact set. *)
Definition rename_and_link (ids : list uuid) : Body.t :=
  Body.mk (val "Alicia") absent absent absent absent absent (val ids).

(** A body for a new person with an empty gender and a [null] phone, and
    the row it becomes through [POST /people] at [later]. *)
Definition eve (contacts : field (list uuid)) : Body.t :=
  Body.mk (val "Eve") (val "Evans") (val EmptyString) absent null
          (val "eve@example.com") contacts.

Definition eve_row : Row.t :=
  Row.mk 4%N "Eve" "Evans" None None (Some EmptyString)
         "eve@example.com" 1700000100000 1700000100000.

(** A body that sets the phone to [null], and Alice once it is applied
    at [later] through [PATCH /people/:id] and through [updatePerson]. *)
Definition no_phone : Body.t :=
  Body.mk absent absent absent absent null absent absent.

Definition alice_empty_phone : Row.t :=
  Row.mk 1%N "Alice" "Anderson" (Some "female") (Some (UTC 1997 1 14))
         (Some EmptyString) "alice@example.com" 1700000000000 1700000100000.

Definition alice_null_phone : Row.t :=
  Row.mk 1%N "Alice" "Anderson" (Some "female") (Some (UTC 1997 1 14))
         None "alice@example.com" 1700000000000 1700000100000.

End Sample.

(* ================================================================== *)
(** * Properties *)

Section Properties.

(** Every property holds whatever the test behind [format: "email"] is. *)
Context {ajv : Formats}.

(** ** Derived age *)

Lemma monthday_precedesb_spec m1 d1 m2 d2 :
  monthday_precedesb m1 d1 m2 d2 = true <-> monthday_precedes m1 d1 m2 d2.
Proof.
  unfold monthday_precedesb, monthday_precedes.
  rewrite orb_true_iff, andb_true_iff, !Z.ltb_lt, Z.eqb_eq. tauto.
Qed.

(** The guard of the source, on the difference of the months, is the
    calendar comparison of the two month/day pairs. *)
Lemma source_guard_is_precedes tm td bm bd :
  ((tm - bm <? 0) || ((tm - bm =? 0) && (td <? bd))) = monthday_precedesb tm td bm bd.
Proof.
  unfold monthday_precedesb.
  destruct (Z.ltb_spec (tm - bm) 0), (Z.ltb_spec tm bm),
           (Z.eqb_spec (tm - bm) 0), (Z.eqb_spec tm bm); try lia; reflexivity.
Qed.

Lemma computeAge_elapsed_years birthday clock :
  computeAge (Some birthday) clock =
  let n := elapsed_years birthday (new_Date clock) in
  if (0 <=? n) && (n <=? 150) then Some n else None.
Proof.
  unfold computeAge, elapsed_years. cbv zeta.
  rewrite source_guard_is_precedes.
  destruct (monthday_precedesb _ _ _ _); rewrite ?Z.sub_0_r, Z.geb_leb; reflexivity.
Qed.

Lemma anniversary_reached_iff birthday today k :
  anniversary_reached k birthday today <-> k <= elapsed_years birthday today.
Proof.
  unfold anniversary_reached, date_le, elapsed_years.
  destruct (monthday_precedesb _ _ _ _) eqn:E.
  - apply monthday_precedesb_spec in E. unfold monthday_precedes in E. lia.
  - assert (~ monthday_precedes (getUTCMonth today) (getUTCDate today)
                                (getUTCMonth birthday) (getUTCDate birthday)) as N.
    { rewrite <- monthday_precedesb_spec, E. discriminate. }
    unfold monthday_precedes in N. lia.
Qed.

(** C4. [computeAge] returns nothing for no birthday.  For a birthday it
    works from [n], the difference of the years less one when today's
    month/day comes before the birthday's; [n] is the number of whole
    elapsed years (the anniversaries reached by today are exactly the
    [k]-th for [k <= n]); the result is [n] when [0 <= n <= 150] and nothing
    otherwise.  Today is what the clock shows when the function runs. *)
Theorem C4_computeAge_whole_years :
  (forall clock, computeAge None clock = None)
  /\ (forall birthday clock,
        let today := new_Date clock in
        let n := elapsed_years birthday today in
        (n = getUTCFullYear today - getUTCFullYear birthday
             - (if monthday_precedesb (getUTCMonth today) (getUTCDate today)
                                      (getUTCMonth birthday) (getUTCDate birthday)
                then 1 else 0))
        /\ (forall k, anniversary_reached k birthday today <-> k <= n)
        /\ computeAge (Some birthday) clock
           = if (0 <=? n) && (n <=? 150) then Some n else None).
Proof.
  split; [reflexivity|].
  intros birthday clock today n. split; [reflexivity|]. split.
  - intro k. apply anniversary_reached_iff.
  - apply computeAge_elapsed_years.
Qed.

(** The day before the tenth birthday the age is nine. *)
Example computeAge_day_before_birthday :
  computeAge (Some (UTC 2015 5 2)) (UTC 2025 5 1) = Some 9
  /\ computeAge (Some (UTC 2015 5 2)) (UTC 2025 5 2) = Some 10.
Proof. split; reflexivity. Qed.

(** The result depends on the clock through the calendar day only. *)
Lemma computeAge_same_day bday clock1 clock2 :
  getUTCFullYear clock1 = getUTCFullYear clock2 ->
  getUTCMonth clock1 = getUTCMonth clock2 ->
  getUTCDate clock1 = getUTCDate clock2 ->
  computeAge bday clock1 = computeAge bday clock2.
Proof.
  intros Hy Hm Hd. destruct bday as [b|]; [|reflexivity].
  unfold computeAge, new_Date. rewrite Hy, Hm, Hd. reflexivity.
Qed.

(** C5, as the code has it.  [computeAge] takes the birthday alone and
    reads today from the clock of the process; it returns a value and
    changes nothing; two calls with the same birthday, made at moments of
    the same UTC calendar day, return the same result. *)
Theorem C5_computeAge_depends_on_clock_day bday clock1 clock2 :
  getUTCFullYear clock1 = getUTCFullYear clock2 ->
  getUTCMonth clock1 = getUTCMonth clock2 ->
  getUTCDate clock1 = getUTCDate clock2 ->
  computeAge bday clock1 = computeAge bday clock2.
Proof. apply computeAge_same_day. Qed.

(* ================================================================== *)
(** ** The order of [order by email asc] *)

Lemma ltb_lt a b : String.ltb a b = true <-> String_as_OT.lt a b.
Proof.
  unfold String.ltb. rewrite <- String_as_OT.cmp_lt. unfold String_as_OT.cmp.
  destruct (String.compare a b); split; congruence.
Qed.

Lemma leb_lt_eq a b : String.leb a b = true <-> String_as_OT.lt a b \/ a = b.
Proof.
  unfold String.leb. rewrite <- String_as_OT.cmp_lt, <- String_as_OT.cmp_eq.
  unfold String_as_OT.cmp. destruct (String.compare a b); split; intros H;
    try congruence; auto; destruct H; congruence.
Qed.

Lemma leb_trans a b c :
  String.leb a b = true -> String.leb b c = true -> String.leb a c = true.
Proof.
  rewrite !leb_lt_eq. intros [H1|H1] [H2|H2]; subst; auto.
  left. eapply String_as_OT.lt_trans; eauto.
Qed.

Lemma leb_neq_ltb a b : String.leb a b = true -> a <> b -> String.ltb a b = true.
Proof. rewrite leb_lt_eq, ltb_lt. intros [H|H] N; congruence. Qed.

Section OrderByFacts.
Context {A : Type} (key : A -> string).

Let le (x y : A) : Prop := String.leb (key x) (key y) = true.

Lemma insert_sorted_perm x l : Permutation (x :: l) (insert_sorted key x l).
Proof.
  induction l as [|y l IH]; simpl; auto.
  destruct (String.leb (key x) (key y)); auto.
  rewrite perm_swap. constructor. exact IH.
Qed.

Lemma order_by_perm l : Permutation l (order_by key l).
Proof.
  induction l as [|x l IH]; simpl; auto.
  rewrite <- insert_sorted_perm. constructor. exact IH.
Qed.

Lemma insert_sorted_sorted x l :
  StronglySorted le l -> StronglySorted le (insert_sorted key x l).
Proof.
  induction 1 as [|y l Hs IH Hy]; simpl.
  - repeat constructor.
  - destruct (String.leb (key x) (key y)) eqn:E.
    + constructor; [constructor; assumption|].
      constructor; [exact E|].
      eapply Forall_impl; [|exact Hy]. intros z Hz. eapply leb_trans; eauto.
    + constructor; [exact IH|].
      assert (le y x) as Hyx.
      { destruct (String.leb_total (key x) (key y)) as [H|H]; [congruence|exact H]. }
      rewrite <- (Permutation_Forall (insert_sorted_perm x l)).
      constructor; assumption.
Qed.

Lemma order_by_sorted l : StronglySorted le (order_by key l).
Proof.
  induction l as [|x l IH]; simpl; [constructor|].
  apply insert_sorted_sorted, IH.
Qed.

(** With distinct keys the order is strict. *)
Lemma order_by_strict l :
  NoDup (map key l) -> StronglySorted email_lt (map key (order_by key l)).
Proof.
  intros Hnd.
  assert (NoDup (map key (order_by key l))) as Hnd'.
  { eapply Permutation_NoDup; [|exact Hnd]. apply Permutation_map, order_by_perm. }
  pose proof (order_by_sorted l) as Hs.
  induction Hs as [|y s Hs IH Hy]; simpl in *; [constructor|].
  inversion Hnd' as [|? ? Hnotin Hnd'']; subst.
  constructor; [apply IH, Hnd''|].
  rewrite Forall_map. rewrite Forall_forall in *. intros z Hz.
  apply leb_neq_ltb; [apply Hy, Hz|].
  intro E. apply Hnotin. rewrite E. apply in_map, Hz.
Qed.
End OrderByFacts.

Lemma StronglySorted_skipn {A} (R : A -> A -> Prop) n l :
  StronglySorted R l -> StronglySorted R (skipn n l).
Proof.
  revert l. induction n as [|n IH]; intros l H; simpl; auto.
  destruct l; auto. inversion H; auto.
Qed.

Lemma In_firstn {A} n (l : list A) x : In x (firstn n l) -> In x l.
Proof.
  intro H. rewrite <- (firstn_skipn n l). apply in_or_app. left. exact H.
Qed.

Lemma StronglySorted_firstn {A} (R : A -> A -> Prop) n l :
  StronglySorted R l -> StronglySorted R (firstn n l).
Proof.
  revert l. induction n as [|n IH]; intros l H; simpl; [constructor|].
  destruct l; [constructor|]. inversion H; subst. constructor; auto.
  rewrite Forall_forall in *. intros x Hx. eauto using In_firstn.
Qed.

(* ================================================================== *)
(** ** Reading the schema's constraints *)

Lemma existsb_has_id i rows :
  existsb (has_id i) rows = true <-> In i (map Row.id rows).
Proof.
  rewrite existsb_exists, in_map_iff. unfold has_id.
  split; intros [r H]; exists r; rewrite N.eqb_eq in *; tauto.
Qed.

Lemma existsb_has_email e rows :
  existsb (has_email e) rows = true <-> In e (map Row.email rows).
Proof.
  rewrite existsb_exists, in_map_iff. unfold has_email.
  split; intros [r H]; exists r; rewrite String.eqb_eq in *; tauto.
Qed.

Lemma mem_In i l : mem i l = true <-> In i l.
Proof.
  unfold mem. rewrite existsb_exists.
  split; [intros [x [H E]]; apply N.eqb_eq in E; subst; exact H|].
  intro H. exists i. split; [exact H|apply N.eqb_refl].
Qed.

Lemma link_eqb_eq a b : link_eqb a b = true <-> a = b.
Proof.
  destruct a, b. unfold link_eqb. simpl.
  rewrite andb_true_iff, !N.eqb_eq. split; [intros []; congruence|].
  intro H; inversion H; auto.
Qed.

Lemma distinct_NoDup {A} (eqb : A -> A -> bool) l :
  (forall x y, eqb x y = true <-> x = y) ->
  distinct eqb l = true -> NoDup l.
Proof.
  intros Heq. induction l as [|x l IH]; simpl; [constructor|].
  rewrite andb_true_iff, negb_true_iff. intros [Hx Hl].
  constructor; [|apply IH, Hl].
  intro Hin. assert (existsb (eqb x) l = true) as E; [|congruence].
  apply existsb_exists. exists x. split; [exact Hin|apply Heq; reflexivity].
Qed.


Lemma consistentb_spec d : consistentb d = true -> consistent d.
Proof.
  unfold consistentb. rewrite !andb_true_iff, !forallb_forall.
  intros [[[[[H1 H2] H3] H4] H5] H6]. constructor.
  - eapply distinct_NoDup; [apply N.eqb_eq|exact H1].
  - eapply distinct_NoDup; [apply String.eqb_eq|exact H2].
  - exact H3.
  - eapply distinct_NoDup; [apply link_eqb_eq|exact H4].
  - intros pc Hin E. specialize (H5 pc Hin).
    rewrite negb_true_iff, N.eqb_neq in H5. contradiction.
  - intros pc Hin. specialize (H6 pc Hin).
    rewrite andb_true_iff, !existsb_has_id in H6. exact H6.
Qed.

(* ================================================================== *)
(** ** Paginated list *)

Lemma querystringSchema_range query_limit query_offset :
  querystringSchema query_limit query_offset = true <->
  1 <= match query_limit with Some l => l | None => 20 end <= 100
  /\ 0 <= match query_offset with Some o => o | None => 0 end.
Proof.
  unfold querystringSchema.
  destruct query_limit, query_offset;
    rewrite ?andb_true_iff, ?Z.leb_le; lia.
Qed.


Lemma window_strict limit offset rows :
  NoDup (map Row.email rows) ->
  StronglySorted email_lt
    (map Row.email (firstn limit (skipn offset (order_by Row.email rows)))).
Proof.
  intro H. rewrite <- firstn_map, <- skipn_map.
  apply StronglySorted_firstn, StronglySorted_skipn, order_by_strict, H.
Qed.

(** *** The numbers of a request *)

Lemma Number_safe z : Z.abs z <= 2 ^ 53 -> Number z = z.
Proof.
  intro Hz. unfold Number. destruct (Z.leb_spec (Z.abs z) (2 ^ 53)); [reflexivity|lia].
Qed.

Lemma Number_above z : 2 ^ 53 < z -> 2 ^ 53 <= Number z.
Proof.
  intro Hz. unfold Number. rewrite (Z.abs_eq z) by lia.
  destruct (Z.leb_spec z (2 ^ 53)); [lia|].
  rewrite (Z.sgn_pos z) by lia. rewrite Z.mul_1_l.
  assert (53 <= Z.log2 z) as Hlog.
  { change 53 with (Z.log2 (2 ^ 53)). apply Z.log2_le_mono. lia. }
  set (e := Z.log2 z - 52) in *.
  assert (1 <= e) as He by (unfold e; lia).
  rewrite Z.shiftr_div_pow2 by lia.
  set (q := z / 2 ^ e).
  assert (0 < 2 ^ e) as Hp by (apply Z.pow_pos_nonneg; lia).
  assert (2 ^ 52 <= q) as Hq.
  { unfold q. apply Z.div_le_lower_bound; [exact Hp|].
    rewrite Z.mul_comm, <- Z.pow_add_r by lia.
    replace (52 + e) with (Z.log2 z) by (unfold e; lia).
    apply Z.log2_spec. lia. }
  assert (2 <= 2 ^ e) as Hp2.
  { change 2 with (2 ^ 1) at 1. apply Z.pow_le_mono_r; lia. }
  match goal with |- _ <= Z.shiftl ?t e =>
    assert (q <= t) as Hq'
      by (destruct (_ <? _); [lia|]; destruct (_ <? _); [lia|];
          destruct (Z.even q); lia);
    rewrite Z.shiftl_mul_pow2 by lia;
    generalize dependent t
  end.
  intros q' Hq'. change (2 ^ 53) with (2 ^ 52 * 2). nia.
Qed.

Lemma Number_opp z : Number (- z) = - Number z.
Proof.
  unfold Number. rewrite Z.abs_opp, Z.sgn_opp.
  destruct (Z.abs z <=? 2 ^ 53); [reflexivity|]. lia.
Qed.

Lemma Number_below z : z < - 2 ^ 53 -> Number z <= - 2 ^ 53.
Proof.
  intro Hz. replace z with (- (- z)) by lia. rewrite Number_opp.
  pose proof (Number_above (- z)). lia.
Qed.

(** Reading the number keeps the sign of the integer and every integer
    up to [2^53]; the two bounds of [limit] are among those. *)
Lemma Number_range z :
  (Z.abs z <= 2 ^ 53 -> Number z = z)
  /\ (z < 0 <-> Number z < 0)
  /\ (1 <= z <= 100 <-> 1 <= Number z <= 100).
Proof.
  split; [apply Number_safe|].
  destruct (Z.le_gt_cases (Z.abs z) (2 ^ 53)) as [Hs|Hl].
  - rewrite (Number_safe z Hs). tauto.
  - destruct (Z.le_gt_cases 0 z).
    + pose proof (Number_above z). lia.
    + pose proof (Number_below z). lia.
Qed.

Lemma printed_safe x : Z.abs x <= 2 ^ 53 -> printed x = x.
Proof.
  intro Hx. unfold printed. destruct (Z.leb_spec (Z.abs x) (2 ^ 53)); [reflexivity|lia].
Qed.

Lemma shortest_nonneg j x : 0 <= x -> 0 <= shortest j x.
Proof.
  intro Hx. induction j as [|j IH]; [exact Hx|].
  cbn [shortest].
  set (p := 10 ^ Z.of_nat (S j)).
  assert (0 < p) as Hp by (apply Z.pow_pos_nonneg; lia).
  assert (0 <= x / p * p) as Hlo.
  { apply Z.mul_nonneg_nonneg; [apply Z.div_pos|]; lia. }
  destruct (_ =? x), (_ =? x); try lia.
  destruct (_ <? _); [lia|]. destruct (_ <? _); [lia|]. destruct (Z.even _); lia.
Qed.

Lemma printed_nonneg x : 0 <= x -> 0 <= printed x.
Proof.
  intro Hx. unfold printed. destruct (_ <=? _); [exact Hx|].
  destruct (Z.eq_dec x 0) as [->|Hn]; [reflexivity|].
  rewrite (Z.sgn_pos x), Z.mul_1_l by lia. apply shortest_nonneg. lia.
Qed.

(** What Postgres reads of the two parameters. *)
Lemma int8_read x :
  0 <= x < 10 ^ 21 -> printed x < 2 ^ 63 -> int8 (Some x) = inr (Some (printed x)).
Proof.
  intros Hx Hp. unfold int8. rewrite (Z.abs_eq x) by lia.
  destruct (Z.leb_spec (10 ^ 21) x); [lia|].
  pose proof (printed_nonneg x (proj1 Hx)).
  destruct (Z.ltb_spec (printed x) (- 2 ^ 63)); [lia|].
  destruct (Z.leb_spec (2 ^ 63) (printed x)); [lia|]. reflexivity.
Qed.


Lemma int8_limit l : 1 <= l <= 100 -> int8 (Some l) = inr (Some l).
Proof.
  intro Hl. rewrite int8_read; rewrite ?printed_safe; try lia. reflexivity.
Qed.

Lemma sql_limit_firstn {A} n (l : list A) : sql_limit (Some n) l = firstn (Z.to_nat n) l.
Proof.
  unfold sql_limit. destruct (Z.leb_spec (Z.of_nat (List.length l)) n); [|reflexivity].
  symmetry. apply firstn_all2. lia.
Qed.

Lemma sql_offset_skipn {A} n (l : list A) : sql_offset (Some n) l = skipn (Z.to_nat n) l.
Proof.
  unfold sql_offset. destruct (Z.leb_spec (Z.of_nat (List.length l)) n); [|reflexivity].
  symmetry. apply skipn_all2. lia.
Qed.


(** The handler of [GET /people] on numbers the schema accepts and
    Postgres reads. *)
Lemma list_handler_run clock query_limit query_offset if_none_match d :
  let limit := match query_limit with Some l => l | None => 20 end in
  let offset := match query_offset with Some o => o | None => 0 end in
  1 <= limit <= 100 -> 0 <= offset < 10 ^ 21 -> printed offset < 2 ^ 63 ->
  Z.of_nat (List.length (person d)) < 2 ^ 31 ->
  Rest.list_handler clock query_limit query_offset if_none_match d
  = (inr (if header_is if_none_match (page_etag limit offset d)
          then Rest.send 304 None None
          else Rest.send 200 (Some (page_etag limit offset d))
                 (Some (Rest.mkPage (Z.of_nat (List.length (person d))) limit offset
                          (map (Rest.item clock)
                             (page_rows limit (printed offset) d))))),
     d).
Proof.
  intros limit offset Hl Ho Hp Hn.
  unfold Rest.list_handler. fold limit offset.
  unfold bind, db_query, select_page, select_count_max.
  rewrite (int8_limit limit Hl), (int8_read offset Ho Hp).
  rewrite sql_limit_firstn, sql_offset_skipn.
  unfold negative, int4.
  pose proof (printed_nonneg offset (proj1 Ho)).
  destruct (Z.ltb_spec (printed offset) 0); [lia|].
  destruct (Z.ltb_spec limit 0); [lia|].
  destruct (Z.leb_spec (2 ^ 31) (Z.of_nat (List.length (person d)))); [lia|].
  cbn [fst snd]. fold (maxu d). fold (page_etag limit offset d).
  fold (page_rows limit (printed offset) d).
  destruct (header_is if_none_match (page_etag limit offset d)); reflexivity.
Qed.


(** The numbers the handler reads of a query. *)
Lemma GET_people_read clock query_limit query_offset if_none_match d :
  let limit := match query_limit with Some l => l | None => 20 end in
  let offset := match query_offset with Some o => Number o | None => 0 end in
  Rest.GET_people clock query_limit query_offset if_none_match d
  = if (1 <=? limit) && (limit <=? 100) && (0 <=? offset)
    then Rest.list_handler clock (Some limit) (Some offset) if_none_match d
    else (inl ValidationError, d).
Proof.
  intros limit offset. unfold Rest.GET_people, Rest.validated, querystringSchema.
  assert (match option_map Number query_offset with
          | Some o => 0 <=? o
          | None => true
          end = (0 <=? offset)) as ->
    by (destruct query_offset; reflexivity).
  assert (match option_map Number query_limit with
          | Some l => (1 <=? l) && (l <=? 100)
          | None => true
          end = ((1 <=? limit) && (limit <=? 100))) as Hlim.
  { destruct query_limit as [l|]; [|reflexivity]. simpl.
    destruct (Number_range l) as [Hs [_ Hr]].
    destruct (Z.leb_spec 1 (Number l)), (Z.leb_spec (Number l) 100),
             (Z.leb_spec 1 l), (Z.leb_spec l 100); simpl; try reflexivity; lia. }
  rewrite Hlim.
  destruct ((1 <=? limit) && (limit <=? 100)) eqn:El; [|reflexivity].
  destruct (0 <=? offset); [|reflexivity]. simpl.
  assert (option_map Number query_limit = query_limit) as ->.
  { destruct query_limit as [l|]; [|reflexivity]. simpl. f_equal.
    apply Number_safe. unfold limit in El.
    rewrite andb_true_iff, !Z.leb_le in El. lia. }
  unfold Rest.list_handler.
  destruct query_limit, query_offset; reflexivity.
Qed.

(** [GET /people] on an offset up to [2^53]: the number read is the
    offset of the request, and so is the offset Postgres reads. *)
Lemma GET_people_safe clock query_limit query_offset if_none_match d :
  let limit := match query_limit with Some l => l | None => 20 end in
  let offset := match query_offset with Some o => o | None => 0 end in
  1 <= limit <= 100 -> 0 <= offset <= 2 ^ 53 ->
  Z.of_nat (List.length (person d)) < 2 ^ 31 ->
  Rest.GET_people clock query_limit query_offset if_none_match d
  = (inr (if header_is if_none_match (page_etag limit offset d)
          then Rest.send 304 None None
          else Rest.send 200 (Some (page_etag limit offset d))
                 (Some (Rest.mkPage (Z.of_nat (List.length (person d))) limit offset
                          (map (Rest.item clock) (page_rows limit offset d))))),
     d).
Proof.
  intros limit offset Hl Ho Hn.
  pose proof (GET_people_read clock query_limit query_offset if_none_match d) as Hg.
  cbv zeta in Hg. fold limit in Hg.
  assert (match query_offset with Some o => Number o | None => 0 end = offset) as Eo.
  { unfold offset in *. destruct query_offset as [o|]; [|reflexivity].
    apply Number_safe. lia. }
  rewrite Eo in Hg. rewrite Hg.
  destruct (Z.leb_spec 1 limit); [|lia]. destruct (Z.leb_spec limit 100); [|lia].
  destruct (Z.leb_spec 0 offset); [|lia]. cbn [andb].
  rewrite (list_handler_run clock (Some limit) (Some offset) if_none_match d);
    rewrite ?printed_safe; try lia.
  reflexivity.
Qed.


(* ================================================================== *)
(** ** What the handlers compute

    Each transaction of the REST surface and each resolver, as a function
    of the tables: the statements that run, what is returned, and what is
    left in storage when a statement fails. *)

Lemma create_handler_run g clock b d :
  Rest.create_handler g clock b d =
  match insert_body g b d with
  | inl e => (inl (Rest.rethrown (PgError e)), d)
  | inr (p, d1) =>
      match nonempty_array (Body.contacts b) with
      | None =>
          (inr (Rest.send 201 None
                  (Some (Rest.toDTO p (contacts_of (Row.id p) d1) clock))), d1)
      | Some ids =>
          if Nat.eqb (List.length (rows_among ids d1)) (List.length ids)
          then match insert_person_contacts (Row.id p) ids d1 with
               | inl e => (inl (Rest.rethrown (PgError e)), d)
               | inr (_, d2) =>
                   (inr (Rest.send 201 None
                           (Some (Rest.toDTO p (contacts_of (Row.id p) d2) clock))), d2)
               end
          else (inl (badRequest "One or more contact IDs do not exist"), d)
      end
  end.
Proof.
  unfold Rest.create_handler, insert_body, withClient, try_catch, bind, begin,
    client_query, commit, Rest.on_error, rollback, throw, ret, committed. simpl.
  destruct (insert_person _ _ _ _ _ _ _ d) as [e|[p d1]]; simpl; [reflexivity|].
  destruct (nonempty_array (Body.contacts b)) as [ids|]; simpl; [|reflexivity].
  unfold Rest.attach_contacts, bind, client_query, select_ids_any, throw, rows_among.
  simpl. rewrite length_map.
  destruct (Nat.eqb _ _); simpl; [|reflexivity].
  destruct (insert_person_contacts (Row.id p) ids d1) as [e|[[] d2]]; reflexivity.
Qed.

Lemma createPerson_run g clock input d :
  Graphql.createPerson g clock input d =
  match insert_body g input d with
  | inl e => (inl (PgError e), d)
  | inr (p, d1) =>
      match nonempty_array (Body.contacts input) with
      | None => (inr (Graphql.toDTO p (contacts_of (Row.id p) d1) clock), d1)
      | Some ids =>
          match insert_person_contacts (Row.id p) ids d1 with
          | inl e => (inl (PgError e), d1)
          | inr (_, d2) => (inr (Graphql.toDTO p (contacts_of (Row.id p) d2) clock), d2)
          end
      end
  end.
Proof.
  unfold Graphql.createPerson, insert_body, bind, db_query, ret.
  destruct (insert_person _ _ _ _ _ _ _ d) as [e|[p d1]]; [reflexivity|].
  destruct (nonempty_array (Body.contacts input)) as [ids|]; simpl; [|reflexivity].
  destruct (insert_person_contacts (Row.id p) ids d1) as [e|[[] d2]]; reflexivity.
Qed.

Lemma update_handler_run g clock id b d :
  Rest.update_handler g clock id b d =
  match filter (has_id id) (person d) with
  | [] => (inl notFound, d)
  | _ :: _ =>
      match scalar_step g id b d with
      | inl e => (inl (Rest.rethrown (PgError e)), d)
      | inr d1 =>
          match contacts_step true id b d1 with
          | inl x => (inl (Rest.rethrown x), d)
          | inr d2 =>
              match filter (has_id id) (person d2) with
              | row :: _ =>
                  (inr (Rest.send 200 None
                          (Some (Rest.toDTO row (contacts_of id d2) clock))), d2)
              | [] => (inl (Error "TypeError"), d2)
              end
          end
      end
  end.
Proof.
  unfold Rest.update_handler, Rest.attach_contacts, Rest.on_error.
  unfold withClient, try_catch, bind, begin, client_query, commit, rollback,
    throw, ret, committed, select_person, scalar_step, contacts_step,
    select_ids_any, delete_person_contacts, contactsOf, rows_among.
  simpl. rewrite ?length_map.
  destruct (filter (has_id id) (person d)) as [|r0 rest]; simpl; [reflexivity|].
  destruct (updates b) as [|a sets]; simpl;
    [|destruct (update_person g (a :: sets) id d) as [e|[n d1]]; simpl; [reflexivity|]];
    (destruct (present (Body.contacts b)); simpl;
     [destruct (nonempty_array (Body.contacts b)) as [ids|]; simpl;
      rewrite ?length_map;
      [destruct (Nat.eqb _ _); simpl; [|reflexivity];
       destruct (insert_person_contacts id ids _) as [e'|[[] d2]]; simpl;
       [reflexivity|]|]|]);
    match goal with
    | |- context [filter (has_id id) (person ?x)] =>
        destruct (filter (has_id id) (person x)); reflexivity
    end.
Qed.

Lemma updatePerson_run g clock id input d :
  Graphql.updatePerson g clock id input d =
  match scalar_step g id input d with
  | inl e => (inl (PgError e), d)
  | inr d1 =>
      match contacts_step false id input d1 with
      | inl x => (inl x, unlink id d1)
      | inr d2 =>
          match filter (has_id id) (person d2) with
          | row :: _ => (inr (Graphql.toDTO row (contacts_of id d2) clock), d2)
          | [] => (inl (Error "not found"), d2)
          end
      end
  end.
Proof.
  unfold Graphql.updatePerson.
  unfold bind, db_query, throw, ret, select_person, scalar_step, contacts_step,
    delete_person_contacts, contactsOf.
  destruct (updates input) as [|a sets]; simpl;
    [|destruct (update_person g (a :: sets) id d) as [e|[n d1]]; simpl; [reflexivity|]];
    (destruct (present (Body.contacts input)); simpl;
     [destruct (nonempty_array (Body.contacts input)) as [ids|]; simpl;
      [destruct (insert_person_contacts id ids _) as [e'|[[] d2]]; simpl;
       [reflexivity|]|]|]);
    match goal with
    | |- context [filter (has_id id) (person ?x)] =>
        destruct (filter (has_id id) (person x)); reflexivity
    end.
Qed.

Lemma read_handler_run clock id if_none_match d :
  Rest.read_handler clock id if_none_match d =
  match lookup id d with
  | None => (inl notFound, d)
  | Some row =>
      (inr (if header_is if_none_match (item_etag row) then Rest.send 304 None None
            else Rest.send 200 (Some (item_etag row))
                   (Some (Rest.toDTO row (contacts_of id d) clock))), d)
  end.
Proof.
  unfold Rest.read_handler, lookup, bind, db_query, select_person, contactsOf, throw, ret.
  simpl. destruct (filter (has_id id) (person d)); [reflexivity|].
  fold (item_etag t). destruct (header_is _ _); reflexivity.
Qed.

Lemma person_run clock id d :
  Graphql.person clock id d =
  (inr (match lookup id d with
        | None => None
        | Some row => Some (Graphql.toDTO row (contacts_of id d) clock)
        end), d).
Proof.
  unfold Graphql.person, lookup, bind, db_query, select_person, contactsOf, ret.
  simpl. destruct (filter (has_id id) (person d)); reflexivity.
Qed.

(* ================================================================== *)
(** ** Partial update: what is written and what is kept *)

Lemma assign_all_preserves {A} (f : Row.t -> A) (c : column) :
  (forall a r r', column_of a <> c -> assign a r = inr r' -> f r' = f r) ->
  forall sets r r',
    Forall (fun a => column_of a <> c) sets ->
    assign_all sets r = inr r' -> f r' = f r.
Proof.
  intros Hone. induction sets as [|a sets IH]; intros r r' HF H; simpl in H.
  - inversion H. reflexivity.
  - inversion HF; subst. destruct (assign a r) as [e|r1] eqn:E; [discriminate|].
    rewrite (IH r1 r'); eauto.
Qed.

Lemma assign_all_fixed {A} (f : Row.t -> A) :
  (forall a r r', assign a r = inr r' -> f r' = f r) ->
  forall sets r r', assign_all sets r = inr r' -> f r' = f r.
Proof.
  intros Hone. induction sets as [|a sets IH]; intros r r' H; simpl in H.
  - inversion H. reflexivity.
  - destruct (assign a r) as [e|r1] eqn:E; [discriminate|].
    rewrite (IH r1 r'); eauto.
Qed.

Ltac assign_cases :=
  let a := fresh "a" in let x := fresh "x" in let x' := fresh "x'" in
  let Hc := fresh "Hc" in let H := fresh "H" in
  intros a x x' Hc H; destruct x; destruct a as [[?|]|[?|]|?|?|?|[?|]];
  simpl in *; try discriminate; try congruence;
  inversion H; reflexivity.

Lemma updates_columns b a :
  In a (updates b) ->
  match column_of a with
  | name_col => Body.name b <> absent
  | surname_col => Body.surname b <> absent
  | gender_col => Body.gender b <> absent
  | birthday_col => Body.birthday b <> absent
  | phone_col => Body.phone b <> absent
  | email_col => Body.email b <> absent
  end.
Proof.
  unfold updates, push. rewrite !in_app_iff.
  intros [H|[H|[H|[H|[H|H]]]]];
    match type of H with
    | In _ (if present ?f then _ else _) =>
        destruct f; simpl in H; [contradiction| |];
        destruct H as [H|[]]; subst; simpl; discriminate
    end.
Qed.

Lemma updates_keep b c :
  match c with
  | name_col => Body.name b = absent
  | surname_col => Body.surname b = absent
  | gender_col => Body.gender b = absent
  | birthday_col => Body.birthday b = absent
  | phone_col => Body.phone b = absent
  | email_col => Body.email b = absent
  end ->
  Forall (fun a => column_of a <> c) (updates b).
Proof.
  intros Habs. apply Forall_forall. intros a Hin E.
  apply updates_columns in Hin. rewrite E in Hin. destruct c; contradiction.
Qed.

Lemma assign_all_frame b r r1 :
  assign_all (updates b) r = inr r1 ->
  frame b r r1 /\ Row.updated_at r1 = Row.updated_at r.
Proof.
  intro H. unfold frame. repeat split.
  - revert H. apply assign_all_fixed.
    intros a r0 r' H; destruct r0; destruct a as [[v|]|[v|]|v|v|v|[v|]];
      simpl in *; try discriminate; inversion H; reflexivity.
  - revert H. apply assign_all_fixed.
    intros a r0 r' H; destruct r0; destruct a as [[v|]|[v|]|v|v|v|[v|]];
      simpl in *; try discriminate; inversion H; reflexivity.
  - intro Ha. eapply (assign_all_preserves Row.name name_col); [assign_cases| |exact H].
    apply updates_keep, Ha.
  - intro Ha. eapply (assign_all_preserves Row.surname surname_col); [assign_cases| |exact H].
    apply updates_keep, Ha.
  - intro Ha. eapply (assign_all_preserves Row.gender gender_col); [assign_cases| |exact H].
    apply updates_keep, Ha.
  - intro Ha. eapply (assign_all_preserves Row.birthday birthday_col); [assign_cases| |exact H].
    apply updates_keep, Ha.
  - intro Ha. eapply (assign_all_preserves Row.phone phone_col); [assign_cases| |exact H].
    apply updates_keep, Ha.
  - intro Ha. eapply (assign_all_preserves Row.email email_col); [assign_cases| |exact H].
    apply updates_keep, Ha.
  - revert H. apply assign_all_fixed.
    intros a r0 r' H; destruct r0; destruct a as [[v|]|[v|]|v|v|v|[v|]];
      simpl in *; try discriminate; inversion H; reflexivity.
Qed.

Lemma frame_refl b r : frame b r r.
Proof. unfold frame. tauto. Qed.

Lemma frame_with_updated_at b r r1 u :
  frame b r r1 -> frame b r (with_updated_at u r1).
Proof. destruct r1. exact (fun H => H). Qed.

Lemma filter_has_id_replace i new rows :
  has_id i new = true ->
  filter (has_id i) (map (fun o => if has_id i o then new else o) rows)
  = map (fun _ => new) (filter (has_id i) rows).
Proof.
  intro Hn. induction rows as [|o rows IH]; simpl; [reflexivity|].
  destruct (has_id i o) eqn:E; simpl; rewrite ?Hn, ?E, IH; reflexivity.
Qed.

Lemma has_id_true i r : has_id i r = true <-> Row.id r = i.
Proof. unfold has_id. apply N.eqb_eq. Qed.

Lemma lookup_Some i d r : lookup i d = Some r -> Row.id r = i /\ In r (person d).
Proof.
  unfold lookup. destruct (filter (has_id i) (person d)) as [|x l] eqn:E; [discriminate|].
  intro H; inversion H; subst.
  assert (In r (filter (has_id i) (person d))) as Hin by (rewrite E; left; reflexivity).
  apply filter_In in Hin. destruct Hin as [Hin Hid]. apply has_id_true in Hid. auto.
Qed.

(** A successful "apply partial update": the addressed row is rebuilt
    from the named fields, the others keep their values, and
    [person_contacts] is not read or written. *)
Lemma scalar_step_frame g i b d d1 r :
  scalar_step g i b d = inr d1 -> lookup i d = Some r ->
  person_contacts d1 = person_contacts d
  /\ exists r', lookup i d1 = Some r' /\ frame b r r'
                /\ (updates b = [] -> d1 = d)
                /\ (updates b <> [] -> Row.updated_at r' = now g).
Proof.
  unfold scalar_step. intros H Hl.
  destruct (updates b) as [|a sets] eqn:Eu.
  - inversion H; subst. split; [reflexivity|]. exists r.
    split; [exact Hl|]. split; [apply frame_refl|]. split; congruence.
  - unfold update_person in H. unfold lookup in Hl.
    destruct (filter (has_id i) (person d)) as [|r0 rest] eqn:Ef; [discriminate|].
    inversion Hl; subst r0. rewrite <- Eu in H.
    destruct (assign_all (updates b) r) as [e|r1] eqn:Ea; [discriminate|].
    destruct (negb _); [discriminate|]. destruct (existsb _ _); [discriminate|].
    inversion H; subst d1; clear H. simpl. split; [reflexivity|].
    destruct (assign_all_frame b r r1 Ea) as [Hf Hu].
    assert (Row.id r = i) as Hid.
    { apply (lookup_Some i d). unfold lookup. rewrite Ef. reflexivity. }
    exists (set_updated_at g (with_updated_at (now g) r1)).
    split; [|split; [|split]].
    + unfold lookup. simpl. rewrite filter_has_id_replace, Ef; [reflexivity|].
      apply has_id_true. destruct Hf as [Hi _]. destruct r1; simpl in *. congruence.
    + apply frame_with_updated_at, frame_with_updated_at, Hf.
    + discriminate.
    + intros _. destruct r1; reflexivity.
Qed.

(** "Replace contacts set" never writes table [person], and writes nothing
    when the key is missing. *)
Lemma contacts_step_person checked i b d d2 :
  contacts_step checked i b d = inr d2 ->
  person d2 = person d /\ (Body.contacts b = absent -> d2 = d).
Proof.
  unfold contacts_step. destruct (Body.contacts b) as [| |ids] eqn:E; simpl.
  - intro H; inversion H; auto.
  - intro H; inversion H; subst. split; [reflexivity|discriminate].
  - destruct ids as [|c ids]; simpl.
    + intro H; inversion H; subst. split; [reflexivity|discriminate].
    + destruct (checked && _); [discriminate|].
      unfold insert_person_contacts.
      destruct (insert_links _ _ _); [discriminate|].
      destruct (forallb _ _); [|discriminate].
      intro H; inversion H; subst. split; [reflexivity|discriminate].
Qed.

Lemma update_steps_frame g checked i b d d1 d2 r :
  scalar_step g i b d = inr d1 ->
  contacts_step checked i b d1 = inr d2 ->
  lookup i d = Some r ->
  exists r',
    lookup i d2 = Some r' /\ frame b r r'
    /\ (Body.contacts b = absent -> person_contacts d2 = person_contacts d)
    /\ (updates b = [] -> person d2 = person d)
    /\ (updates b <> [] -> Row.updated_at r' = now g).
Proof.
  intros Hs Hc Hl.
  destruct (scalar_step_frame g i b d d1 r Hs Hl) as [Hpc [r' [Hl' [Hf [Hnone Hsome]]]]].
  destruct (contacts_step_person checked i b d1 d2 Hc) as [Hp Habs].
  exists r'. split; [|split; [exact Hf|split; [|split; [|exact Hsome]]]].
  - unfold lookup in *. rewrite Hp. exact Hl'.
  - intro Ha. rewrite (Habs Ha). exact Hpc.
  - intro Hu. rewrite Hp, (Hnone Hu). reflexivity.
Qed.

Lemma lookup_filter i d :
  lookup i d = match filter (has_id i) (person d) with [] => None | r :: _ => Some r end.
Proof. reflexivity. Qed.

(** What the coercion of the types leaves of a body: the keys it has,
    and the contact list. *)
Lemma coerceTypes_contacts b : Body.contacts (coerceTypes b) = Body.contacts b.
Proof. reflexivity. Qed.

Lemma coerceTypes_absent b :
  (Body.name (coerceTypes b) = absent <-> Body.name b = absent)
  /\ (Body.surname (coerceTypes b) = absent <-> Body.surname b = absent)
  /\ (Body.gender (coerceTypes b) = absent <-> Body.gender b = absent)
  /\ (Body.birthday (coerceTypes b) = absent <-> Body.birthday b = absent)
  /\ (Body.phone (coerceTypes b) = absent <-> Body.phone b = absent)
  /\ (Body.email (coerceTypes b) = absent <-> Body.email b = absent).
Proof.
  destruct b as [n s g bd ph e c]. cbn.
  destruct n, s, g as [| |[|? ?]], ph, e; repeat split; intro; congruence.
Qed.

Lemma frame_coerceTypes b r r' : frame (coerceTypes b) r r' <-> frame b r r'.
Proof.
  unfold frame. destruct (coerceTypes_absent b) as [H1 [H2 [H3 [H4 [H5 H6]]]]].
  rewrite H1, H2, H3, H4, H5, H6. reflexivity.
Qed.

Lemma no_scalar_coerceTypes b : no_scalar (coerceTypes b) <-> no_scalar b.
Proof.
  unfold no_scalar. destruct (coerceTypes_absent b) as [H1 [H2 [H3 [H4 [H5 H6]]]]].
  rewrite H1, H2, H3, H4, H5, H6. reflexivity.
Qed.

Lemma contacts_step_coerceTypes checked i b d :
  contacts_step checked i (coerceTypes b) d = contacts_step checked i b d.
Proof. reflexivity. Qed.


Lemma updates_coerceTypes b : updates (coerceTypes b) = [] <-> updates b = [].
Proof.
  destruct b as [n s g bd ph e c]. unfold updates, push. cbn.
  destruct n, s, g as [| |[|? ?]], bd, ph, e; cbn; split; intro; try discriminate;
    reflexivity.
Qed.

(** The two blocks of the REST update, on the body the validation
    leaves, keep what the body of the request does not name. *)
Lemma update_steps_frame_coerced g checked i b d d1 d2 r :
  scalar_step g i (coerceTypes b) d = inr d1 ->
  contacts_step checked i b d1 = inr d2 ->
  lookup i d = Some r ->
  exists r',
    lookup i d2 = Some r' /\ frame b r r'
    /\ (Body.contacts b = absent -> person_contacts d2 = person_contacts d)
    /\ (updates b = [] -> person d2 = person d)
    /\ (updates b <> [] -> Row.updated_at r' = now g).
Proof.
  intros Hs Hc Hl.
  destruct (update_steps_frame g checked i (coerceTypes b) d d1 d2 r Hs Hc Hl)
    as [r' [Hl' [Hf [Hpc [Hnone Hsome]]]]].
  exists r'. split; [exact Hl'|]. split; [apply frame_coerceTypes, Hf|].
  split; [exact Hpc|]. rewrite updates_coerceTypes in Hnone, Hsome. auto.
Qed.

(** A successful [PATCH /people/:id], step by step. *)
Lemma PATCH_person_ok g clock id b d reply d' :
  Rest.PATCH_person g clock id b d = (inr reply, d') ->
  personSchema false (coerceTypes b) = true
  /\ exists r d1 r',
       lookup id d = Some r
       /\ scalar_step g id (coerceTypes b) d = inr d1
       /\ contacts_step true id b d1 = inr d'
       /\ lookup id d' = Some r'
       /\ reply = Rest.send 200 None (Some (Rest.toDTO r' (contacts_of id d') clock)).
Proof.
  unfold Rest.PATCH_person, Rest.validated.
  destruct (personSchema false (coerceTypes b)); [|discriminate].
  rewrite update_handler_run. intro H. split; [reflexivity|].
  destruct (filter (has_id id) (person d)) as [|r rest] eqn:Ef; [discriminate|].
  destruct (scalar_step g id (coerceTypes b) d) as [e|d1] eqn:Es; [discriminate|].
  rewrite contacts_step_coerceTypes in H.
  destruct (contacts_step true id b d1) as [x|d2] eqn:Ec; [discriminate|].
  destruct (filter (has_id id) (person d2)) as [|r' rest'] eqn:Ef'; [discriminate|].
  inversion H; subst. exists r, d1, r'.
  rewrite !lookup_filter, Ef, Ef'. auto.
Qed.

(** A successful [updatePerson], step by step. *)
Lemma updatePerson_ok g clock id input d dto d' :
  Graphql.updatePerson g clock id input d = (inr dto, d') ->
  exists r d1 r',
    lookup id d = Some r
    /\ scalar_step g id input d = inr d1
    /\ contacts_step false id input d1 = inr d'
    /\ lookup id d' = Some r'
    /\ dto = Graphql.toDTO r' (contacts_of id d') clock.
Proof.
  rewrite updatePerson_run. intro H.
  destruct (scalar_step g id input d) as [e|d1] eqn:Es; [discriminate|].
  destruct (contacts_step false id input d1) as [x|d2] eqn:Ec; [discriminate|].
  destruct (filter (has_id id) (person d2)) as [|r' rest'] eqn:Ef; [discriminate|].
  inversion H; subst.
  destruct (lookup id d) as [r|] eqn:El.
  - exists r, d1, r'. rewrite lookup_filter, Ef. auto.
  - exfalso.
    assert (d1 = d) as ->.
    { unfold scalar_step, update_person in Es. rewrite lookup_filter in El.
      destruct (filter (has_id id) (person d)); [|discriminate].
      destruct (updates input); inversion Es; reflexivity. }
    destruct (contacts_step_person _ _ _ _ _ Ec) as [Hp _].
    rewrite lookup_filter, <- Hp, Ef in El. discriminate.
Qed.

(** C7. After a successful partial update, through either surface, the
    addressed person has every scalar field that the input does not name
    at its prior value (and its id and creation time), and when the input
    does not name the contact set, table [person_contacts] is as it was. *)
Theorem C7_partial_update_frame g clock id b d reply dto d' :
  Rest.PATCH_person g clock id b d = (inr reply, d')
  \/ Graphql.updatePerson g clock id b d = (inr dto, d') ->
  exists r r',
    lookup id d = Some r /\ lookup id d' = Some r' /\ frame b r r'
    /\ (Body.contacts b = absent -> person_contacts d' = person_contacts d).
Proof.
  intros [H|H].
  - apply PATCH_person_ok in H.
    destruct H as [_ [r [d1 [r' [Hl [Hs [Hc [Hl' _]]]]]]]].
    destruct (update_steps_frame_coerced g true id b d d1 d' r Hs Hc Hl)
      as [r'' [Hl'' [Hf [Hpc _]]]].
    exists r, r''. auto.
  - apply updatePerson_ok in H.
    destruct H as [r [d1 [r' [Hl [Hs [Hc [Hl' _]]]]]]].
    destruct (update_steps_frame g false id b d d1 d' r Hs Hc Hl)
      as [r'' [Hl'' [Hf [Hpc _]]]].
    exists r, r''. auto.
Qed.

(* ================================================================== *)
(** ** An update of the contact set alone *)

Lemma no_scalar_updates b : no_scalar b <-> updates b = [].
Proof.
  unfold no_scalar, updates, push. split.
  - intros [-> [-> [-> [-> [-> ->]]]]]. reflexivity.
  - destruct (Body.name b), (Body.surname b), (Body.gender b), (Body.birthday b),
      (Body.phone b), (Body.email b); simpl; intro H; try discriminate; tauto.
Qed.

Lemma header_is_same e : header_is (Some e) e = true.
Proof. apply String.eqb_refl. Qed.

(** C2, as the code has it.  A successful update whose input names only
    the contact set writes no row of [person]: the person's [updated_at],
    the [modified] it reports and the single-item fingerprint are what
    they were before, so a conditional fetch with the fingerprint issued
    before the update is answered 304 after it.  (When the input names a
    scalar field, [updated_at] becomes the [now()] of the update.) *)
Theorem C2_contacts_only_update_keeps_fingerprint g clock id b d reply d' :
  Rest.PATCH_person g clock id b d = (inr reply, d') ->
  exists r r',
    lookup id d = Some r /\ lookup id d' = Some r'
    /\ reply = Rest.send 200 None (Some (Rest.toDTO r' (contacts_of id d') clock))
    /\ (no_scalar b ->
        person d' = person d /\ r' = r
        /\ DTO.modified (Rest.toDTO r' (contacts_of id d') clock) = Row.updated_at r
        /\ forall clock',
             Rest.GET_person clock' id None d
             = (inr (Rest.send 200 (Some (item_etag r))
                       (Some (Rest.toDTO r (contacts_of id d) clock'))), d)
             /\ Rest.GET_person clock' id None d'
                = (inr (Rest.send 200 (Some (item_etag r))
                          (Some (Rest.toDTO r (contacts_of id d') clock'))), d')
             /\ Rest.GET_person clock' id (Some (item_etag r)) d'
                = (inr (Rest.send 304 None None), d'))
    /\ (~ no_scalar b -> Row.updated_at r' = now g).
Proof.
  intro H. apply PATCH_person_ok in H.
  destruct H as [_ [r [d1 [r' [Hl [Hs [Hc [Hl' Hr]]]]]]]].
  destruct (update_steps_frame_coerced g true id b d d1 d' r Hs Hc Hl)
    as [r'' [Hl'' [Hf [Hpc [Hnone Hsome]]]]].
  assert (r'' = r') by congruence; subst r''.
  exists r, r'. split; [exact Hl|]. split; [exact Hl'|]. split; [exact Hr|]. split.
  - intro Hn. apply no_scalar_updates in Hn. specialize (Hnone Hn).
    assert (r' = r) as ->.
    { unfold lookup in Hl, Hl'. rewrite Hnone in Hl'. congruence. }
    split; [exact Hnone|]. split; [reflexivity|]. split; [reflexivity|].
    intro clock'. unfold Rest.GET_person. rewrite !read_handler_run, Hl, Hl'.
    rewrite header_is_same. auto.
  - intro Hn. apply Hsome. intro E. apply Hn, no_scalar_updates, E.
Qed.

(* ================================================================== *)
(** ** Counting the contact ids that exist *)

Lemma NoDup_map_filter {A B} (f : A -> B) (p : A -> bool) l :
  NoDup (map f l) -> NoDup (map f (filter p l)).
Proof.
  induction l as [|x l IH]; simpl; intro H; [constructor|].
  inversion H as [|? ? Hx Hl]; subst. destruct (p x); simpl; auto.
  constructor; auto. intro Hin. apply Hx.
  apply in_map_iff in Hin. destruct Hin as [y [E Hy]].
  apply filter_In in Hy. apply in_map_iff. exists y. tauto.
Qed.

(** With a key on [id] and no repeated item, the count of the handler's
    check equals the length of the list exactly when every id exists. *)
Lemma rows_among_count ids d :
  NoDup (map Row.id (person d)) -> NoDup ids ->
  (List.length (rows_among ids d) = List.length ids
   <-> incl ids (map Row.id (person d))).
Proof.
  intros Hk Hn. unfold rows_among.
  set (L := map Row.id (filter (fun r => mem (Row.id r) ids) (person d))).
  assert (NoDup L) as HL by (apply NoDup_map_filter, Hk).
  assert (incl L ids) as Hsub.
  { intros c Hc. apply in_map_iff in Hc. destruct Hc as [r [E Hr]].
    apply filter_In in Hr. destruct Hr as [_ Hm]. apply mem_In in Hm. congruence. }
  assert (List.length L = List.length (filter (fun r => mem (Row.id r) ids) (person d)))
    as HLlen by apply length_map.
  rewrite <- HLlen. split.
  - intros Hlen c Hc.
    assert (incl ids L) as Hsup.
    { apply NoDup_length_incl; [exact HL|rewrite Hlen; apply le_n|exact Hsub]. }
    apply Hsup in Hc. apply in_map_iff in Hc. destruct Hc as [r [E Hr]].
    apply filter_In in Hr. apply in_map_iff. exists r. tauto.
  - intro Hall.
    assert (incl ids L) as Hsup.
    { intros c Hc. pose proof (Hall c Hc) as Hin.
      apply in_map_iff in Hin. destruct Hin as [r [E Hr]].
      apply in_map_iff. exists r. split; [exact E|].
      apply filter_In. split; [exact Hr|]. apply mem_In. congruence. }
    apply Nat.le_antisymm; apply NoDup_incl_length; assumption.
Qed.

(* ================================================================== *)
(** ** Replacing the contact set *)

Lemma existsb_link_eqb l t : existsb (link_eqb l) t = true <-> In l t.
Proof.
  rewrite existsb_exists. split.
  - intros [x [Hin E]]. apply link_eqb_eq in E. subst. exact Hin.
  - intro Hin. exists l. split; [exact Hin|apply link_eqb_eq; reflexivity].
Qed.

Lemma insert_links_inr i ids t t' :
  insert_links i ids t = inr t' ->
  t' = (t ++ map (pair i) ids)%list /\ ~ In i ids /\ NoDup ids
  /\ (forall c, In c ids -> ~ In (i, c) t).
Proof.
  revert t. induction ids as [|c ids IH]; simpl; intros t H.
  - inversion H. rewrite app_nil_r. repeat split; auto. constructor.
  - destruct (N.eqb_spec i c) as [|Hic]; [discriminate|].
    destruct (existsb (link_eqb (i, c)) t) eqn:E; [discriminate|].
    destruct (IH _ H) as [Ht [Hni [Hnd Hfresh]]].
    split; [rewrite Ht, <- app_assoc; reflexivity|].
    split; [intros [Hc|Hc]; [congruence|contradiction]|].
    assert (~ In (i, c) t) as Hct.
    { rewrite <- existsb_link_eqb. congruence. }
    split.
    + constructor; [|exact Hnd]. intro Hc.
      apply (Hfresh c Hc). apply in_or_app. right. left. reflexivity.
    + intros c' [->|Hc'] Hin; [contradiction|].
      apply (Hfresh c' Hc'). apply in_or_app. left. exact Hin.
Qed.

Lemma insert_links_ok i ids t :
  ~ In i ids -> NoDup ids -> (forall c, In c ids -> ~ In (i, c) t) ->
  insert_links i ids t = inr (t ++ map (pair i) ids)%list.
Proof.
  revert t. induction ids as [|c ids IH]; simpl; intros t Hni Hnd Hfresh.
  - rewrite app_nil_r. reflexivity.
  - destruct (N.eqb_spec i c) as [->|Hic]; [exfalso; apply Hni; left; reflexivity|].
    destruct (existsb (link_eqb (i, c)) t) eqn:E.
    + apply existsb_link_eqb in E. exfalso. apply (Hfresh c); [left; reflexivity|exact E].
    + inversion Hnd as [|? ? Hc Hnd']; subst.
      rewrite IH; [rewrite <- app_assoc; reflexivity|tauto|exact Hnd'|].
      intros c' Hc' Hin. apply in_app_or in Hin. destruct Hin as [Hin|[Hin|[]]].
      * apply (Hfresh c'); [right; exact Hc'|exact Hin].
      * inversion Hin; subst. contradiction.
Qed.

Lemma unlink_no_link i c d : ~ In (i, c) (person_contacts (unlink i d)).
Proof.
  unfold unlink. simpl. rewrite filter_In. simpl. rewrite N.eqb_refl.
  intros [_ H]. discriminate.
Qed.

Lemma filter_idem {A} (p : A -> bool) l : filter p (filter p l) = filter p l.
Proof.
  induction l as [|x l IH]; simpl; [reflexivity|].
  destruct (p x) eqn:E; simpl; rewrite ?E, IH; reflexivity.
Qed.

Lemma unlink_replaced i ids d : unlink i (replaced i ids d) = unlink i d.
Proof.
  unfold unlink, replaced. simpl. f_equal.
  rewrite filter_app, filter_idem.
  transitivity (filter (fun pc : link => negb (N.eqb (fst pc) i)) (person_contacts d)
                ++ [])%list; [|apply app_nil_r].
  f_equal.
  induction ids as [|c ids IH]; simpl; [reflexivity|]. rewrite N.eqb_refl. exact IH.
Qed.

(* ================================================================== *)
(** ** The row an update writes *)

Lemma assign_all_app l1 l2 r :
  assign_all (l1 ++ l2) r
  = match assign_all l1 r with
    | inl e => inl e
    | inr r' => assign_all l2 r'
    end.
Proof.
  revert r. induction l1 as [|a l1 IH]; intro r; simpl; [reflexivity|].
  destruct (assign a r); [reflexivity|apply IH].
Qed.

(** The [set] list of a body fails on a null for a required column and
    otherwise writes the named fields over the row. *)
Lemma assign_all_updates b r :
  assign_all (updates b) r
  = if nulls_required b then inl not_null_violation else inr (patched b r).
Proof.
  unfold updates, nulls_required, patched. destruct r as [i n s ge bd p e c u].
  rewrite !assign_all_app.
  destruct (Body.name b) as [| |v1]; simpl; try reflexivity;
  destruct (Body.surname b) as [| |v2]; simpl; try reflexivity;
  destruct (Body.gender b) as [| |v3]; simpl;
  destruct (Body.birthday b) as [| |v4]; simpl;
  destruct (Body.phone b) as [| |v5]; simpl;
  destruct (Body.email b) as [| |v6]; simpl; reflexivity.
Qed.

Lemma patched_idem b r u :
  patched b (with_updated_at u (patched b r)) = with_updated_at u (patched b r).
Proof.
  destruct r. unfold patched, with_updated_at. simpl.
  destruct (Body.name b), (Body.surname b), (Body.gender b), (Body.birthday b),
    (Body.phone b), (Body.email b); reflexivity.
Qed.

Lemma existsb_others_replace i new e rows :
  has_id i new = true ->
  existsb (fun o => negb (has_id i o) && has_email e o)
          (map (fun o => if has_id i o then new else o) rows)
  = existsb (fun o => negb (has_id i o) && has_email e o) rows.
Proof.
  intro Hn. induction rows as [|o rows IH]; simpl; [reflexivity|].
  rewrite IH. destruct (has_id i o) eqn:E; simpl; rewrite ?Hn, ?E; reflexivity.
Qed.

Lemma map_id_replace i new rows :
  Row.id new = i ->
  map Row.id (map (fun o => if has_id i o then new else o) rows) = map Row.id rows.
Proof.
  intro Hn. rewrite map_map. apply map_ext. intro o.
  destruct (has_id i o) eqn:E; [|reflexivity].
  apply has_id_true in E. congruence.
Qed.

(** What "apply partial update" does to the tables. *)
Lemma scalar_step_inr g i b d d1 :
  scalar_step g i b d = inr d1 ->
  person_contacts d1 = person_contacts d
  /\ map Row.id (person d1) = map Row.id (person d)
  /\ (updates b = [] \/ lookup i d = None -> d1 = d)
  /\ (forall r, updates b <> [] -> lookup i d = Some r ->
      let new := with_updated_at (now g) (patched b r) in
      nulls_required b = false
      /\ gender_check (Row.gender new) = true
      /\ existsb (fun o => negb (has_id i o) && has_email (Row.email new) o) (person d)
         = false
      /\ person d1 = map (fun o => if has_id i o then new else o) (person d)).
Proof.
  unfold scalar_step. intro H.
  destruct (updates b) as [|a sets] eqn:Eu.
  { inversion H; subst. split; [|split; [|split]]; auto.
    intros r Hne. congruence. }
  rewrite <- Eu in H. unfold update_person in H. rewrite lookup_filter.
  destruct (filter (has_id i) (person d)) as [|r rest] eqn:Ef.
  { inversion H; subst. split; [|split; [|split]]; auto.
    intros r0 _ Hr. discriminate. }
  rewrite assign_all_updates in H.
  destruct (nulls_required b) eqn:En; [discriminate|].
  unfold set_updated_at in H.
  assert (forall x, with_updated_at (now g) (with_updated_at (now g) x)
                    = with_updated_at (now g) x) as Hw by (intros []; reflexivity).
  rewrite Hw in H.
  destruct (gender_check _) eqn:Eg; [|discriminate]. simpl in H.
  destruct (existsb _ _) eqn:Ee; [discriminate|].
  inversion H; subst d1; clear H. simpl.
  assert (Row.id r = i) as Hid.
  { apply (lookup_Some i d). rewrite lookup_filter, Ef. reflexivity. }
  split; [reflexivity|]. split.
  { apply map_id_replace. destruct r; simpl in *. exact Hid. }
  split.
  { intros [E|E]; [rewrite E in Eu|]; discriminate. }
  intros r' _ Hr'. inversion Hr'; subst r'. cbv zeta. auto.
Qed.

Lemma with_updated_at_fields u r :
  Row.id (with_updated_at u r) = Row.id r
  /\ Row.gender (with_updated_at u r) = Row.gender r
  /\ Row.email (with_updated_at u r) = Row.email r.
Proof. destruct r. auto. Qed.

(** A partial update that succeeded succeeds again with the same input,
    whatever was done to [person_contacts] in between. *)
Lemma scalar_step_again g1 g2 i b d dm d1 :
  scalar_step g1 i b d = inr dm ->
  person d1 = person dm ->
  exists d2, scalar_step g2 i b d1 = inr d2
             /\ person_contacts d2 = person_contacts d1
             /\ map Row.id (person d2) = map Row.id (person d1).
Proof.
  intros Hs Hp. destruct (scalar_step_inr g1 i b d dm Hs) as [_ [_ [Hsame Hnew]]].
  unfold scalar_step. destruct (updates b) as [|a sets] eqn:Eu.
  { exists d1. auto. }
  rewrite <- Eu. unfold update_person.
  destruct (lookup i d) as [r|] eqn:El.
  - assert (a :: sets <> []) as Hne by discriminate.
    destruct (Hnew r Hne eq_refl) as [Hnull [Hg [He Hpd]]].
    set (new := with_updated_at (now g1) (patched b r)) in *.
    assert (has_id i new = true) as Hin.
    { apply has_id_true. unfold new.
      rewrite (proj1 (with_updated_at_fields _ _)).
      apply (lookup_Some i d r El). }
    rewrite lookup_filter in El.
    destruct (filter (has_id i) (person d)) as [|r0 rest] eqn:Ef; [discriminate|].
    inversion El; subst r0.
    rewrite Hp, Hpd, filter_has_id_replace, Ef by exact Hin. cbn [map].
    rewrite assign_all_updates, Hnull.
    assert (patched b new = new) as -> by apply patched_idem.
    unfold set_updated_at.
    destruct (with_updated_at_fields (now g2) (with_updated_at (now g2) new))
      as [Hi2 [Hg2 He2]].
    destruct (with_updated_at_fields (now g2) new) as [Hi3 [Hg3 He3]].
    rewrite Hg2, Hg3, Hg, He2, He3. cbn [negb].
    rewrite existsb_others_replace, He by exact Hin.
    eexists. split; [reflexivity|]. cbn [person person_contacts].
    split; [reflexivity|].
    apply map_id_replace.
    rewrite Hi2, Hi3. apply has_id_true, Hin.
  - rewrite (Hsame (or_intror eq_refl)) in Hp. rewrite lookup_filter in El.
    rewrite Hp. destruct (filter (has_id i) (person d)); [|discriminate].
    exists d1. rewrite Hp. auto.
Qed.

Lemma PATCH_person_intro g clock id b d r d1 d2 r' :
  personSchema false (coerceTypes b) = true ->
  lookup id d = Some r ->
  scalar_step g id (coerceTypes b) d = inr d1 ->
  contacts_step true id b d1 = inr d2 ->
  lookup id d2 = Some r' ->
  Rest.PATCH_person g clock id b d
  = (inr (Rest.send 200 None (Some (Rest.toDTO r' (contacts_of id d2) clock))), d2).
Proof.
  intros Hv Hl Hs Hc Hl'. unfold Rest.PATCH_person, Rest.validated.
  rewrite Hv, update_handler_run, Hs, contacts_step_coerceTypes, Hc.
  rewrite lookup_filter in Hl, Hl'.
  destruct (filter (has_id id) (person d)); [discriminate|].
  destruct (filter (has_id id) (person d2)); [discriminate|].
  inversion Hl'; subst. reflexivity.
Qed.

Lemma lookup_exists i d :
  In i (map Row.id (person d)) <-> exists r, lookup i d = Some r.
Proof.
  rewrite lookup_filter. split.
  - intro Hin. apply in_map_iff in Hin. destruct Hin as [r [E Hr]].
    assert (In r (filter (has_id i) (person d))) as Hf.
    { apply filter_In. split; [exact Hr|apply has_id_true, E]. }
    destruct (filter (has_id i) (person d)) as [|x l]; [contradiction|].
    exists x. reflexivity.
  - intros [r Hr]. apply (lookup_Some i d) in Hr. apply in_map_iff. exists r. tauto.
Qed.

Lemma lookup_same_person i d d' : person d' = person d -> lookup i d' = lookup i d.
Proof. unfold lookup. intros ->. reflexivity. Qed.

Lemma NoDup_uniqueItems l : NoDup l -> uniqueItems l = true.
Proof.
  induction 1 as [|x l Hx Hl IH]; simpl; [reflexivity|].
  rewrite IH, andb_true_r, negb_true_iff.
  destruct (mem x l) eqn:E; [|reflexivity]. apply mem_In in E. contradiction.
Qed.

Lemma replaced_nil i d : replaced i [] d = unlink i d.
Proof. unfold replaced, unlink. simpl. rewrite app_nil_r. reflexivity. Qed.

(** "Replace contacts set" on ids that exist, are distinct and are not
    the person itself: the links of the person become exactly these. *)
Lemma contacts_step_ok checked i b d ids :
  Body.contacts b = val ids ->
  NoDup (map Row.id (person d)) ->
  In i (map Row.id (person d)) ->
  NoDup ids -> incl ids (map Row.id (person d)) -> ~ In i ids ->
  contacts_step checked i b d = inr (replaced i ids d).
Proof.
  intros Hb Hk Hi Hn Hall Hself. unfold contacts_step. rewrite Hb. simpl.
  destruct ids as [|c ids']; [rewrite replaced_nil; reflexivity|].
  set (ids := c :: ids') in *.
  rewrite (proj2 (rows_among_count ids d Hk Hn) Hall), Nat.eqb_refl, andb_false_r.
  unfold insert_person_contacts.
  rewrite insert_links_ok; auto using unlink_no_link.
  assert (forallb (fun c0 => existsb (has_id i) (person (unlink i d))
                             && existsb (has_id c0) (person (unlink i d))) ids = true)
    as ->; [|reflexivity].
  apply forallb_forall. intros c0 Hc0. apply andb_true_iff.
  split; apply existsb_has_id; [exact Hi|apply Hall, Hc0].
Qed.

(** Conversely, what a successful "replace contacts set" tells of the ids. *)
Lemma contacts_step_inr checked i b d d2 ids :
  Body.contacts b = val ids ->
  contacts_step checked i b d = inr d2 ->
  d2 = replaced i ids d /\ ~ In i ids /\ NoDup ids
  /\ incl ids (map Row.id (person d)).
Proof.
  intros Hb. unfold contacts_step. rewrite Hb. simpl.
  destruct ids as [|c ids'].
  { intro H; inversion H. rewrite replaced_nil.
    repeat split; auto; [constructor|intros x []]. }
  set (ids := c :: ids') in *.
  destruct (checked && _); [discriminate|].
  unfold insert_person_contacts.
  destruct (insert_links i ids (person_contacts (unlink i d))) as [e|t] eqn:El;
    [discriminate|].
  destruct (forallb _ ids) eqn:Ef; [|discriminate].
  intro H; inversion H; subst d2.
  destruct (insert_links_inr _ _ _ _ El) as [Ht [Hself [Hn _]]].
  subst t. split; [reflexivity|]. split; [exact Hself|]. split; [exact Hn|].
  intros x Hx. rewrite forallb_forall in Ef. specialize (Ef x Hx).
  apply andb_true_iff in Ef. apply existsb_has_id, Ef.
Qed.

Lemma filter_complement {A} (p : A -> bool) l :
  filter p (filter (fun x => negb (p x)) l) = [].
Proof.
  induction l as [|x l IH]; simpl; [reflexivity|].
  destruct (p x) eqn:E; simpl; rewrite ?E; exact IH.
Qed.

Lemma links_of_replaced i ids d :
  filter (fun pc => N.eqb (fst pc) i) (person_contacts (replaced i ids d))
  = map (pair i) ids.
Proof.
  unfold replaced, unlink. cbn [person_contacts]. rewrite filter_app.
  rewrite (filter_complement (fun pc : link => N.eqb (fst pc) i)). simpl.
  induction ids as [|c ids IH]; simpl; [reflexivity|].
  rewrite N.eqb_refl, IH. reflexivity.
Qed.

Lemma replaced_links_eq i ids d d' :
  person_contacts d' = person_contacts d ->
  person_contacts (replaced i ids d') = person_contacts (replaced i ids d).
Proof. unfold replaced, unlink. simpl. intros ->. reflexivity. Qed.

Lemma replaced_idem i ids d : replaced i ids (replaced i ids d) = replaced i ids d.
Proof.
  unfold replaced at 1. rewrite unlink_replaced. reflexivity.
Qed.

(* ================================================================== *)
(** ** Idempotent replacement *)

(** C6. For an existing person and a target set of existing, distinct
    contact ids without the person itself, an update that names this
    contact set succeeds (always so when it names nothing else; otherwise
    granted that the first application succeeds); applied again, on the
    state it left and at any later moment, it succeeds too, and
    [person_contacts] after the second application is what it was after
    the first: the links of the person are exactly the target set. *)
Theorem C6_contact_replace_idempotent g1 g2 clock1 clock2 id b S d :
  consistent d ->
  In id (map Row.id (person d)) ->
  NoDup S -> incl S (map Row.id (person d)) -> ~ In id S ->
  Body.contacts b = val S ->
  no_scalar b
  \/ (exists reply d1, Rest.PATCH_person g1 clock1 id b d = (inr reply, d1)) ->
  exists reply1 d1 reply2 d2,
    Rest.PATCH_person g1 clock1 id b d = (inr reply1, d1)
    /\ Rest.PATCH_person g2 clock2 id b d1 = (inr reply2, d2)
    /\ person_contacts d2 = person_contacts d1
    /\ filter (fun pc => N.eqb (fst pc) id) (person_contacts d1) = map (pair id) S.
Proof.
  intros Hd Hid Hn Hall Hself Hb Hfirst.
  pose proof (person_pkey d Hd) as Hk.
  assert (exists reply1 d1, Rest.PATCH_person g1 clock1 id b d = (inr reply1, d1))
    as [reply1 [d1 H1]].
  { destruct Hfirst as [Hns|H]; [|exact H].
    apply lookup_exists in Hid. destruct Hid as [r Hr].
    eexists. eexists. apply (PATCH_person_intro g1 clock1 id b d r d).
    - apply no_scalar_coerceTypes in Hns. unfold personSchema.
      destruct Hns as [-> [-> [-> [_ [_ ->]]]]].
      rewrite coerceTypes_contacts, Hb. simpl. apply NoDup_uniqueItems, Hn.
    - exact Hr.
    - unfold scalar_step.
      rewrite (proj2 (updates_coerceTypes b) (proj1 (no_scalar_updates b) Hns)).
      reflexivity.
    - apply (contacts_step_ok true id b d S Hb Hk); auto.
      apply lookup_exists. eauto.
    - rewrite (lookup_same_person id d (replaced id S d)); [exact Hr|reflexivity]. }
  exists reply1, d1.
  pose proof H1 as H1'. apply PATCH_person_ok in H1'.
  destruct H1' as [Hv [r [dm [r' [Hl [Hs [Hc [Hl' _]]]]]]]].
  destruct (scalar_step_inr g1 id (coerceTypes b) d dm Hs) as [Hpcm [Hidm _]].
  destruct (contacts_step_inr true id b dm d1 S Hb Hc) as [Hd1 _].
  assert (person d1 = person dm) as Hp1 by (subst d1; reflexivity).
  destruct (scalar_step_again g1 g2 id (coerceTypes b) d dm d1 Hs Hp1)
    as [d2m [Hs2 [Hpc2 Hid2]]].
  assert (map Row.id (person d2m) = map Row.id (person d)) as Hid2'.
  { rewrite Hid2, Hp1. exact Hidm. }
  assert (contacts_step true id b d2m = inr (replaced id S d2m)) as Hc2.
  { apply (contacts_step_ok true id b d2m S Hb); rewrite ?Hid2'; auto. }
  assert (exists r2, lookup id (replaced id S d2m) = Some r2) as [r2 Hl2].
  { apply lookup_exists. simpl. rewrite Hid2'. exact Hid. }
  exists (Rest.send 200 None
            (Some (Rest.toDTO r2 (contacts_of id (replaced id S d2m)) clock2))),
         (replaced id S d2m).
  split; [exact H1|]. split.
  - apply (PATCH_person_intro g2 clock2 id b d1 r' d2m); auto.
  - split.
    + rewrite (replaced_links_eq id S d1 d2m Hpc2). subst d1.
      rewrite replaced_idem. reflexivity.
    + subst d1. apply links_of_replaced.
Qed.

(* ================================================================== *)
(** ** Duplicate email *)




(* ================================================================== *)
(** ** The single-item fingerprint *)

(** C10. The fingerprint [GET /people/:id] attaches is the millisecond
    value of the person's [updated_at] between quotes and nothing else:
    two distinct persons last modified at the same moment get the same
    fingerprint, and a conditional fetch of one with the fingerprint
    issued for the other is answered 304. *)
Theorem C10_fingerprint_without_identity clock d i j ri rj :
  i <> j ->
  lookup i d = Some ri -> lookup j d = Some rj ->
  Row.updated_at ri = Row.updated_at rj ->
  let etag := quote ++ toString (getTime (Row.updated_at ri)) ++ quote in
  Rest.GET_person clock i None d
  = (inr (Rest.send 200 (Some etag) (Some (Rest.toDTO ri (contacts_of i d) clock))), d)
  /\ Rest.GET_person clock j None d
     = (inr (Rest.send 200 (Some etag) (Some (Rest.toDTO rj (contacts_of j d) clock))), d)
  /\ Rest.GET_person clock j (Some etag) d = (inr (Rest.send 304 None None), d).
Proof.
  intros _ Hi Hj Hu etag. unfold Rest.GET_person.
  rewrite !read_handler_run, Hi, Hj. unfold item_etag. rewrite <- Hu. fold etag.
  rewrite header_is_same. auto.
Qed.

(* ================================================================== *)
(** ** The two surfaces on a contact id that does not exist *)

(* ================================================================== *)
(** ** The REST surface on a contact id that does not exist *)


Lemma NoDup_snoc {A} (l : list A) x : NoDup l -> ~ In x l -> NoDup (l ++ [x]).
Proof.
  induction 1 as [|y l Hy Hl IH]; simpl; intro Hx.
  - repeat constructor. intros [].
  - constructor.
    + rewrite in_app_iff. simpl. intros [H|[H|[]]]; [contradiction|].
      apply Hx. left. symmetry. exact H.
    + apply IH. intro H. apply Hx. right. exact H.
Qed.






(* ================================================================== *)
(** ** Where the two surfaces agree *)

Lemma toDTO_same r contacts clock :
  Rest.toDTO r contacts clock = Graphql.toDTO r contacts clock.
Proof.
  unfold Rest.toDTO, Graphql.toDTO. f_equal.
  induction contacts as [|c cs IH]; simpl; [reflexivity|].
  rewrite IH. destruct c. reflexivity.
Qed.

Lemma bind_inr {S A B} (m : M S A) (k : A -> M S B) s a s' :
  m s = (inr a, s') -> bind m k s = k a s'.
Proof. unfold bind. intros ->. reflexivity. Qed.

(** The per-row contact queries of [Query.people] read and do not write. *)
Lemma mapM_contacts clock rows d :
  mapM (fun r => c <- db_query (contactsOf (Row.id r)) ;;
                 ret (Graphql.toDTO r c clock)) rows d
  = (inr (map (fun r => Graphql.toDTO r (contacts_of (Row.id r) d) clock) rows), d).
Proof.
  induction rows as [|r rows IH]; simpl; [reflexivity|].
  rewrite (bind_inr _ _ d (Graphql.toDTO r (contacts_of (Row.id r) d) clock) d)
    by reflexivity.
  rewrite (bind_inr _ _ d _ d IH). reflexivity.
Qed.

Lemma item_of_toDTO clock r contacts :
  item_of_DTO (Graphql.toDTO r contacts clock) = Rest.item clock r.
Proof. reflexivity. Qed.

Lemma int8_safe x : 0 <= x <= 2 ^ 53 -> int8 (Some x) = inr (Some x).
Proof.
  intro Hx. rewrite int8_read; rewrite ?printed_safe; try lia. reflexivity.
Qed.

Lemma select_page_safe limit offset d :
  0 <= limit <= 2 ^ 53 -> 0 <= offset <= 2 ^ 53 ->
  select_page (Some limit) (Some offset) d = inr (page_rows limit offset d, d).
Proof.
  intros Hl Ho. unfold select_page. rewrite (int8_safe limit Hl), (int8_safe offset Ho).
  rewrite sql_limit_firstn, sql_offset_skipn.
  unfold negative. destruct (Z.ltb_spec offset 0); [lia|].
  destruct (Z.ltb_spec limit 0); [lia|]. reflexivity.
Qed.

Lemma select_count_int d :
  Z.of_nat (List.length (person d)) < 2 ^ 31 ->
  select_count d = inr (Z.of_nat (List.length (person d)), d).
Proof.
  intro Hn. unfold select_count, int4.
  destruct (Z.leb_spec (2 ^ 31) (Z.of_nat (List.length (person d)))); [lia|reflexivity].
Qed.

(** [Query.people] on arguments of type [Int] that are not negative. *)
Lemma people_accepted clock query_limit query_offset d :
  let limit := match query_limit with Some l => l | None => 20 end in
  let offset := match query_offset with Some o => o | None => 0 end in
  0 <= limit < 2 ^ 31 -> 0 <= offset < 2 ^ 31 ->
  Z.of_nat (List.length (person d)) < 2 ^ 31 ->
  Graphql.people clock (arg_of_query query_limit) (arg_of_query query_offset) d
  = (inr (Graphql.mkPage (Z.of_nat (List.length (person d))) (Some limit) (Some offset)
            (map (fun r => Graphql.toDTO r (contacts_of (Row.id r) d) clock)
               (page_rows limit offset d))), d).
Proof.
  intros limit offset Hl Ho Hn. unfold Graphql.people.
  assert (Graphql.Int (arg_of_query query_limit) = true) as ->.
  { destruct query_limit as [l|]; [|reflexivity]. unfold limit in Hl.
    unfold Graphql.Int, arg_of_query.
    destruct (Z.leb_spec (- 2 ^ 31) l), (Z.ltb_spec l (2 ^ 31)); try reflexivity; lia. }
  assert (Graphql.Int (arg_of_query query_offset) = true) as ->.
  { destruct query_offset as [o|]; [|reflexivity]. unfold offset in Ho.
    unfold Graphql.Int, arg_of_query.
    destruct (Z.leb_spec (- 2 ^ 31) o), (Z.ltb_spec o (2 ^ 31)); try reflexivity; lia. }
  cbn [andb negb].
  assert (Graphql.default_arg 20 (arg_of_query query_limit) = Some limit) as ->
    by (destruct query_limit; reflexivity).
  assert (Graphql.default_arg 0 (arg_of_query query_offset) = Some offset) as ->
    by (destruct query_offset; reflexivity).
  rewrite (bind_inr _ _ d (page_rows limit offset d) d).
  2:{ unfold db_query. rewrite select_page_safe by lia. reflexivity. }
  rewrite (bind_inr _ _ d (Z.of_nat (List.length (person d))) d).
  2:{ unfold db_query. rewrite select_count_int by exact Hn. reflexivity. }
  rewrite (bind_inr _ _ d _ d (mapM_contacts clock _ d)). reflexivity.
Qed.

(** The types of [schema.js] keep a number that is no [Int] from the
    resolver. *)
Lemma people_refused clock arg_limit arg_offset d :
  Graphql.Int arg_limit = false \/ Graphql.Int arg_offset = false ->
  Graphql.people clock arg_limit arg_offset d = (inl ValidationError, d).
Proof.
  unfold Graphql.people. intros [->| ->]; rewrite ?andb_false_r; reflexivity.
Qed.

(** The bodies the coercion of the types leaves as they are. *)
Lemma coerceTypes_same b :
  coerceTypes b = b
  <-> Body.name b <> null /\ Body.surname b <> null /\ Body.phone b <> null
      /\ Body.email b <> null /\ Body.gender b <> val EmptyString.
Proof.
  destruct b as [n s g bd ph e c]. unfold coerceTypes. cbn. split.
  - intro E. inversion E as [[En Es Eg Eph Ee]].
    destruct n, s, ph, e, g as [| |[|? ?]]; try discriminate;
      repeat split; discriminate.
  - intros [Hn [Hs [Hph [He Hg]]]].
    destruct n, s, ph, e, g as [| |[|? ?]]; try reflexivity; congruence.
Qed.

Lemma contacts_step_checked i b d d2 :
  contacts_step true i b d = inr d2 -> contacts_step false i b d = inr d2.
Proof.
  unfold contacts_step. destruct (present (Body.contacts b)); [|auto].
  destruct (nonempty_array (Body.contacts b)); [|auto].
  simpl. destruct (negb _); [discriminate|auto].
Qed.

(** X2.  Parity of the two surfaces, where it holds.  Fetch-by-id returns the
    same object, and none for the same ids; delete leaves the same storage
    and reports the same ids as missing; the list, on a limit the REST
    schema accepts and an offset both surfaces accept (an [Int] that is
    not negative) and fewer than [2^31] persons, has the same total,
    limit, offset and rows, each item of the resolver carrying the
    contacts besides; and a create or update that the REST surface
    completes is completed by the resolver, given the body as the REST
    validation leaves it, with the same object and the same storage.
    The validation leaves a body as it is unless it has a [null] in
    [name], [surname], [phone] or [email], or an empty [gender]. *)
Theorem surfaces_agree_where_REST_succeeds d :
  (forall clock id,
     match lookup id d with
     | Some r =>
         Rest.GET_person clock id None d
         = (inr (Rest.send 200 (Some (item_etag r))
                   (Some (Rest.toDTO r (contacts_of id d) clock))), d)
         /\ Graphql.person clock id d
            = (inr (Some (Rest.toDTO r (contacts_of id d) clock)), d)
     | None =>
         Rest.GET_person clock id None d = (inl notFound, d)
         /\ Graphql.person clock id d = (inr None, d)
     end)
  /\ (forall id,
        snd (Rest.DELETE_person id d) = snd (Graphql.deletePerson id d)
        /\ match lookup id d with
           | Some _ =>
               fst (Rest.DELETE_person id d) = inr (Rest.send 204 None None)
               /\ fst (Graphql.deletePerson id d) = inr true
           | None =>
               fst (Rest.DELETE_person id d) = inl notFound
               /\ fst (Graphql.deletePerson id d) = inr false
           end)
  /\ (forall clock query_limit query_offset,
        let limit := match query_limit with Some l => l | None => 20 end in
        let offset := match query_offset with Some o => o | None => 0 end in
        1 <= limit <= 100 -> 0 <= offset < 2 ^ 31 ->
        Z.of_nat (List.length (person d)) < 2 ^ 31 ->
        exists etag gql_items,
          Rest.GET_people clock query_limit query_offset None d
          = (inr (Rest.send 200 (Some etag)
                    (Some (Rest.mkPage (Z.of_nat (List.length (person d))) limit offset
                             (map (Rest.item clock) (page_rows limit offset d))))), d)
          /\ Graphql.people clock (arg_of_query query_limit) (arg_of_query query_offset) d
             = (inr (Graphql.mkPage (Z.of_nat (List.length (person d)))
                       (Some limit) (Some offset) gql_items), d)
          /\ map item_of_DTO gql_items = map (Rest.item clock) (page_rows limit offset d))
  /\ (forall g clock b reply d',
        Rest.POST_people g clock b d = (inr reply, d') ->
        exists dto, reply = Rest.send 201 None (Some dto)
                    /\ Graphql.createPerson g clock (coerceTypes b) d = (inr dto, d'))
  /\ (forall g clock id b reply d',
        Rest.PATCH_person g clock id b d = (inr reply, d') ->
        exists dto, reply = Rest.send 200 None (Some dto)
                    /\ Graphql.updatePerson g clock id (coerceTypes b) d = (inr dto, d'))
  /\ (forall b,
        coerceTypes b = b
        <-> Body.name b <> null /\ Body.surname b <> null /\ Body.phone b <> null
            /\ Body.email b <> null /\ Body.gender b <> val EmptyString).
Proof.
  split; [|split; [|split; [|split; [|split]]]].
  - intros clock id. unfold Rest.GET_person.
    rewrite read_handler_run, person_run.
    destruct (lookup id d) as [r|]; [|auto].
    rewrite toDTO_same. auto.
  - intro id. unfold Rest.DELETE_person, Rest.delete_handler, Graphql.deletePerson,
      bind, db_query, delete_person, throw, ret. rewrite lookup_filter.
    destruct (filter (has_id id) (person d)); simpl; auto.
  - intros clock ql qo limit offset Hl Ho Hn.
    pose proof (GET_people_read clock ql qo None d) as Hg. cbv zeta in Hg.
    assert (match qo with Some o => Number o | None => 0 end = offset) as Eo.
    { unfold offset. destruct qo as [o|]; [|reflexivity].
      apply Number_safe. unfold offset in Ho. lia. }
    rewrite Eo in Hg. fold limit in Hg.
    destruct (Z.leb_spec 1 limit); [|lia]. destruct (Z.leb_spec limit 100); [|lia].
    destruct (Z.leb_spec 0 offset); [|lia]. simpl in Hg.
    rewrite (list_handler_run clock (Some limit) (Some offset) None d) in Hg;
      rewrite ?printed_safe; try lia.
    rewrite printed_safe in Hg by lia. simpl in Hg.
    eexists. eexists. split; [exact Hg|]. split.
    + apply people_accepted; fold limit offset; lia.
    + rewrite map_map. reflexivity.
  - intros g clock b reply d'. unfold Rest.POST_people, Rest.validated. cbv zeta.
    destruct (personSchema true (coerceTypes b)); [|discriminate].
    rewrite create_handler_run, createPerson_run.
    destruct (insert_body g (coerceTypes b) d) as [e|[p d1]]; [discriminate|].
    destruct (nonempty_array (Body.contacts (coerceTypes b))) as [ids|].
    + destruct (Nat.eqb _ _); [|discriminate].
      destruct (insert_person_contacts (Row.id p) ids d1) as [e|[[] d2]]; [discriminate|].
      intro H0; inversion H0; subst. eexists. split; [reflexivity|].
      rewrite toDTO_same. reflexivity.
    + intro H0; inversion H0; subst. eexists. split; [reflexivity|].
      rewrite toDTO_same. reflexivity.
  - intros g clock id b reply d' H0. apply PATCH_person_ok in H0.
    destruct H0 as [_ [r [d1 [r' [Hl [Hs [Hc [Hl' Hr]]]]]]]].
    eexists. split; [exact Hr|].
    rewrite updatePerson_run, Hs, contacts_step_coerceTypes,
      (contacts_step_checked id b d1 d' Hc).
    rewrite lookup_filter in Hl'.
    destruct (filter (has_id id) (person d')); [discriminate|].
    inversion Hl'; subst. rewrite toDTO_same. reflexivity.
  - apply coerceTypes_same.
Qed.

(* ================================================================== *)
(** ** The constraints of the schema are kept *)

Lemma consistent_insert_person g n s ge bd ph e d p d1 :
  insert_person g n s ge bd ph e d = inr (p, d1) ->
  consistent d -> consistent d1.
Proof.
  unfold insert_person. intros H Hd.
  destruct n as [n|]; [|discriminate]. destruct s as [s|]; [|discriminate].
  destruct e as [e|]; [|discriminate].
  destruct (gender_check ge) eqn:Eg; [|discriminate]. simpl in H.
  destruct (existsb (has_id _) _) eqn:Ei; [discriminate|].
  destruct (existsb (has_email e) _) eqn:Ee; [discriminate|].
  inversion H; subst; clear H. destruct Hd as [Hk He Hg Hl Hc Hf].
  constructor; simpl.
  - rewrite map_app. apply NoDup_snoc; [exact Hk|].
    simpl. rewrite <- existsb_has_id. congruence.
  - rewrite map_app. apply NoDup_snoc; [exact He|].
    simpl. rewrite <- existsb_has_email. congruence.
  - intros r Hr. apply in_app_or in Hr. destruct Hr as [Hr|[<-|[]]]; auto.
  - exact Hl.
  - exact Hc.
  - intros pc Hpc. rewrite map_app, !in_app_iff. destruct (Hf pc Hpc). auto.
Qed.

Lemma consistent_unlink i d : consistent d -> consistent (unlink i d).
Proof.
  intros [Hk He Hg Hl Hc Hf]. constructor; simpl; auto.
  - apply NoDup_filter, Hl.
  - intros pc Hpc. apply filter_In in Hpc. apply Hc, Hpc.
  - intros pc Hpc. apply filter_In in Hpc. apply Hf, Hpc.
Qed.

Lemma NoDup_pairs (i : uuid) (ids : list uuid) :
  NoDup ids -> NoDup (map (pair i) ids).
Proof.
  induction 1 as [|c ids Hc Hn IH]; simpl; constructor; auto.
  intro H. apply in_map_iff in H. destruct H as [c' [E Hc']].
  inversion E; subst. contradiction.
Qed.

Lemma NoDup_append {A} (l1 l2 : list A) :
  NoDup l1 -> NoDup l2 -> (forall x, In x l2 -> ~ In x l1) -> NoDup (l1 ++ l2).
Proof.
  intros H1 H2 Hdis. induction H1 as [|x l Hx Hl IH]; simpl; [exact H2|].
  constructor.
  - rewrite in_app_iff. intros [H|H]; [contradiction|].
    apply (Hdis x H). left. reflexivity.
  - apply IH. intros y Hy Hin. apply (Hdis y Hy). right. exact Hin.
Qed.

Lemma consistent_insert_person_contacts i ids d u d2 :
  insert_person_contacts i ids d = inr (u, d2) ->
  consistent d -> consistent d2.
Proof.
  unfold insert_person_contacts. intros H Hd.
  destruct (insert_links i ids (person_contacts d)) as [e|t] eqn:El; [discriminate|].
  destruct (forallb _ ids) eqn:Ef; [|discriminate].
  inversion H; subst; clear H.
  apply insert_links_inr in El. destruct El as [-> [Hself [Hn Hfresh]]].
  destruct Hd as [Hk He Hg Hl Hc Hf]. constructor; simpl; auto.
  - apply NoDup_append; [exact Hl|apply NoDup_pairs, Hn|].
    intros pc Hpc. apply in_map_iff in Hpc. destruct Hpc as [c [<- Hc']].
    apply Hfresh, Hc'.
  - intros pc Hpc. apply in_app_or in Hpc. destruct Hpc as [Hpc|Hpc]; [auto|].
    apply in_map_iff in Hpc. destruct Hpc as [c [<- Hc']]. simpl.
    intro E. apply Hself. rewrite E. exact Hc'.
  - intros pc Hpc. apply in_app_or in Hpc. destruct Hpc as [Hpc|Hpc]; [auto|].
    apply in_map_iff in Hpc. destruct Hpc as [c [<- Hc']]. simpl.
    rewrite forallb_forall in Ef. specialize (Ef c Hc').
    apply andb_true_iff in Ef. rewrite !existsb_has_id in Ef. exact Ef.
Qed.

Lemma NoDup_email_replace i new rows :
  Row.id new = i ->
  NoDup (map Row.id rows) -> NoDup (map Row.email rows) ->
  existsb (fun o => negb (has_id i o) && has_email (Row.email new) o) rows = false ->
  NoDup (map Row.email (map (fun o => if has_id i o then new else o) rows)).
Proof.
  intros Hnew. induction rows as [|o rows IH]; simpl; intros Hk He Hex; [constructor|].
  inversion Hk as [|? ? Hko Hk']; subst. inversion He as [|? ? Heo He']; subst.
  apply orb_false_iff in Hex. destruct Hex as [Ho Hex].
  assert (forall x, In x (map (fun o0 => if has_id (Row.id new) o0 then new else o0) rows) ->
                    (x = new \/ In x rows)) as Hcases.
  { intros x Hx. apply in_map_iff in Hx. destruct Hx as [y [<- Hy]].
    destruct (has_id (Row.id new) y); auto. }
  destruct (has_id (Row.id new) o) eqn:Eo.
  - (* [o] is the updated row: no other row carries its id *)
    assert (map (fun o0 => if has_id (Row.id new) o0 then new else o0) rows = rows) as ->.
    { apply has_id_true in Eo. clear - Hko Eo.
      induction rows as [|y rows IH]; simpl; [reflexivity|].
      destruct (has_id (Row.id new) y) eqn:Ey.
      - apply has_id_true in Ey. exfalso. apply Hko. left. congruence.
      - rewrite IH; [reflexivity|]. intro H. apply Hko. right. exact H. }
    constructor; [|exact He'].
    intro Hin. apply in_map_iff in Hin. destruct Hin as [y [Ey Hy]].
    assert (existsb (fun o0 => negb (has_id (Row.id new) o0)
                               && has_email (Row.email new) o0) rows = true) as Hc;
      [|congruence].
    apply existsb_exists. exists y. split; [exact Hy|].
    apply andb_true_iff. split; [|apply String.eqb_eq, Ey].
    apply negb_true_iff. destruct (has_id (Row.id new) y) eqn:E; [|reflexivity].
    apply has_id_true in E, Eo. exfalso. apply Hko.
    apply in_map_iff. exists y. split; [congruence|exact Hy].
  - constructor; [|apply IH; assumption].
    intro Hin. apply in_map_iff in Hin. destruct Hin as [x [Ex Hx]].
    destruct (Hcases x Hx) as [->|Hxr].
    + simpl in Ho. unfold has_email in Ho. rewrite Ex, String.eqb_refl in Ho.
      discriminate.
    + apply Heo. apply in_map_iff. exists x. auto.
Qed.

Lemma assign_all_id sets r r' : assign_all sets r = inr r' -> Row.id r' = Row.id r.
Proof.
  apply (assign_all_fixed Row.id).
  intros a x x' H; destruct x; destruct a as [[?|]|[?|]|?|?|?|[?|]];
    simpl in *; try discriminate; inversion H; reflexivity.
Qed.

Lemma consistent_update_person g sets i d n d1 :
  update_person g sets i d = inr (n, d1) ->
  consistent d -> consistent d1.
Proof.
  unfold update_person. intros H Hd.
  destruct (filter (has_id i) (person d)) as [|r rest] eqn:Ef.
  { inversion H; subst. exact Hd. }
  destruct (assign_all sets r) as [e|r1] eqn:Ea; [discriminate|].
  set (new := set_updated_at g (with_updated_at (now g) r1)) in *.
  destruct (gender_check (Row.gender new)) eqn:Eg; [|discriminate]. simpl in H.
  destruct (existsb _ _) eqn:Ee; [discriminate|].
  inversion H; subst; clear H.
  assert (Row.id new = i) as Hnew.
  { unfold new, set_updated_at.
    rewrite !(proj1 (with_updated_at_fields _ _)), (assign_all_id _ _ _ Ea).
    apply (lookup_Some i d). rewrite lookup_filter, Ef. reflexivity. }
  destruct Hd as [Hk He Hg Hl Hc Hf]. constructor; simpl; auto.
  - rewrite map_id_replace; assumption.
  - apply NoDup_email_replace; assumption.
  - intros x Hx. apply in_map_iff in Hx. destruct Hx as [y [<- Hy]].
    destruct (has_id i y); auto.
  - intros pc Hpc. rewrite map_id_replace by assumption. auto.
Qed.

Lemma filter_all {A} (p : A -> bool) l : existsb (fun x => negb (p x)) l = false -> filter p l = l.
Proof.
  induction l as [|x l IH]; simpl; [reflexivity|].
  intro H. apply orb_false_iff in H. destruct H as [Hx Hl].
  apply negb_false_iff in Hx. rewrite Hx, IH; auto.
Qed.

Lemma consistent_delete_person i d n d1 :
  delete_person i d = inr (n, d1) ->
  consistent d -> consistent d1.
Proof.
  unfold delete_person. intros H Hd. inversion H; subst; clear H.
  destruct Hd as [Hk He Hg Hl Hc Hf].
  assert (forall c, c <> i -> In c (map Row.id (person d)) ->
                    In c (map Row.id (filter (fun r => negb (has_id i r)) (person d))))
    as Hkeep.
  { intros c Hci Hin. apply in_map_iff in Hin. destruct Hin as [r [E Hr]].
    apply in_map_iff. exists r. split; [exact E|]. apply filter_In. split; [exact Hr|].
    apply negb_true_iff. destruct (has_id i r) eqn:Ei; [|reflexivity].
    apply has_id_true in Ei. congruence. }
  constructor; simpl.
  - apply NoDup_map_filter, Hk.
  - apply NoDup_map_filter, He.
  - intros r Hr. apply filter_In in Hr. apply Hg, Hr.
  - destruct (existsb (has_id i) (person d)); [apply NoDup_filter|]; exact Hl.
  - intros pc Hpc. apply Hc.
    destruct (existsb (has_id i) (person d)); [apply filter_In in Hpc|]; tauto.
  - intros pc Hpc. destruct (existsb (has_id i) (person d)) eqn:Ei.
    + apply filter_In in Hpc. destruct Hpc as [Hpc Hne].
      apply andb_true_iff in Hne. destruct Hne as [H1 H2].
      apply negb_true_iff, N.eqb_neq in H1. apply negb_true_iff, N.eqb_neq in H2.
      destruct (Hf pc Hpc). split; apply Hkeep; assumption.
    + assert (filter (fun r => negb (has_id i r)) (person d) = person d) as ->.
      { apply filter_all. rewrite <- Ei. clear.
        induction (person d) as [|r l IH]; simpl; [reflexivity|].
        rewrite negb_involutive, IH. reflexivity. }
      apply Hf, Hpc.
Qed.

Lemma consistent_scalar_step g i b d d1 :
  scalar_step g i b d = inr d1 -> consistent d -> consistent d1.
Proof.
  unfold scalar_step. destruct (updates b) as [|a sets].
  - intro H; inversion H; subst; auto.
  - destruct (update_person g (a :: sets) i d) as [e|[n d']] eqn:E; [discriminate|].
    intro H; inversion H; subst. eapply consistent_update_person; eauto.
Qed.

Lemma consistent_contacts_step checked i b d d2 :
  contacts_step checked i b d = inr d2 -> consistent d -> consistent d2.
Proof.
  unfold contacts_step. destruct (present (Body.contacts b)).
  - destruct (nonempty_array (Body.contacts b)) as [ids|].
    + destruct (checked && _); [discriminate|].
      destruct (insert_person_contacts i ids (unlink i d)) as [e|[u d']] eqn:E;
        [discriminate|].
      intro H; inversion H; subst. intro Hd.
      eapply consistent_insert_person_contacts; [exact E|apply consistent_unlink, Hd].
    + intro H; inversion H; subst. apply consistent_unlink.
  - intro H; inversion H; subst; auto.
Qed.

(** X3.  Every operation of either surface, whether it succeeds or fails, takes
    a storage state that satisfies the constraints of the schema to one
    that satisfies them; the reads leave storage as it is. *)
Theorem operations_keep_schema_constraints d :
  consistent d ->
  (forall g clock b, consistent (snd (Rest.POST_people g clock b d)))
  /\ (forall g clock id b, consistent (snd (Rest.PATCH_person g clock id b d)))
  /\ (forall id, consistent (snd (Rest.DELETE_person id d)))
  /\ (forall g clock input, consistent (snd (Graphql.createPerson g clock input d)))
  /\ (forall g clock id input, consistent (snd (Graphql.updatePerson g clock id input d)))
  /\ (forall id, consistent (snd (Graphql.deletePerson id d)))
  /\ (forall clock id h, snd (Rest.GET_person clock id h d) = d)
  /\ (forall clock id, snd (Graphql.person clock id d) = d).
Proof.
  intro Hd. repeat match goal with |- _ /\ _ => split end.
  - intros g clock b. unfold Rest.POST_people, Rest.validated. cbv zeta.
    generalize (coerceTypes b). clear b. intro b.
    destruct (personSchema true b); [|exact Hd].
    rewrite create_handler_run. unfold insert_body.
    destruct (insert_person _ _ _ _ _ _ _ d) as [e|[p d1]] eqn:Ei; [exact Hd|].
    pose proof (consistent_insert_person _ _ _ _ _ _ _ _ _ _ Ei Hd) as Hd1.
    destruct (nonempty_array (Body.contacts b)) as [ids|]; [|exact Hd1].
    destruct (Nat.eqb _ _); [|exact Hd].
    destruct (insert_person_contacts (Row.id p) ids d1) as [e|[u d2]] eqn:El; [exact Hd|].
    simpl. eapply consistent_insert_person_contacts; eauto.
  - intros g clock id b. unfold Rest.PATCH_person, Rest.validated. cbv zeta.
    generalize (coerceTypes b). clear b. intro b.
    destruct (personSchema false b); [|exact Hd].
    rewrite update_handler_run.
    destruct (filter (has_id id) (person d)); [exact Hd|].
    destruct (scalar_step g id b d) as [e|d1] eqn:Es; [exact Hd|].
    pose proof (consistent_scalar_step _ _ _ _ _ Es Hd) as Hd1.
    destruct (contacts_step true id b d1) as [x|d2] eqn:Ec; [exact Hd|].
    pose proof (consistent_contacts_step _ _ _ _ _ Ec Hd1) as Hd2.
    destruct (filter (has_id id) (person d2)); exact Hd2.
  - intro id. unfold Rest.DELETE_person, Rest.delete_handler, bind, db_query.
    destruct (delete_person id d) as [e|[n d1]] eqn:E; [exact Hd|].
    pose proof (consistent_delete_person _ _ _ _ E Hd). destruct n; assumption.
  - intros g clock input. rewrite createPerson_run. unfold insert_body.
    destruct (insert_person _ _ _ _ _ _ _ d) as [e|[p d1]] eqn:Ei; [exact Hd|].
    pose proof (consistent_insert_person _ _ _ _ _ _ _ _ _ _ Ei Hd) as Hd1.
    destruct (nonempty_array (Body.contacts input)) as [ids|]; [|exact Hd1].
    destruct (insert_person_contacts (Row.id p) ids d1) as [e|[u d2]] eqn:El; [exact Hd1|].
    simpl. eapply consistent_insert_person_contacts; eauto.
  - intros g clock id input. rewrite updatePerson_run.
    destruct (scalar_step g id input d) as [e|d1] eqn:Es; [exact Hd|].
    pose proof (consistent_scalar_step _ _ _ _ _ Es Hd) as Hd1.
    destruct (contacts_step false id input d1) as [x|d2] eqn:Ec.
    + apply consistent_unlink, Hd1.
    + pose proof (consistent_contacts_step _ _ _ _ _ Ec Hd1) as Hd2.
      destruct (filter (has_id id) (person d2)); exact Hd2.
  - intro id. unfold Graphql.deletePerson, bind, db_query.
    destruct (delete_person id d) as [e|[n d1]] eqn:E; [exact Hd|].
    exact (consistent_delete_person _ _ _ _ E Hd).
  - intros clock id h. unfold Rest.GET_person. rewrite read_handler_run.
    destruct (lookup id d); reflexivity.
  - intros clock id. rewrite person_run. reflexivity.
Qed.

(* ================================================================== *)
(** ** Failing REST mutations change nothing *)

Lemma db_eta d : mkDb (person d) (person_contacts d) = d.
Proof. destruct d. reflexivity. Qed.

Lemma steps_keep_ids g checked i b d d1 d2 :
  scalar_step g i b d = inr d1 ->
  contacts_step checked i b d1 = inr d2 ->
  map Row.id (person d2) = map Row.id (person d).
Proof.
  intros Hs Hc. destruct (scalar_step_inr g i b d d1 Hs) as [_ [Hids _]].
  destruct (contacts_step_person checked i b d1 d2 Hc) as [Hp _].
  rewrite Hp. exact Hids.
Qed.

(** X4.  A [POST /people], [PATCH /people/:id] or [DELETE /people/:id] that
    fails, with whatever error, leaves storage exactly as it was. *)
Theorem REST_failure_changes_nothing g clock id b d e d' :
  Rest.POST_people g clock b d = (inl e, d')
  \/ Rest.PATCH_person g clock id b d = (inl e, d')
  \/ Rest.DELETE_person id d = (inl e, d') ->
  d' = d.
Proof.
  intros [H|[H|H]].
  - unfold Rest.POST_people, Rest.validated in H. cbv zeta in H.
    revert H. generalize (coerceTypes b). clear b. intros b H.
    destruct (personSchema true b); [|inversion H; reflexivity].
    rewrite create_handler_run in H.
    destruct (insert_body g b d) as [x|[p d1]]; [inversion H; reflexivity|].
    destruct (nonempty_array (Body.contacts b)) as [ids|]; [|discriminate].
    destruct (Nat.eqb _ _); [|inversion H; reflexivity].
    destruct (insert_person_contacts (Row.id p) ids d1) as [x|[u d2]];
      [inversion H; reflexivity|discriminate].
  - unfold Rest.PATCH_person, Rest.validated in H. cbv zeta in H.
    revert H. generalize (coerceTypes b). clear b. intros b H.
    destruct (personSchema false b); [|inversion H; reflexivity].
    rewrite update_handler_run in H.
    destruct (filter (has_id id) (person d)) as [|r rest] eqn:Ef;
      [inversion H; reflexivity|].
    destruct (scalar_step g id b d) as [x|d1] eqn:Es; [inversion H; reflexivity|].
    destruct (contacts_step true id b d1) as [x|d2] eqn:Ec; [inversion H; reflexivity|].
    destruct (filter (has_id id) (person d2)) as [|r2 rest2] eqn:Ef2; [|discriminate].
    exfalso.
    assert (In id (map Row.id (person d))) as Hin.
    { apply lookup_exists. exists r. rewrite lookup_filter, Ef. reflexivity. }
    rewrite <- (steps_keep_ids g true id b d d1 d2 Es Ec) in Hin.
    apply lookup_exists in Hin. destruct Hin as [x Hx].
    rewrite lookup_filter, Ef2 in Hx. discriminate.
  - unfold Rest.DELETE_person, Rest.delete_handler, bind, db_query, delete_person,
      throw, ret in H.
    destruct (filter (has_id id) (person d)) as [|r rest] eqn:Ef; simpl in H;
      [|discriminate].
    inversion H; subst; clear H.
    assert (existsb (has_id id) (person d) = false) as Hex.
    { destruct (existsb (has_id id) (person d)) eqn:E; [|reflexivity].
      apply existsb_exists in E. destruct E as [x [Hx Hid]].
      assert (In x (filter (has_id id) (person d))) as Hf by (apply filter_In; auto).
      rewrite Ef in Hf. contradiction. }
    rewrite Hex, filter_all; [apply db_eta|].
    rewrite <- Hex. clear.
    induction (person d) as [|r l IH]; simpl; [reflexivity|].
    rewrite negb_involutive, IH. reflexivity.
Qed.

(* ================================================================== *)
(** ** When a create goes through, and what it leaves *)






(* ================================================================== *)
(** ** When a partial update goes through, and what it leaves *)

Lemma NoDup_map_inj_In {A B} (f : A -> B) l x y :
  NoDup (map f l) -> In x l -> In y l -> f x = f y -> x = y.
Proof.
  induction l as [|z l IH]; simpl; intros Hn Hx Hy E; [contradiction|].
  inversion Hn as [|? ? Hz Hl]; subst.
  destruct Hx as [->|Hx], Hy as [->|Hy]; auto.
  - exfalso. apply Hz. rewrite E. apply in_map, Hy.
  - exfalso. apply Hz. rewrite <- E. apply in_map, Hx.
Qed.









(* ================================================================== *)
(** ** Contact resolution *)

Lemma contacts_of_In i d x :
  In x (contacts_of i d) <->
  exists c, In c (person d) /\ In (i, Row.id c) (person_contacts d)
            /\ x = contact_of_row c.
Proof.
  unfold contacts_of.
  rewrite <- (Permutation_in' (eq_refl x) (order_by_perm Contact.email _)).
  rewrite in_flat_map. split.
  - intros [pc [Hpc Hx]]. destruct (N.eqb_spec (fst pc) i) as [Hi|]; [|contradiction].
    apply in_map_iff in Hx. destruct Hx as [c [<- Hc]].
    apply filter_In in Hc. destruct Hc as [Hc Hid]. apply has_id_true in Hid.
    exists c. split; [exact Hc|]. split; [|reflexivity].
    destruct pc as [a b']. simpl in *. subst. exact Hpc.
  - intros [c [Hc [Hl ->]]]. exists (i, Row.id c). split; [exact Hl|].
    simpl. rewrite N.eqb_refl. apply in_map, filter_In. split; [exact Hc|].
    apply has_id_true. reflexivity.
Qed.

Lemma filter_has_id_one c rows :
  NoDup (map Row.id rows) -> In c (map Row.id rows) ->
  List.length (filter (has_id c) rows) = 1%nat.
Proof.
  induction rows as [|r rows IH]; simpl; intros Hk Hin; [contradiction|].
  inversion Hk as [|? ? Hr Hk']; subst.
  destruct (has_id c r) eqn:E.
  - apply has_id_true in E. simpl. f_equal.
    destruct (filter (has_id c) rows) as [|y l] eqn:Ef; [reflexivity|]. exfalso.
    assert (In y (filter (has_id c) rows)) as Hy by (rewrite Ef; left; reflexivity).
    apply filter_In in Hy. destruct Hy as [Hy Hyc]. apply has_id_true in Hyc.
    apply Hr. rewrite E, <- Hyc. apply in_map, Hy.
  - destruct Hin as [Hin|Hin]; [|apply IH; assumption].
    unfold has_id in E. rewrite Hin, N.eqb_refl in E. discriminate.
Qed.

Lemma contacts_of_length i d :
  consistent d ->
  List.length (contacts_of i d)
  = List.length (filter (fun pc => N.eqb (fst pc) i) (person_contacts d)).
Proof.
  intros Hd. unfold contacts_of.
  rewrite <- (Permutation_length (order_by_perm Contact.email _)).
  pose proof (person_contacts_fkey d Hd) as Hf. pose proof (person_pkey d Hd) as Hk.
  induction (person_contacts d) as [|pc t IH]; simpl; [reflexivity|].
  rewrite length_app, IH by (intros x Hx; apply Hf; right; exact Hx).
  unfold link, uuid in *.
  destruct (N.eqb (fst pc) i); cbn [List.length]; [|reflexivity].
  rewrite length_map, filter_has_id_one; [reflexivity|exact Hk|].
  apply (Hf pc). left. reflexivity.
Qed.

Lemma contacts_of_sorted i d :
  consistent d ->
  StronglySorted email_lt (map Contact.email (contacts_of i d)).
Proof.
  intros Hd. unfold contacts_of. apply order_by_strict.
  pose proof (person_contacts_pkey d Hd) as Hl.
  pose proof (person_email_key d Hd) as He.
  induction (person_contacts d) as [|pc t IH]; simpl; [constructor|].
  inversion Hl as [|? ? Hpc Ht]; subst.
  rewrite map_app. unfold link, uuid in *. apply NoDup_append.
  - destruct (N.eqb (fst pc) i); [|constructor].
    rewrite map_map. apply (NoDup_map_filter Row.email), He.
  - apply IH, Ht.
  - intros e Hin1 Hin2.
    destruct (N.eqb_spec (fst pc) i) as [Hi|]; [|contradiction].
    rewrite map_map in Hin2. apply in_map_iff in Hin2. destruct Hin2 as [r [Er Hr]].
    apply filter_In in Hr. destruct Hr as [Hr Hrid]. apply has_id_true in Hrid.
    apply in_map_iff in Hin1. destruct Hin1 as [x [Ex Hx]].
    apply in_flat_map in Hx. destruct Hx as [pc' [Hpc' Hx]].
    destruct (N.eqb_spec (fst pc') i) as [Hi'|]; [|contradiction].
    apply in_map_iff in Hx. destruct Hx as [r' [<- Hr']].
    apply filter_In in Hr'. destruct Hr' as [Hr' Hrid']. apply has_id_true in Hrid'.
    assert (r' = r) as ->.
    { apply (NoDup_map_inj_In Row.email (person d)); auto. simpl in *. congruence. }
    apply Hpc. destruct pc, pc'. simpl in *. subst. congruence.
Qed.

Lemma toDTO_contacts r contacts clock :
  DTO.contacts (Rest.toDTO r contacts clock) = contacts.
Proof. rewrite toDTO_same. reflexivity. Qed.

(** X7.  On a storage state that satisfies the schema, the [contacts] of
    a fetched person, through either surface, are the summaries of exactly
    the persons the person has a link to, as those persons are stored
    now, one per link, in strictly ascending order of email. *)
Theorem contacts_are_resolved_and_sorted clock i d r :
  consistent d ->
  lookup i d = Some r ->
  exists dto,
    Rest.GET_person clock i None d
    = (inr (Rest.send 200 (Some (item_etag r)) (Some dto)), d)
    /\ Graphql.person clock i d = (inr (Some dto), d)
    /\ StronglySorted email_lt (map Contact.email (DTO.contacts dto))
    /\ (forall x, In x (DTO.contacts dto) <->
                  exists c, In c (person d) /\ In (i, Row.id c) (person_contacts d)
                            /\ x = contact_of_row c)
    /\ List.length (DTO.contacts dto)
       = List.length (filter (fun pc => N.eqb (fst pc) i) (person_contacts d)).
Proof.
  intros Hd Hl. exists (Rest.toDTO r (contacts_of i d) clock).
  unfold Rest.GET_person. rewrite read_handler_run, person_run, Hl, toDTO_contacts.
  split; [reflexivity|]. split; [rewrite toDTO_same; reflexivity|].
  split; [apply contacts_of_sorted, Hd|].
  split; [intro x; apply contacts_of_In|apply contacts_of_length, Hd].
Qed.

(* ================================================================== *)
(** ** Live contacts *)

Lemma filter_other_replace a i new rows :
  a <> i -> Row.id new = i ->
  filter (has_id a) (map (fun o => if has_id i o then new else o) rows)
  = filter (has_id a) rows.
Proof.
  intros Hai Hnew. induction rows as [|o rows IH]; simpl; [reflexivity|].
  rewrite IH. destruct (has_id i o) eqn:Ei; [|reflexivity].
  assert (has_id a new = false) as ->.
  { destruct (has_id a new) eqn:E; [|reflexivity]. apply has_id_true in E. congruence. }
  assert (has_id a o = false) as ->; [|reflexivity].
  destruct (has_id a o) eqn:E; [|reflexivity].
  apply has_id_true in E, Ei. congruence.
Qed.

(** A partial update of one person leaves the row of any other as it is. *)
Lemma scalar_step_other g i b d d1 a :
  scalar_step g i b d = inr d1 -> a <> i -> lookup a d1 = lookup a d.
Proof.
  intros Hs Hai. destruct (scalar_step_inr g i b d d1 Hs) as [_ [_ [Hsame Hnew]]].
  destruct (updates b) as [|x sets] eqn:Eu.
  { rewrite Hsame; auto. }
  destruct (lookup i d) as [r|] eqn:El.
  - destruct (Hnew r ltac:(discriminate) eq_refl) as [_ [_ [_ Hp]]].
    rewrite !lookup_filter, Hp, filter_other_replace; auto.
    rewrite (proj1 (with_updated_at_fields _ _)). unfold patched. cbn [Row.id].
    apply (lookup_Some i d r El).
  - rewrite Hsame; auto.
Qed.

(** Replacing the contact set of one person leaves the links of any other
    as they are. *)
Lemma contacts_step_other checked i b d d2 pc :
  contacts_step checked i b d = inr d2 -> fst pc <> i ->
  (In pc (person_contacts d2) <-> In pc (person_contacts d)).
Proof.
  intros Hc Hpc.
  assert (In pc (person_contacts (unlink i d)) <-> In pc (person_contacts d)) as Hun.
  { unfold unlink. simpl. rewrite filter_In. split; [tauto|]. intro H. split; [exact H|].
    apply negb_true_iff, N.eqb_neq, Hpc. }
  destruct (Body.contacts b) as [| |ids] eqn:E.
  - destruct (contacts_step_person checked i b d d2 Hc) as [_ Habs].
    rewrite (Habs E). tauto.
  - unfold contacts_step in Hc. rewrite E in Hc. simpl in Hc. inversion Hc; subst.
    exact Hun.
  - destruct (contacts_step_inr checked i b d d2 ids E Hc) as [-> _].
    unfold replaced. cbn [person_contacts]. rewrite in_app_iff, Hun. split; [|tauto].
    intros [H|H]; [exact H|]. apply in_map_iff in H. destruct H as [c [<- _]].
    simpl in Hpc. contradiction.
Qed.

(** X8.  When person [a] lists person [b] and [b] is then updated through
    [PATCH /people/:id], a later fetch of [a] shows [b] as stored after
    the update, and no other entry for [b]; the row of [a] is not
    written, so the fingerprint of [a] is the one issued before. *)
Theorem contact_changes_are_live g clock clock' a b body d reply d' ra :
  consistent d ->
  a <> b ->
  lookup a d = Some ra ->
  In (a, b) (person_contacts d) ->
  Rest.PATCH_person g clock b body d = (inr reply, d') ->
  exists rb' dto,
    lookup b d' = Some rb'
    /\ reply = Rest.send 200 None (Some (Rest.toDTO rb' (contacts_of b d') clock))
    /\ Rest.GET_person clock' a None d'
       = (inr (Rest.send 200 (Some (item_etag ra)) (Some dto)), d')
    /\ In (contact_of_row rb') (DTO.contacts dto)
    /\ (forall x, In x (DTO.contacts dto) -> Contact.id x = b -> x = contact_of_row rb').
Proof.
  intros Hd Hab Hla Hlink H. apply PATCH_person_ok in H.
  destruct H as [_ [rb [d1 [rb' [Hlb [Hs [Hc [Hlb' Hr]]]]]]]].
  pose proof (consistent_contacts_step _ _ _ _ _ Hc
                (consistent_scalar_step _ _ _ _ _ Hs Hd)) as Hd'.
  destruct (contacts_step_person true b body d1 d' Hc) as [Hp _].
  assert (lookup a d' = Some ra) as Hla'.
  { rewrite (lookup_same_person a d1 d' Hp), (scalar_step_other g b (coerceTypes body) d d1 a Hs Hab).
    exact Hla. }
  assert (In (a, b) (person_contacts d')) as Hlink'.
  { apply (contacts_step_other true b body d1 d' (a, b) Hc Hab).
    rewrite (proj1 (scalar_step_inr g b (coerceTypes body) d d1 Hs)). exact Hlink. }
  destruct (lookup_Some b d' rb' Hlb') as [Hid Hin].
  exists rb', (Rest.toDTO ra (contacts_of a d') clock').
  split; [exact Hlb'|]. split; [exact Hr|]. split.
  { unfold Rest.GET_person. rewrite read_handler_run, Hla'. reflexivity. }
  rewrite toDTO_contacts. split.
  - apply contacts_of_In. exists rb'. rewrite Hid. auto.
  - intros x Hx Hxb. apply contacts_of_In in Hx. destruct Hx as [c [Hc' [_ ->]]].
    f_equal. apply (NoDup_map_inj_In Row.id (person d')); auto.
    + apply (person_pkey d' Hd').
    + simpl in Hxb. congruence.
Qed.

(* ================================================================== *)
(** ** Delete and its cascade *)

Lemma existsb_lookup i d : existsb (has_id i) (person d) = true <-> lookup i d <> None.
Proof.
  rewrite existsb_has_id, lookup_exists. split.
  - intros [r Hr]. congruence.
  - destruct (lookup i d) as [r|]; [eauto|congruence].
Qed.

Lemma delete_person_missing i d :
  lookup i d = None -> delete_person i d = inr (0%nat, d).
Proof.
  intro Hl. unfold delete_person.
  assert (existsb (has_id i) (person d) = false) as Hex.
  { destruct (existsb (has_id i) (person d)) eqn:E; [|reflexivity].
    apply existsb_lookup in E. contradiction. }
  rewrite lookup_filter in Hl.
  destruct (filter (has_id i) (person d)) eqn:Ef; [|discriminate].
  rewrite Hex, filter_all; [rewrite db_eta; reflexivity|].
  rewrite <- Hex. clear.
  induction (person d) as [|r l IH]; simpl; [reflexivity|].
  rewrite negb_involutive, IH. reflexivity.
Qed.

Lemma filter_other_delete a i rows :
  a <> i ->
  filter (has_id a) (filter (fun r => negb (has_id i r)) rows) = filter (has_id a) rows.
Proof.
  intro Hai. induction rows as [|o rows IH]; simpl; [reflexivity|].
  destruct (has_id i o) eqn:Ei; simpl; rewrite IH; [|reflexivity].
  assert (has_id a o = false) as ->; [|reflexivity].
  destruct (has_id a o) eqn:E; [|reflexivity].
  apply has_id_true in E, Ei. congruence.
Qed.

(** X9.  Deleting an existing person, through either surface, removes its
    row and every link that has it at either end, and nothing else: any
    other person is stored as before, and the contacts of any other person
    are the ones it had, less the deleted person.  Afterwards a fetch of
    the deleted id is answered not-found, and a second delete is answered
    not-found (REST) or false (GraphQL). *)
Theorem delete_cascades clock b d rb :
  lookup b d = Some rb ->
  exists d',
    Rest.DELETE_person b d = (inr (Rest.send 204 None None), d')
    /\ Graphql.deletePerson b d = (inr true, d')
    /\ (forall r, In r (person d') <-> In r (person d) /\ Row.id r <> b)
    /\ (forall pc, In pc (person_contacts d') <->
                   In pc (person_contacts d) /\ fst pc <> b /\ snd pc <> b)
    /\ (forall a, a <> b -> lookup a d' = lookup a d)
    /\ (forall a x, a <> b ->
          (In x (contacts_of a d') <-> In x (contacts_of a d) /\ Contact.id x <> b))
    /\ Rest.GET_person clock b None d' = (inl notFound, d')
    /\ Rest.DELETE_person b d' = (inl notFound, d')
    /\ Graphql.deletePerson b d' = (inr false, d').
Proof.
  intros Hl.
  set (d' := mkDb (filter (fun r => negb (has_id b r)) (person d))
                  (filter (fun pc => negb (N.eqb (fst pc) b) && negb (N.eqb (snd pc) b))
                          (person_contacts d))).
  assert (delete_person b d = inr (S (List.length (tl (filter (has_id b) (person d)))), d'))
    as Hdel.
  { unfold delete_person.
    assert (existsb (has_id b) (person d) = true) as ->
      by (apply existsb_lookup; congruence).
    rewrite lookup_filter in Hl.
    destruct (filter (has_id b) (person d)); [discriminate|reflexivity]. }
  assert (forall r, In r (person d') <-> In r (person d) /\ Row.id r <> b) as Hrows.
  { intro r. unfold d'. simpl. rewrite filter_In, negb_true_iff.
    split; intros [H1 H2]; split; auto.
    - intro E. apply has_id_true in E. congruence.
    - destruct (has_id b r) eqn:E; [|reflexivity]. apply has_id_true in E. contradiction. }
  assert (forall pc, In pc (person_contacts d') <->
                     In pc (person_contacts d) /\ fst pc <> b /\ snd pc <> b) as Hlinks.
  { intro pc. unfold d'. simpl.
    rewrite filter_In, andb_true_iff, !negb_true_iff, !N.eqb_neq. tauto. }
  assert (lookup b d' = None) as Hgone.
  { destruct (lookup b d') as [r|] eqn:E; [|reflexivity].
    apply lookup_Some in E. destruct E as [Hid Hin]. apply Hrows in Hin. tauto. }
  exists d'. split.
  { unfold Rest.DELETE_person, Rest.delete_handler, bind, db_query. rewrite Hdel.
    reflexivity. }
  split.
  { unfold Graphql.deletePerson, bind, db_query. rewrite Hdel. reflexivity. }
  split; [exact Hrows|]. split; [exact Hlinks|]. split.
  { intros a Ha. rewrite !lookup_filter. unfold d'. simpl.
    rewrite filter_other_delete; auto. }
  split.
  { intros a x Ha. rewrite !contacts_of_In. split.
    - intros [c [Hc [Hpc ->]]]. apply Hrows in Hc. apply Hlinks in Hpc. simpl.
      split; [exists c|]; tauto.
    - intros [[c [Hc [Hpc ->]]] Hx]. simpl in Hx. exists c.
      split; [apply Hrows; auto|]. split; [|reflexivity].
      apply Hlinks. simpl. auto. }
  split.
  { unfold Rest.GET_person. rewrite read_handler_run, Hgone. reflexivity. }
  split.
  - unfold Rest.DELETE_person, Rest.delete_handler, bind, db_query.
    rewrite (delete_person_missing b d' Hgone). reflexivity.
  - unfold Graphql.deletePerson, bind, db_query.
    rewrite (delete_person_missing b d' Hgone). reflexivity.
Qed.

(* ================================================================== *)
(** ** Walking the pages *)

Lemma firstn_then_firstn {A} a b (l : list A) :
  (firstn a l ++ firstn b (skipn a l))%list = firstn (a + b) l.
Proof.
  revert l. induction a as [|a IH]; intro l; simpl; [reflexivity|].
  destruct l as [|x l]; simpl; [rewrite firstn_nil; reflexivity|].
  rewrite IH. reflexivity.
Qed.

Lemma page_rows_adjacent l1 l2 o d :
  0 <= l1 -> 0 <= l2 -> 0 <= o ->
  (page_rows l1 o d ++ page_rows l2 (o + l1) d)%list = page_rows (l1 + l2) o d.
Proof.
  intros H1 H2 Ho. unfold page_rows.
  rewrite (Z2Nat.inj_add o l1), (Z2Nat.inj_add l1 l2) by lia.
  rewrite (Nat.add_comm (Z.to_nat o)), <- skipn_skipn.
  apply firstn_then_firstn.
Qed.

(** X10.  Two adjacent pages of [GET /people] on the same storage, of
    fewer than [2^31] persons and at offsets up to [2^53], make up the
    page that spans both: no row is skipped or repeated across the
    boundary.  A page holds [limit] rows or, at the end of the table, the
    rows that are left, none from [total] on; and a first page as long as
    the table holds every person exactly once. *)
Theorem pages_partition clock d l1 l2 o :
  1 <= l1 -> 1 <= l2 -> l1 + l2 <= 100 -> 0 <= o -> o + l1 <= 2 ^ 53 ->
  Z.of_nat (List.length (person d)) < 2 ^ 31 ->
  exists e1 e2 e3 items1 items2,
    let total := Z.of_nat (List.length (person d)) in
    Rest.GET_people clock (Some l1) (Some o) None d
    = (inr (Rest.send 200 (Some e1) (Some (Rest.mkPage total l1 o items1))), d)
    /\ Rest.GET_people clock (Some l2) (Some (o + l1)) None d
       = (inr (Rest.send 200 (Some e2) (Some (Rest.mkPage total l2 (o + l1) items2))), d)
    /\ Rest.GET_people clock (Some (l1 + l2)) (Some o) None d
       = (inr (Rest.send 200 (Some e3)
                 (Some (Rest.mkPage total (l1 + l2) o (items1 ++ items2)))), d)
    /\ Z.of_nat (List.length items1) = Z.min l1 (Z.max 0 (total - o))
    /\ (o = 0 -> total <= l1 ->
        Permutation (map Item.id items1) (map Row.id (person d))).
Proof.
  intros H1 H2 H12 Ho Hs Hn.
  pose proof (GET_people_safe clock (Some l1) (Some o) None d) as E1.
  pose proof (GET_people_safe clock (Some l2) (Some (o + l1)) None d) as E2.
  pose proof (GET_people_safe clock (Some (l1 + l2)) (Some o) None d) as E3.
  cbv zeta in E1, E2, E3. cbn [header_is] in E1, E2, E3.
  specialize (E1 ltac:(lia) ltac:(lia) Hn).
  specialize (E2 ltac:(lia) ltac:(lia) Hn).
  specialize (E3 ltac:(lia) ltac:(lia) Hn).
  exists (page_etag l1 o d), (page_etag l2 (o + l1) d), (page_etag (l1 + l2) o d),
    (map (Rest.item clock) (page_rows l1 o d)),
    (map (Rest.item clock) (page_rows l2 (o + l1) d)).
  cbv zeta. split; [exact E1|]. split; [exact E2|]. split.
  { rewrite <- map_app, page_rows_adjacent by lia. exact E3. }
  split.
  - rewrite length_map. unfold page_rows.
    rewrite length_firstn, length_skipn.
    rewrite <- (Permutation_length (order_by_perm Row.email (person d))). lia.
  - intros -> Ht. rewrite map_map. unfold page_rows. simpl.
    rewrite firstn_all2.
    + change (fun x => Item.id (Rest.item clock x)) with Row.id.
      apply Permutation_map, Permutation_sym, order_by_perm.
    + rewrite <- (Permutation_length (order_by_perm Row.email (person d))). lia.
Qed.

(* ================================================================== *)
(** ** The text of the fingerprints *)

Lemma append_inj_l s a b : (s ++ a = s ++ b)%string -> a = b.
Proof. induction s as [|c s IH]; simpl; intro H; [exact H|]. inversion H. auto. Qed.

Lemma length_append a b :
  String.length (a ++ b) = (String.length a + String.length b)%nat.
Proof. induction a as [|c a IH]; simpl; [reflexivity|]. rewrite IH. reflexivity. Qed.

Lemma append_inj_r s a b : (a ++ s = b ++ s)%string -> a = b.
Proof.
  revert b. induction a as [|c a IH]; intros [|c' b] H; simpl in H.
  - reflexivity.
  - exfalso. apply (f_equal String.length) in H. simpl in H.
    rewrite length_append in H. lia.
  - exfalso. apply (f_equal String.length) in H. simpl in H.
    rewrite length_append in H. lia.
  - inversion H. f_equal. auto.
Qed.

Lemma dash_split s1 s2 r1 r2 :
  dash_free s1 = true -> dash_free s2 = true ->
  (s1 ++ String "-" r1 = s2 ++ String "-" r2)%string -> s1 = s2 /\ r1 = r2.
Proof.
  revert s2. induction s1 as [|c s1 IH]; intros [|c' s2] H1 H2 H; simpl in *.
  - inversion H. auto.
  - inversion H; subst. discriminate.
  - inversion H; subst. discriminate.
  - inversion H; subst. apply andb_true_iff in H1, H2.
    destruct (IH s2) as [-> ->]; tauto.
Qed.

Lemma string_of_uint_dash_free d : dash_free (NilEmpty.string_of_uint d) = true.
Proof. induction d; simpl; auto. Qed.

Lemma toString_dash_free z : 0 <= z -> dash_free (toString z) = true.
Proof.
  intro Hz. unfold toString. destruct z as [|p|p]; [reflexivity| |lia].
  simpl. destruct (Pos.to_uint p); try reflexivity; apply string_of_uint_dash_free.
Qed.

Lemma toString_inj z1 z2 : toString z1 = toString z2 -> z1 = z2.
Proof.
  unfold toString. intro H. apply DecimalZ.to_int_inj.
  assert (forall z, NilZero.int_of_string (NilZero.string_of_int (Z.to_int z))
                    = Some (Z.to_int z)) as Hr.
  { intro z. apply NilZero.isi; destruct z; simpl; try discriminate;
      intro E; inversion E as [E']; revert E'; apply DecimalPos.Unsigned.to_uint_nonnil. }
  pose proof (Hr z1) as R1. rewrite H, Hr in R1. inversion R1. reflexivity.
Qed.

Lemma item_etag_inj r r' :
  item_etag r = item_etag r' <-> Row.updated_at r = Row.updated_at r'.
Proof.
  unfold item_etag, getTime. split; [|intros ->; reflexivity].
  intro H. apply append_inj_l, append_inj_r in H. apply toString_inj, H.
Qed.

Lemma page_etag_inj limit offset d d' :
  page_etag limit offset d = page_etag limit offset d'
  <-> List.length (person d) = List.length (person d') /\ maxu d = maxu d'.
Proof.
  unfold page_etag. split; [|intros [-> ->]; reflexivity].
  intro H. do 6 apply append_inj_l in H.
  apply dash_split in H; try (apply toString_dash_free; lia).
  destruct H as [Hc Hm]. apply toString_inj, Nat2Z.inj in Hc.
  apply append_inj_r, toString_inj in Hm. auto.
Qed.

Lemma Number_toString_safe x : Z.abs x <= 2 ^ 53 -> Number_toString x = toString x.
Proof. intro Hx. unfold Number_toString. rewrite printed_safe by exact Hx. reflexivity. Qed.

Lemma page_etag_page limit offset d limit' offset' d' :
  0 <= limit <= 2 ^ 53 -> 0 <= offset <= 2 ^ 53 ->
  0 <= limit' <= 2 ^ 53 -> 0 <= offset' <= 2 ^ 53 ->
  page_etag limit offset d = page_etag limit' offset' d' ->
  limit = limit' /\ offset = offset'.
Proof.
  unfold page_etag. intros Hl Ho Hl' Ho' H0.
  rewrite !Number_toString_safe in H0 by lia.
  do 2 apply append_inj_l in H0.
  apply dash_split in H0; try (apply toString_dash_free; lia).
  destruct H0 as [El H0]. apply toString_inj in El.
  apply dash_split in H0; try (apply toString_dash_free; lia).
  destruct H0 as [Eo _]. apply toString_inj in Eo. auto.
Qed.

Lemma header_is_other e e' : e <> e' -> header_is (Some e) e' = false.
Proof. intro Hne. simpl. apply String.eqb_neq, Hne. Qed.

(** X11.  The page fingerprint of [GET /people], at a limit the schema
    accepts and an offset up to [2^53], over fewer than [2^31] persons,
    changes exactly when the number of rows of [person] or the latest
    [updated_at] changes: a conditional list with a fingerprint issued
    earlier for the same limit and offset is answered 304 when both are
    what they were, whatever else was written, and with the page and a
    different fingerprint when either differs.  A fingerprint issued for
    one limit and offset never validates a page of another limit or
    offset up to [2^53].  (Past [2^53] two offsets that are read as the
    same number are the same request.) *)
Theorem page_fingerprint_tracks_count_and_latest
    clock query_limit query_offset d d' :
  let limit := match query_limit with Some l => l | None => 20 end in
  let offset := match query_offset with Some o => o | None => 0 end in
  1 <= limit <= 100 -> 0 <= offset <= 2 ^ 53 ->
  Z.of_nat (List.length (person d)) < 2 ^ 31 ->
  Z.of_nat (List.length (person d')) < 2 ^ 31 ->
  let etag := page_etag limit offset d in
  (exists page,
     Rest.GET_people clock query_limit query_offset None d
     = (inr (Rest.send 200 (Some etag) (Some page)), d))
  /\ (List.length (person d') = List.length (person d) /\ maxu d' = maxu d ->
      Rest.GET_people clock query_limit query_offset (Some etag) d'
      = (inr (Rest.send 304 None None), d'))
  /\ (~ (List.length (person d') = List.length (person d) /\ maxu d' = maxu d) ->
      exists page,
        Rest.GET_people clock query_limit query_offset (Some etag) d'
        = (inr (Rest.send 200 (Some (page_etag limit offset d')) (Some page)), d')
        /\ page_etag limit offset d' <> etag)
  /\ (forall limit' offset',
        1 <= limit' <= 100 -> 0 <= offset' <= 2 ^ 53 ->
        (limit', offset') <> (limit, offset) ->
        exists page,
          Rest.GET_people clock (Some limit') (Some offset') (Some etag) d'
          = (inr (Rest.send 200 (Some (page_etag limit' offset' d')) (Some page)), d'))
  /\ (forall o1 o2 h,
        Number o1 = Number o2 ->
        Rest.GET_people clock query_limit (Some o1) h d
        = Rest.GET_people clock query_limit (Some o2) h d).
Proof.
  intros limit offset Hl Ho Hn Hn' etag. split; [|split; [|split; [|split]]].
  - eexists. rewrite (GET_people_safe clock query_limit query_offset None d Hl Ho Hn).
    reflexivity.
  - intros Hsame.
    rewrite (GET_people_safe clock query_limit query_offset _ d' Hl Ho Hn').
    fold limit offset.
    assert (page_etag limit offset d' = etag) as ->
      by (apply (proj2 (page_etag_inj _ _ _ _)), Hsame).
    rewrite header_is_same. reflexivity.
  - intros Hdiff.
    assert (page_etag limit offset d' <> etag) as Hne.
    { intro E. apply Hdiff. unfold etag in E.
      apply (proj1 (page_etag_inj _ _ _ _)) in E. exact E. }
    eexists. split; [|exact Hne].
    rewrite (GET_people_safe clock query_limit query_offset _ d' Hl Ho Hn').
    fold limit offset. rewrite header_is_other by (intro E; apply Hne; auto).
    reflexivity.
  - intros limit' offset' Hl' Ho' Hne. eexists.
    rewrite (GET_people_safe clock (Some limit') (Some offset') _ d' Hl' Ho' Hn').
    rewrite header_is_other; [reflexivity|].
    intro E. apply Hne. unfold etag in E.
    destruct (page_etag_page limit offset d limit' offset' d') as [-> ->];
      auto; lia.
  - intros o1 o2 h E. unfold Rest.GET_people. cbn [option_map]. rewrite E.
    reflexivity.
Qed.

(** X12.  The single-item fingerprints of two rows are equal exactly when
    their [updated_at] are.  So after a successful [PATCH /people/:id]
    that names a scalar field, at a [now()] other than the person's
    previous [updated_at], a conditional fetch with the fingerprint issued
    before is answered with the person and a different fingerprint. *)
Theorem scalar_update_invalidates_fingerprint g clock clock' id b d reply d' r :
  Rest.PATCH_person g clock id b d = (inr reply, d') ->
  lookup id d = Some r ->
  ~ no_scalar b ->
  now g <> Row.updated_at r ->
  exists r',
    lookup id d' = Some r'
    /\ Row.updated_at r' = now g
    /\ item_etag r' <> item_etag r
    /\ Rest.GET_person clock' id (Some (item_etag r)) d'
       = (inr (Rest.send 200 (Some (item_etag r'))
                 (Some (Rest.toDTO r' (contacts_of id d') clock'))), d').
Proof.
  intros H Hl Hns Hnow. apply PATCH_person_ok in H.
  destruct H as [_ [r0 [d1 [r' [Hl0 [Hs [Hc [Hl' _]]]]]]]].
  assert (r0 = r) by congruence; subst r0.
  destruct (update_steps_frame_coerced g true id b d d1 d' r Hs Hc Hl)
    as [r'' [Hl'' [_ [_ [_ Hsome]]]]].
  assert (r'' = r') by congruence; subst r''.
  assert (Row.updated_at r' = now g) as Hu.
  { apply Hsome. intro E. apply Hns, no_scalar_updates, E. }
  assert (item_etag r' <> item_etag r) as Hne.
  { intro E. apply item_etag_inj in E. congruence. }
  exists r'. split; [exact Hl'|]. split; [exact Hu|]. split; [exact Hne|].
  unfold Rest.GET_person. rewrite read_handler_run, Hl'.
  rewrite header_is_other by (intro E; apply Hne; auto). reflexivity.
Qed.

(* ================================================================== *)
(** ** The list of the resolver *)

(** X13.  [Query.people] bounds its limit by the type of the argument
    alone.  With a limit that is an [Int], at or above the number of
    people, it returns the whole table in the order of the emails, every
    person once and with the contacts resolved, also for limits above
    100, which [GET /people] rejects; a limit from [2^31] on is no [Int],
    and the request is refused before the resolver runs. *)
Theorem people_limit_is_bounded_by_Int_alone clock limit d :
  Z.of_nat (List.length (person d)) <= limit -> limit < 2 ^ 31 ->
  exists items,
    Graphql.people clock (val limit) absent d
    = (inr (Graphql.mkPage (Z.of_nat (List.length (person d))) (Some limit) (Some 0) items),
       d)
    /\ items = map (fun r => Graphql.toDTO r (contacts_of (Row.id r) d) clock)
                   (order_by Row.email (person d))
    /\ Permutation (map DTO.id items) (map Row.id (person d))
    /\ (100 < limit ->
        Rest.GET_people clock (Some limit) None None d = (inl ValidationError, d))
    /\ (forall big arg_offset,
          2 ^ 31 <= big ->
          Graphql.people clock (val big) arg_offset d = (inl ValidationError, d)).
Proof.
  intros Hl Hint.
  pose proof (people_accepted clock (Some limit) None d) as Hp. cbv zeta in Hp.
  specialize (Hp ltac:(lia) ltac:(lia) ltac:(lia)). simpl arg_of_query in Hp.
  unfold page_rows in Hp.
  change (Z.to_nat 0) with 0%nat in Hp. rewrite skipn_O in Hp.
  rewrite firstn_all2 in Hp.
  2:{ rewrite <- (Permutation_length (order_by_perm Row.email (person d))). lia. }
  eexists. split; [exact Hp|]. split; [reflexivity|]. split; [|split].
  - rewrite map_map. simpl.
    apply Permutation_map, Permutation_sym, order_by_perm.
  - intro H100. rewrite GET_people_read.
    destruct (Z.leb_spec limit 100); [lia|].
    rewrite andb_false_r. reflexivity.
  - intros big arg_offset Hbig. apply people_refused. left.
    unfold Graphql.Int.
    destruct (Z.ltb_spec big (2 ^ 31)); [lia|]. apply andb_false_r.
Qed.

(* ================================================================== *)
(** ** Transactions and the connection *)

Lemma bind_closed {A B} (m : M client A) (k : A -> M client B) :
  (forall a c b c', k a c = (inr b, c') -> snapshot c' = None) ->
  forall c b c', bind m k c = (inr b, c') -> snapshot c' = None.
Proof.
  intros Hk c b c'. unfold bind. destruct (m c) as [[e|a] c1]; [discriminate|].
  apply Hk.
Qed.

Lemma commit_closed {A} (k : M client A) :
  (forall c, snd (k c) = c) ->
  forall c a c', bind commit (fun _ => k) c = (inr a, c') -> snapshot c' = None.
Proof.
  intros Hk c a c'. unfold bind, commit. intro H.
  specialize (Hk (mkClient (store c) None)). rewrite H in Hk. simpl in Hk.
  subst c'. reflexivity.
Qed.

Lemma on_error_closed {A} (m : M client A) :
  (forall c a c', m c = (inr a, c') -> snapshot c' = None) ->
  forall c, snapshot (snd (try_catch m Rest.on_error c)) = None.
Proof.
  intros Hm c. unfold try_catch. destruct (m c) as [[e|a] c1] eqn:E.
  - unfold Rest.on_error, bind, rollback, throw.
    destruct (snapshot c1) eqn:Es; simpl; [reflexivity|exact Es].
  - simpl. eapply Hm, E.
Qed.

Lemma rethrown_not_unique e : Rest.rethrown e <> PgError unique_violation.
Proof.
  destruct e as [s| | |]; try discriminate. destruct s; discriminate.
Qed.

Lemma on_error_not_unique {A} (m : M client A) c :
  fst (try_catch m Rest.on_error c) <> inl (PgError unique_violation).
Proof.
  unfold try_catch. destruct (m c) as [[e|a] c1]; [|discriminate].
  unfold Rest.on_error, bind, rollback, throw. simpl.
  intro H. inversion H as [E]. exact (rethrown_not_unique e E).
Qed.

Lemma create_transaction_closed g clock b c :
  snapshot (snd (create_transaction g clock b c)) = None.
Proof.
  apply on_error_closed. clear c.
  apply bind_closed; intros _. apply bind_closed; intros p.
  apply bind_closed; intros _. apply bind_closed; intros contacts.
  apply commit_closed. reflexivity.
Qed.

Lemma update_transaction_closed g clock id b c :
  snapshot (snd (update_transaction g clock id b c)) = None.
Proof.
  apply on_error_closed. clear c.
  apply bind_closed; intros _. apply bind_closed; intros existing.
  apply bind_closed; intros _. apply bind_closed; intros _.
  apply bind_closed; intros _. apply bind_closed; intros p.
  apply bind_closed; intros contacts.
  apply commit_closed. intro c. destruct p; reflexivity.
Qed.

Lemma withClient_closed {A} (fn : M client A) d :
  snapshot (snd (fn (mkClient d None))) = None ->
  withClient fn d = (fst (fn (mkClient d None)), store (snd (fn (mkClient d None)))).
Proof.
  unfold withClient, committed. destruct (fn (mkClient d None)) as [r c]. simpl.
  intros ->. reflexivity.
Qed.

(** X14.  Both transactions of the REST surface are closed on every path:
    whatever the request and whatever state the connection is handed
    over in, the function given to [db.withClient] ends after a [commit]
    or a [rollback], so no connection goes back to the pool inside a
    transaction, and what the handler leaves is the connection's own
    final state.  The driver's unique-violation never leaves the
    [catch] as it is. *)
Theorem transactions_are_closed g clock id b c d :
  snapshot (snd (create_transaction g clock b c)) = None
  /\ snapshot (snd (update_transaction g clock id b c)) = None
  /\ Rest.create_handler g clock b d
     = (fst (create_transaction g clock b (mkClient d None)),
        store (snd (create_transaction g clock b (mkClient d None))))
  /\ Rest.update_handler g clock id b d
     = (fst (update_transaction g clock id b (mkClient d None)),
        store (snd (update_transaction g clock id b (mkClient d None))))
  /\ fst (create_transaction g clock b c) <> inl (PgError unique_violation)
  /\ fst (update_transaction g clock id b c) <> inl (PgError unique_violation).
Proof.
  split; [apply create_transaction_closed|].
  split; [apply update_transaction_closed|].
  split; [apply (withClient_closed (create_transaction g clock b)),
            create_transaction_closed|].
  split; [apply (withClient_closed (update_transaction g clock id b)),
            update_transaction_closed|].
  split; apply on_error_not_unique.
Qed.

(* ================================================================== *)
(** ** What the resolvers complete, the handlers complete *)

Lemma insert_person_contacts_inr i ids d u d2 :
  insert_person_contacts i ids d = inr (u, d2) ->
  NoDup ids /\ incl ids (map Row.id (person d)).
Proof.
  unfold insert_person_contacts.
  destruct (insert_links i ids (person_contacts d)) as [e|t] eqn:El; [discriminate|].
  destruct (forallb _ ids) eqn:Ef; [|discriminate]. intros _.
  destruct (insert_links_inr _ _ _ _ El) as [_ [_ [Hn _]]]. split; [exact Hn|].
  intros x Hx. rewrite forallb_forall in Ef. specialize (Ef x Hx).
  apply andb_true_iff in Ef. apply existsb_has_id, Ef.
Qed.

Lemma contacts_step_unchecked i b d d2 :
  NoDup (map Row.id (person d)) ->
  contacts_step false i b d = inr d2 -> contacts_step true i b d = inr d2.
Proof.
  intros Hd. unfold contacts_step. destruct (present (Body.contacts b)); [|auto].
  destruct (nonempty_array (Body.contacts b)) as [ids|]; [|auto]. simpl.
  destruct (insert_person_contacts i ids (unlink i d)) as [e|[u d']] eqn:E;
    [discriminate|].
  destruct (insert_person_contacts_inr _ _ _ _ _ E) as [Hn Hin].
  assert (List.length (rows_among ids d) = List.length ids) as ->
    by (apply rows_among_count; auto).
  rewrite Nat.eqb_refl. simpl. auto.
Qed.

(** X15.  The converse of the parity on success: over storage that meets
    the constraints of the schema, a create or an update that the
    resolver completes, on a body as the REST validation leaves it and
    which the REST schema accepts (the test of [format: "email"]
    included), is completed by the REST route with the same object and
    the same storage.  So on a request both surfaces accept and the
    coercion leaves as it is (no [null] in [name], [surname], [phone] or
    [email], no empty [gender]) the two surfaces complete the same
    creates and updates. *)
Theorem resolver_success_is_REST_success g clock id b d dto d' :
  consistent d ->
  (personSchema true (coerceTypes b) = true ->
   Graphql.createPerson g clock (coerceTypes b) d = (inr dto, d') ->
   Rest.POST_people g clock b d = (inr (Rest.send 201 None (Some dto)), d'))
  /\ (personSchema false (coerceTypes b) = true ->
      Graphql.updatePerson g clock id (coerceTypes b) d = (inr dto, d') ->
      Rest.PATCH_person g clock id b d = (inr (Rest.send 200 None (Some dto)), d')).
Proof.
  intro Hd. split.
  - intros Hs H0. unfold Rest.POST_people, Rest.validated. cbv zeta. rewrite Hs.
    rewrite createPerson_run in H0. rewrite create_handler_run.
    destruct (insert_body g (coerceTypes b) d) as [e|[p d1]] eqn:Ei; [discriminate|].
    assert (consistent d1) as Hd1 by (eapply consistent_insert_person; eauto).
    destruct (nonempty_array (Body.contacts (coerceTypes b))) as [ids|].
    + destruct (insert_person_contacts (Row.id p) ids d1) as [e|[u d2]] eqn:Ec;
        [discriminate|].
      destruct (insert_person_contacts_inr _ _ _ _ _ Ec) as [Hn Hin].
      assert (List.length (rows_among ids d1) = List.length ids) as ->
        by (apply rows_among_count; auto; apply Hd1).
      rewrite Nat.eqb_refl. inversion H0; subst. rewrite toDTO_same. reflexivity.
    + inversion H0; subst. rewrite toDTO_same. reflexivity.
  - intros Hs H0. apply updatePerson_ok in H0.
    destruct H0 as [r [d1 [r' [Hl [Hsc [Hc [Hl' ->]]]]]]].
    rewrite <- toDTO_same. rewrite contacts_step_coerceTypes in Hc.
    apply (PATCH_person_intro g clock id b d r d1 d' r'); auto.
    apply contacts_step_unchecked; auto.
    apply (consistent_scalar_step g id (coerceTypes b) d d1 Hsc Hd).
Qed.

End Properties.

(* ================================================================== *)
(** * The properties on the sample data

    The theorems above, applied to the people of the sample; the test of
    [format: "email"] is the one of the sample. *)

#[global] Existing Instance Sample.formats.

Lemma C5_witness :
  computeAge (Some (UTC 2000 5 15)) (UTC 2020 0 1)
  = computeAge (Some (UTC 2000 5 15)) (UTC 2020 0 1 + 3600000).
Proof.
  apply (C5_computeAge_depends_on_clock_day
           (Some (UTC 2000 5 15)) (UTC 2020 0 1) (UTC 2020 0 1 + 3600000));
    vm_compute; reflexivity.
Defined.

(** C5 as stated fails: the same call, with the same argument, returns 19
    on 1 January 2020 and 20 on 1 January 2021. *)
Lemma C5_counterexample :
  (computeAge (Some (UTC 2000 5 15)) (UTC 2020 0 1) = Some 19
   /\ computeAge (Some (UTC 2000 5 15)) (UTC 2021 0 1) = Some 20)
  /\ ~ (forall bday clock1 clock2, computeAge bday clock1 = computeAge bday clock2).
Proof.
  split; [split; vm_compute; reflexivity|].
  intro H. specialize (H (Some (UTC 2000 5 15)) (UTC 2020 0 1) (UTC 2021 0 1)).
  vm_compute in H. discriminate.
Qed.

Lemma C7_witness :
  let b := Body.mk absent absent absent absent (val "+999") absent absent in
  exists r r',
    lookup 1%N Sample.alice_knows_bob = Some r
    /\ lookup 1%N (snd (Rest.PATCH_person Sample.later Sample.clock 1%N b
                          Sample.alice_knows_bob)) = Some r'
    /\ frame b r r'
    /\ (Body.contacts b = absent ->
        person_contacts (snd (Rest.PATCH_person Sample.later Sample.clock 1%N b
                                Sample.alice_knows_bob))
        = person_contacts Sample.alice_knows_bob).
Proof.
  intro b.
  eapply (C7_partial_update_frame Sample.later Sample.clock 1%N b
            Sample.alice_knows_bob _ (Graphql.toDTO Sample.alice [] Sample.clock) _).
  left. reflexivity.
Defined.

Lemma C2_witness :
  exists r r',
    lookup 1%N Sample.two_people = Some r
    /\ lookup 1%N Sample.alice_knows_bob = Some r'
    /\ Rest.send 200 None
         (Some (Rest.toDTO Sample.alice [contact_of_row Sample.bob] Sample.clock))
       = Rest.send 200 None
           (Some (Rest.toDTO r' (contacts_of 1%N Sample.alice_knows_bob) Sample.clock))
    /\ (no_scalar (Sample.only_contacts [2%N]) ->
        person Sample.alice_knows_bob = person Sample.two_people /\ r' = r
        /\ DTO.modified (Rest.toDTO r' (contacts_of 1%N Sample.alice_knows_bob)
                           Sample.clock) = Row.updated_at r
        /\ forall clock',
             Rest.GET_person clock' 1%N None Sample.two_people
             = (inr (Rest.send 200 (Some (item_etag r))
                       (Some (Rest.toDTO r (contacts_of 1%N Sample.two_people) clock'))),
                Sample.two_people)
             /\ Rest.GET_person clock' 1%N None Sample.alice_knows_bob
                = (inr (Rest.send 200 (Some (item_etag r))
                          (Some (Rest.toDTO r (contacts_of 1%N Sample.alice_knows_bob)
                                   clock'))), Sample.alice_knows_bob)
             /\ Rest.GET_person clock' 1%N (Some (item_etag r)) Sample.alice_knows_bob
                = (inr (Rest.send 304 None None), Sample.alice_knows_bob))
    /\ (~ no_scalar (Sample.only_contacts [2%N]) ->
        Row.updated_at r' = now Sample.later).
Proof.
  apply (C2_contacts_only_update_keeps_fingerprint Sample.later Sample.clock 1%N
           (Sample.only_contacts [2%N]) Sample.two_people).
  reflexivity.
Defined.

(** C2 as stated fails: Alice's contact set is replaced at a later moment
    of the database, the update succeeds, and her row, its [updated_at]
    and the fingerprint are what they were. *)
Lemma C2_counterexample :
  (Rest.PATCH_person Sample.later Sample.clock 1%N (Sample.only_contacts [2%N])
     Sample.two_people
   = (inr (Rest.send 200 None
             (Some (Rest.toDTO Sample.alice [contact_of_row Sample.bob] Sample.clock))),
      Sample.alice_knows_bob)
   /\ no_scalar (Sample.only_contacts [2%N])
   /\ person_contacts Sample.two_people = []
   /\ person_contacts Sample.alice_knows_bob = [(1%N, 2%N)]
   /\ lookup 1%N Sample.two_people = Some Sample.alice
   /\ lookup 1%N Sample.alice_knows_bob = Some Sample.alice
   /\ Row.updated_at Sample.alice <> now Sample.later
   /\ item_etag Sample.alice = quote ++ "1700000000000" ++ quote)
  /\ ~ (forall g clock id b d reply d' r r',
          Rest.PATCH_person g clock id b d = (inr reply, d') ->
          no_scalar b ->
          lookup id d = Some r -> lookup id d' = Some r' ->
          Row.updated_at r' <> Row.updated_at r /\ item_etag r' <> item_etag r).
Proof.
  assert (no_scalar (Sample.only_contacts [2%N])) as Hn
    by (unfold no_scalar; simpl; tauto).
  split.
  - repeat split; try reflexivity; try exact Hn. discriminate.
  - intro H.
    destruct (H Sample.later Sample.clock 1%N (Sample.only_contacts [2%N])
                Sample.two_people _ _ Sample.alice Sample.alice
                eq_refl Hn eq_refl eq_refl) as [H1 _].
    apply H1. reflexivity.
Qed.

Lemma C6_witness :
  exists reply1 d1 reply2 d2,
    Rest.PATCH_person Sample.later Sample.clock 1%N (Sample.only_contacts [2%N])
      Sample.two_people = (inr reply1, d1)
    /\ Rest.PATCH_person Sample.later_still Sample.clock 1%N (Sample.only_contacts [2%N])
         d1 = (inr reply2, d2)
    /\ person_contacts d2 = person_contacts d1
    /\ filter (fun pc => N.eqb (fst pc) 1%N) (person_contacts d1) = map (pair 1%N) [2%N].
Proof.
  apply (C6_contact_replace_idempotent Sample.later Sample.later_still
           Sample.clock Sample.clock 1%N (Sample.only_contacts [2%N]) [2%N]
           Sample.two_people).
  - apply consistentb_spec. reflexivity.
  - simpl. tauto.
  - repeat constructor. simpl. tauto.
  - intros c [<-|[]]. simpl. tauto.
  - simpl. intros [H|[]]. discriminate.
  - reflexivity.
  - left. unfold no_scalar. simpl. tauto.
Defined.


Lemma C10_witness :
  let etag := quote ++ toString (getTime (Row.updated_at Sample.bob)) ++ quote in
  Rest.GET_person Sample.clock 2%N None Sample.three_people
  = (inr (Rest.send 200 (Some etag)
            (Some (Rest.toDTO Sample.bob (contacts_of 2%N Sample.three_people)
                     Sample.clock))), Sample.three_people)
  /\ Rest.GET_person Sample.clock 3%N None Sample.three_people
     = (inr (Rest.send 200 (Some etag)
               (Some (Rest.toDTO Sample.carol (contacts_of 3%N Sample.three_people)
                        Sample.clock))), Sample.three_people)
  /\ Rest.GET_person Sample.clock 3%N (Some etag) Sample.three_people
     = (inr (Rest.send 304 None None), Sample.three_people).
Proof.
  apply (C10_fingerprint_without_identity Sample.clock Sample.three_people
           2%N 3%N Sample.bob Sample.carol).
  - discriminate.
  - reflexivity.
  - reflexivity.
  - reflexivity.
Defined.



(** C1, evaluated.  The same create, naming a contact id that is not in
    storage, on the same storage state: the REST route answers the
    referential error and leaves storage as it was; the resolver lets the
    foreign-key violation of the driver through, uncategorized, and the
    new row stays in [person]. *)
Theorem C1_surfaces_differ_on_missing_contact :
  let b := Sample.dan "dan@example.com" (val [9%N]) in
  Rest.POST_people Sample.later Sample.clock b Sample.two_people
  = (inl (badRequest "One or more contact IDs do not exist"), Sample.two_people)
  /\ categorize (badRequest "One or more contact IDs do not exist") = Some referential
  /\ Graphql.createPerson Sample.later Sample.clock b Sample.two_people
     = (inl (PgError foreign_key_violation),
        mkDb [Sample.alice; Sample.bob; Sample.dan_row] [])
  /\ categorize (PgError foreign_key_violation) = None.
Proof. repeat split. Qed.

(** C3, evaluated.  Through the resolvers, a contact id that is not in
    storage does not leave storage unchanged: [createPerson] keeps the new
    row, and [updatePerson] keeps the new name and has deleted the links
    the person had; both fail with the foreign-key violation, not with
    the referential error. *)
Theorem C3_resolvers_keep_partial_writes :
  Graphql.createPerson Sample.later Sample.clock
    (Sample.dan "dan@example.com" (val [9%N])) Sample.two_people
  = (inl (PgError foreign_key_violation),
     mkDb [Sample.alice; Sample.bob; Sample.dan_row] [])
  /\ Graphql.updatePerson Sample.later Sample.clock 1%N
       (Sample.rename_and_link [9%N]) Sample.alice_knows_bob
     = (inl (PgError foreign_key_violation), mkDb [Sample.alicia; Sample.bob] [])
  /\ mkDb [Sample.alice; Sample.bob; Sample.dan_row] [] <> Sample.two_people
  /\ mkDb [Sample.alicia; Sample.bob] [] <> Sample.alice_knows_bob.
Proof. repeat split; discriminate. Qed.


Lemma operations_keep_schema_constraints_witness :
  (forall g clock b, consistent (snd (Rest.POST_people g clock b Sample.alice_knows_bob)))
  /\ (forall g clock id b,
        consistent (snd (Rest.PATCH_person g clock id b Sample.alice_knows_bob)))
  /\ (forall id, consistent (snd (Rest.DELETE_person id Sample.alice_knows_bob)))
  /\ (forall g clock input,
        consistent (snd (Graphql.createPerson g clock input Sample.alice_knows_bob)))
  /\ (forall g clock id input,
        consistent (snd (Graphql.updatePerson g clock id input Sample.alice_knows_bob)))
  /\ (forall id, consistent (snd (Graphql.deletePerson id Sample.alice_knows_bob)))
  /\ (forall clock id h,
        snd (Rest.GET_person clock id h Sample.alice_knows_bob) = Sample.alice_knows_bob)
  /\ (forall clock id,
        snd (Graphql.person clock id Sample.alice_knows_bob) = Sample.alice_knows_bob).
Proof.
  apply (operations_keep_schema_constraints Sample.alice_knows_bob).
  apply consistentb_spec. reflexivity.
Defined.

Lemma REST_failure_changes_nothing_witness :
  snd (Rest.PATCH_person Sample.later Sample.clock 1%N
         (Sample.rename_and_link [9%N]) Sample.alice_knows_bob)
  = Sample.alice_knows_bob.
Proof.
  apply (REST_failure_changes_nothing Sample.later Sample.clock 1%N
           (Sample.rename_and_link [9%N]) Sample.alice_knows_bob
           (badRequest "One or more contact IDs do not exist")).
  right. left. reflexivity.
Defined.



Lemma contacts_are_resolved_witness :
  exists dto,
    Rest.GET_person Sample.clock 1%N None Sample.three_people
    = (inr (Rest.send 200 (Some (item_etag Sample.alice)) (Some dto)), Sample.three_people)
    /\ Graphql.person Sample.clock 1%N Sample.three_people
       = (inr (Some dto), Sample.three_people)
    /\ StronglySorted email_lt (map Contact.email (DTO.contacts dto))
    /\ (forall x, In x (DTO.contacts dto) <->
                  exists c, In c (person Sample.three_people)
                            /\ In (1%N, Row.id c) (person_contacts Sample.three_people)
                            /\ x = contact_of_row c)
    /\ List.length (DTO.contacts dto)
       = List.length (filter (fun pc => N.eqb (fst pc) 1%N)
                        (person_contacts Sample.three_people)).
Proof.
  apply (contacts_are_resolved_and_sorted Sample.clock 1%N Sample.three_people
           Sample.alice).
  - apply consistentb_spec. reflexivity.
  - reflexivity.
Defined.

Lemma contact_changes_are_live_witness :
  let bob' := with_updated_at (now Sample.later)
                (patched (Sample.rename_and_link []) Sample.bob) in
  let d' := mkDb [Sample.alice; bob'] [(1%N, 2%N)] in
  let reply := Rest.send 200 None (Some (Rest.toDTO bob' [] Sample.clock)) in
  exists rb' dto,
    lookup 2%N d' = Some rb'
    /\ reply = Rest.send 200 None (Some (Rest.toDTO rb' (contacts_of 2%N d') Sample.clock))
    /\ Rest.GET_person Sample.clock 1%N None d'
       = (inr (Rest.send 200 (Some (item_etag Sample.alice)) (Some dto)), d')
    /\ In (contact_of_row rb') (DTO.contacts dto)
    /\ (forall x, In x (DTO.contacts dto) -> Contact.id x = 2%N ->
                  x = contact_of_row rb').
Proof.
  intros bob' d' reply.
  apply (contact_changes_are_live Sample.later Sample.clock Sample.clock 1%N 2%N
           (Sample.rename_and_link []) Sample.alice_knows_bob reply d' Sample.alice).
  - apply consistentb_spec. reflexivity.
  - discriminate.
  - reflexivity.
  - simpl. tauto.
  - reflexivity.
Defined.

Lemma delete_cascades_witness :
  exists d',
    Rest.DELETE_person 2%N Sample.three_people = (inr (Rest.send 204 None None), d')
    /\ Graphql.deletePerson 2%N Sample.three_people = (inr true, d')
    /\ (forall r, In r (person d') <-> In r (person Sample.three_people) /\ Row.id r <> 2%N)
    /\ (forall pc, In pc (person_contacts d') <->
                   In pc (person_contacts Sample.three_people)
                   /\ fst pc <> 2%N /\ snd pc <> 2%N)
    /\ (forall a, a <> 2%N -> lookup a d' = lookup a Sample.three_people)
    /\ (forall a x, a <> 2%N ->
          (In x (contacts_of a d') <->
           In x (contacts_of a Sample.three_people) /\ Contact.id x <> 2%N))
    /\ Rest.GET_person Sample.clock 2%N None d' = (inl notFound, d')
    /\ Rest.DELETE_person 2%N d' = (inl notFound, d')
    /\ Graphql.deletePerson 2%N d' = (inr false, d').
Proof.
  apply (delete_cascades Sample.clock 2%N Sample.three_people Sample.bob).
  reflexivity.
Defined.

Lemma pages_partition_witness :
  exists e1 e2 e3 items1 items2,
    let total := Z.of_nat (List.length (person Sample.three_people)) in
    Rest.GET_people Sample.clock (Some 2) (Some 0) None Sample.three_people
    = (inr (Rest.send 200 (Some e1) (Some (Rest.mkPage total 2 0 items1))),
       Sample.three_people)
    /\ Rest.GET_people Sample.clock (Some 2) (Some (0 + 2)) None Sample.three_people
       = (inr (Rest.send 200 (Some e2) (Some (Rest.mkPage total 2 (0 + 2) items2))),
          Sample.three_people)
    /\ Rest.GET_people Sample.clock (Some (2 + 2)) (Some 0) None Sample.three_people
       = (inr (Rest.send 200 (Some e3)
                 (Some (Rest.mkPage total (2 + 2) 0 (items1 ++ items2)))),
          Sample.three_people)
    /\ Z.of_nat (List.length items1) = Z.min 2 (Z.max 0 (total - 0))
    /\ (0 = 0 -> total <= 2 ->
        Permutation (map Item.id items1) (map Row.id (person Sample.three_people))).
Proof.
  apply (pages_partition Sample.clock Sample.three_people 2 2 0); simpl; lia.
Defined.

Lemma page_fingerprint_witness :
  let etag := page_etag 20 0 Sample.two_people in
  (exists page,
     Rest.GET_people Sample.clock None None None Sample.two_people
     = (inr (Rest.send 200 (Some etag) (Some page)), Sample.two_people))
  /\ (List.length (person Sample.alice_knows_bob) = List.length (person Sample.two_people)
      /\ maxu Sample.alice_knows_bob = maxu Sample.two_people ->
      Rest.GET_people Sample.clock None None (Some etag) Sample.alice_knows_bob
      = (inr (Rest.send 304 None None), Sample.alice_knows_bob))
  /\ (~ (List.length (person Sample.alice_knows_bob) = List.length (person Sample.two_people)
         /\ maxu Sample.alice_knows_bob = maxu Sample.two_people) ->
      exists page,
        Rest.GET_people Sample.clock None None (Some etag) Sample.alice_knows_bob
        = (inr (Rest.send 200 (Some (page_etag 20 0 Sample.alice_knows_bob)) (Some page)),
           Sample.alice_knows_bob)
        /\ page_etag 20 0 Sample.alice_knows_bob <> etag)
  /\ (forall limit' offset',
        1 <= limit' <= 100 -> 0 <= offset' <= 2 ^ 53 -> (limit', offset') <> (20, 0) ->
        exists page,
          Rest.GET_people Sample.clock (Some limit') (Some offset') (Some etag)
            Sample.alice_knows_bob
          = (inr (Rest.send 200 (Some (page_etag limit' offset' Sample.alice_knows_bob))
                    (Some page)), Sample.alice_knows_bob))
  /\ (forall o1 o2 h,
        Number o1 = Number o2 ->
        Rest.GET_people Sample.clock None (Some o1) h Sample.two_people
        = Rest.GET_people Sample.clock None (Some o2) h Sample.two_people).
Proof.
  apply (page_fingerprint_tracks_count_and_latest Sample.clock None None
           Sample.two_people Sample.alice_knows_bob); simpl; lia.
Defined.

Lemma scalar_update_invalidates_witness :
  let d' := mkDb [Sample.alicia; Sample.bob] [(1%N, 2%N)] in
  exists r',
    lookup 1%N d' = Some r'
    /\ Row.updated_at r' = now Sample.later
    /\ item_etag r' <> item_etag Sample.alice
    /\ Rest.GET_person Sample.clock 1%N (Some (item_etag Sample.alice)) d'
       = (inr (Rest.send 200 (Some (item_etag r'))
                 (Some (Rest.toDTO r' (contacts_of 1%N d') Sample.clock))), d').
Proof.
  intro d'.
  apply (scalar_update_invalidates_fingerprint Sample.later Sample.clock Sample.clock
           1%N (Sample.rename_and_link [2%N]) Sample.alice_knows_bob
           (Rest.send 200 None
              (Some (Rest.toDTO Sample.alicia [contact_of_row Sample.bob] Sample.clock)))
           d' Sample.alice).
  - reflexivity.
  - reflexivity.
  - unfold no_scalar. simpl. intros [H _]. discriminate.
  - discriminate.
Defined.

Lemma people_resolver_witness :
  exists items,
    Graphql.people Sample.clock (val 1000) absent Sample.three_people
    = (inr (Graphql.mkPage (Z.of_nat (List.length (person Sample.three_people)))
              (Some 1000) (Some 0) items),
       Sample.three_people)
    /\ items = map (fun r => Graphql.toDTO r (contacts_of (Row.id r) Sample.three_people)
                               Sample.clock)
                   (order_by Row.email (person Sample.three_people))
    /\ Permutation (map DTO.id items) (map Row.id (person Sample.three_people))
    /\ (100 < 1000 ->
        Rest.GET_people Sample.clock (Some 1000) None None Sample.three_people
        = (inl ValidationError, Sample.three_people))
    /\ (forall big arg_offset,
          2 ^ 31 <= big ->
          Graphql.people Sample.clock (val big) arg_offset Sample.three_people
          = (inl ValidationError, Sample.three_people)).
Proof.
  apply (people_limit_is_bounded_by_Int_alone Sample.clock 1000 Sample.three_people);
    simpl; lia.
Defined.

Lemma resolver_success_witness :
  Rest.POST_people Sample.later Sample.clock
    (Sample.eve (val [2%N; 1%N])) Sample.two_people
  = (inr (Rest.send 201 None
            (Some (Graphql.toDTO Sample.eve_row
                     [contact_of_row Sample.alice; contact_of_row Sample.bob]
                     Sample.clock))),
     mkDb [Sample.alice; Sample.bob; Sample.eve_row] [(4%N, 2%N); (4%N, 1%N)])
  /\ Rest.PATCH_person Sample.later Sample.clock 1%N Sample.no_phone
       Sample.alice_knows_bob
     = (inr (Rest.send 200 None
               (Some (Graphql.toDTO Sample.alice_empty_phone [contact_of_row Sample.bob]
                        Sample.clock))),
        mkDb [Sample.alice_empty_phone; Sample.bob] [(1%N, 2%N)]).
Proof.
  split.
  - apply (proj1 (resolver_success_is_REST_success Sample.later Sample.clock 1%N
                    (Sample.eve (val [2%N; 1%N])) Sample.two_people
                    _ _ (consistentb_spec Sample.two_people eq_refl)));
      reflexivity.
  - apply (proj2 (resolver_success_is_REST_success Sample.later Sample.clock 1%N
                    Sample.no_phone Sample.alice_knows_bob
                    _ _ (consistentb_spec Sample.alice_knows_bob eq_refl)));
      reflexivity.
Defined.

(* ================================================================== *)
(** ** Requests at the edges of the validation

    What the two surfaces make of the same request where the validation
    of the REST routes rewrites or refuses it, and of the numbers of a
    list past the integers a double or an [Int] holds. *)

(** A [null] phone is stored as the empty text through [PATCH
    /people/:id], and as no phone through [updatePerson]. *)
Example null_phone_on_both_surfaces :
  Rest.PATCH_person Sample.later Sample.clock 1%N Sample.no_phone Sample.alice_knows_bob
  = (inr (Rest.send 200 None
            (Some (Rest.toDTO Sample.alice_empty_phone [contact_of_row Sample.bob]
                     Sample.clock))),
     mkDb [Sample.alice_empty_phone; Sample.bob] [(1%N, 2%N)])
  /\ Graphql.updatePerson Sample.later Sample.clock 1%N Sample.no_phone
       Sample.alice_knows_bob
     = (inr (Graphql.toDTO Sample.alice_null_phone [contact_of_row Sample.bob]
               Sample.clock),
        mkDb [Sample.alice_null_phone; Sample.bob] [(1%N, 2%N)]).
Proof. split; reflexivity. Qed.

(** An empty gender is stored as no gender through [POST /people]; the
    insert of [createPerson] fails the check of the column. *)
Example empty_gender_on_both_surfaces :
  Rest.POST_people Sample.later Sample.clock (Sample.eve absent) Sample.two_people
  = (inr (Rest.send 201 None (Some (Rest.toDTO Sample.eve_row [] Sample.clock))),
     mkDb [Sample.alice; Sample.bob; Sample.eve_row] [])
  /\ Graphql.createPerson Sample.later Sample.clock (Sample.eve absent) Sample.two_people
     = (inl (PgError check_violation), Sample.two_people).
Proof. split; reflexivity. Qed.

(** A text that fails the test of [format: "email"] is refused by [POST
    /people] and stored by [createPerson]. *)
Example email_format_on_both_surfaces :
  format_email "nobody" = false
  /\ Rest.POST_people Sample.later Sample.clock (Sample.dan "nobody" absent)
       Sample.two_people
     = (inl ValidationError, Sample.two_people)
  /\ exists dto p,
       Graphql.createPerson Sample.later Sample.clock (Sample.dan "nobody" absent)
         Sample.two_people
       = (inr dto, mkDb [Sample.alice; Sample.bob; p] [])
       /\ Row.email p = "nobody".
Proof.
  split; [reflexivity|]. split; [reflexivity|].
  eexists. eexists. split; reflexivity.
Qed.

(** Offsets past [2^53]: the handler reads the nearest double, answers
    with it and prints it in the fingerprint; from [2^63] on Postgres
    does not read the offset. *)
Example offsets_past_the_safe_integers :
  Rest.GET_people Sample.clock None (Some (2 ^ 53 + 1)) None Sample.three_people
  = (inr (Rest.send 200 (Some (quote ++ "list-20-9007199254740992-3-1700000001000" ++ quote))
            (Some (Rest.mkPage 3 20 9007199254740992 []))),
     Sample.three_people)
  /\ Rest.GET_people Sample.clock None (Some (2 ^ 63 - 513)) None Sample.three_people
     = (inr (Rest.send 200
               (Some (quote ++ "list-20-9223372036854775000-3-1700000001000" ++ quote))
               (Some (Rest.mkPage 3 20 9223372036854774784 []))),
        Sample.three_people)
  /\ Rest.GET_people Sample.clock None (Some (2 ^ 63 - 512)) None Sample.three_people
     = (inl (PgError numeric_value_out_of_range), Sample.three_people)
  /\ Rest.GET_people Sample.clock None (Some (10 ^ 21)) None Sample.three_people
     = (inl (PgError invalid_text_representation), Sample.three_people).
Proof. repeat split; vm_compute; reflexivity. Qed.

(** Limits past [Int]: the largest [Int] is a limit of [Query.people],
    the next integer is refused. *)
Example limits_past_Int :
  Graphql.people Sample.clock (val (2 ^ 31 - 1)) absent Sample.three_people
  = (inr (Graphql.mkPage 3 (Some (2 ^ 31 - 1)) (Some 0)
            [Graphql.toDTO Sample.alice
               [contact_of_row Sample.bob; contact_of_row Sample.carol] Sample.clock;
             Graphql.toDTO Sample.bob [] Sample.clock;
             Graphql.toDTO Sample.carol [] Sample.clock]),
     Sample.three_people)
  /\ Graphql.people Sample.clock (val (2 ^ 31)) absent Sample.three_people
     = (inl ValidationError, Sample.three_people).
Proof. split; vm_compute; reflexivity. Qed.
